(** * Unicorn table compiler: the encoders and derivations of [scripts/make-tables]

    A shallow embedding of the Python script that compiles the Unicode
    Character Database into the static tables of the Unicorn library, and
    the properties of its sparse-table, sparse-set, case-fold, name-blob,
    composition and script-tag stages.

    Conventions.  A Python [int] is a [Z]; a [dict] whose iteration order
    cannot influence the result is a [gmap], a [set] a [gset]; the one
    dictionary whose iteration order decides a result ([canonical]) is an
    insertion-ordered association list.  A Python exception is [None] in an
    [option] result.  A table written to a [.cpp] file is the list of its
    entries, in the order the script writes them. *)

From Equations Require Import Equations.
From Stdlib Require Import Strings.Byte Ascii String HexadecimalString HexadecimalZ.
From stdpp Require Import gmap strings list sorting list_numbers.

Local Open Scope Z_scope.

(** A codepoint is an integer in [0, 0x10FFFF]. *)
Definition codepoint (c : Z) : Prop := 0 ≤ c ≤ 0x10FFFF.

(** * Sparse tables: [write_sparse_table] *)

Module SparseTable.
Section table.
Context {V : Type} `{EqDecision V}.

(** [table.get(k, defval)] *)
Definition table_get (table : gmap Z V) (k : Z) (defval : V) : V :=
  default defval (table !! k).

(** [max(table)]: the greatest key; raises [ValueError] on an empty dict. *)
Definition max_key (table : gmap Z V) : option Z :=
  match (map_to_list table).*1 with
  | [] => None
  | k :: ks => Some (foldl Z.max k ks)
  end.

(** The first loop of [write_sparse_table]: it counts the entries that the
    second loop is going to write.  [lastv] starts as Python's [None], which
    no value of the table equals. *)
Fixpoint count_loop (table : gmap Z V) (defval : V)
    (ks : list Z) (lastv : option V) (number : nat) : nat :=
  match ks with
  | [] => number
  | k :: ks' =>
      let v := table_get table k defval in
      let number' := if decide (Some v = lastv) then number else S number in
      count_loop table defval ks' (Some v) number'
  end.

(** The second loop: one entry [(k, v)] is written whenever the value at
    [k] differs from the value at the previous codepoint. *)
Fixpoint write_loop (table : gmap Z V) (defval : V)
    (ks : list Z) (lastv : option V) : list (Z * V) :=
  match ks with
  | [] => []
  | k :: ks' =>
      let v := table_get table k defval in
      if decide (Some v = lastv)
      then write_loop table defval ks' (Some v)
      else (k, v) :: write_loop table defval ks' (Some v)
  end.

(** [write_sparse_table(cpp, vtype, name, table, defval=None)].  [zero]
    stands for the text ['static_cast<vtype>(0)'] that replaces a missing
    [defval]; the result is the entry count of the array header and the
    entries written, over [range(0, max(table) + 2)]. *)
Definition write_sparse_table (zero : V) (table : gmap Z V)
    (defval : option V) : option (nat * list (Z * V)) :=
  let defval := default zero defval in
  m ← max_key table;
  let ks := seqZ 0 (m + 2) in
  Some (count_loop table defval ks None 0%nat,
        write_loop table defval ks None).

(** ** The run-time lookup *)

Definition key_le (entries : list (Z * V)) (i : nat) (c : Z) : bool :=
  match entries !! i with
  | Some (k, _) => bool_decide (k ≤ c)
  | None => false
  end.

(** Modelled from the spec: the binary search of the consumer, which is not
    part of the table compiler.  [upper_bound entries c lo hi] is the first
    index in [lo, hi) whose breakpoint is greater than [c]. *)
Equations upper_bound (entries : list (Z * V)) (c : Z) (lo hi : nat) : nat
    by wf (hi - lo)%nat lt :=
  upper_bound entries c lo hi with decide (lo < hi)%nat => {
    | right _ => lo
    | left Hlt =>
        if key_le entries (lo + (hi - lo) / 2)%nat c
        then upper_bound entries c (S (lo + (hi - lo) / 2)) hi
        else upper_bound entries c lo (lo + (hi - lo) / 2)%nat }.
Next Obligation.
  intros. pose proof (Nat.div_lt (hi - lo) 2). lia.
Qed.
Next Obligation.
  intros. pose proof (Nat.div_lt (hi - lo) 2). lia.
Qed.

(** Modelled from the spec: the query contract of section 4.3, "binary-search
    the breakpoint sequence for the greatest breakpoint <= the query
    codepoint and return its value; if the codepoint is less than the first
    breakpoint, or the table is empty, return the table's declared
    default". *)
Definition query (entries : list (Z * V)) (defval : V) (c : Z) : V :=
  match upper_bound entries c 0 (length entries) with
  | O => defval
  | S i => match entries !! i with
           | Some (_, v) => v
           | None => defval
           end
  end.

(** The value attached to the greatest breakpoint [<= c], by a linear scan
    of a sorted sequence; [acc] is the answer so far. *)
Fixpoint find_le (acc : option V) (entries : list (Z * V)) (c : Z) : option V :=
  match entries with
  | [] => acc
  | (k, v) :: es => if decide (k ≤ c) then find_le (Some v) es c else acc
  end.

(** ** Maximal runs of constant value *)

(** Run-length grouping of a list: every maximal run of equal adjacent
    elements becomes one pair of the value and the length of the run. *)
Fixpoint runs (l : list V) : list (V * nat) :=
  match l with
  | [] => []
  | x :: l' =>
      match runs l' with
      | (y, n) :: g => if decide (x = y) then (x, S n) :: g else (x, 1%nat) :: (y, n) :: g
      | [] => [(x, 1%nat)]
      end
  end.

(** The values of the scanned domain [0 .. max key + 1]. *)
Definition scanned_values (table : gmap Z V) (defval : V) (m : Z) : list V :=
  (λ k, table_get table k defval) <$> seqZ 0 (m + 2).

(** An association whose keys are all codepoints. *)
Definition codepoint_table (table : gmap Z V) : Prop :=
  ∀ k, is_Some (table !! k) → codepoint k.

End table.
End SparseTable.

(** * Explicit maps: [write_charmap] *)

Module Charmap.

(** [sorted(...)] on integers. *)
Definition sorted (codes : list Z) : list Z := merge_sort Z.le codes.

(** A key or value handed to [field_value]: one integer, or a list or tuple
    of them ([isinstance(field, (list, tuple))]). *)
Inductive field : Type :=
  | Single (c : Z)
  | Multiple (cs : list Z).

(** [field_value(field, size)]: the characters written for one field: a
    single [char32_t] for [size == 1], else an array of [size] characters
    padded with zeros.  [ValueError] when there are more characters than
    [size]; [IndexError] for an empty tuple with [size == 1]; [TypeError]
    for [len] of an integer when [size] is not 1. *)
Definition field_value (f : field) (size : nat) : option (list Z) :=
  if decide (size = 1%nat) then
    match f with
    | Multiple cs =>
        if decide (1 < length cs)%nat then None
        else c ← head cs; Some [c]
    | Single c => Some [c]
    end
  else
    match f with
    | Multiple cs =>
        if decide (size < length cs)%nat then None
        else Some (cs ++ replicate (size - length cs) 0)
    | Single _ => None
    end.

(** [write_charmap(cpp, name, table, keysize=1, valsize)] for a table keyed
    by single characters: the entries in ascending key order. *)
Definition write_charmap (table : gmap Z field) (valsize : nat)
    : option (list (Z * list Z)) :=
  mapM (λ c, v ← table !! c; fv ← field_value v valsize; Some (c, fv))
       (sorted (map_to_list table).*1).

End Charmap.

(** * Sparse sets: [write_sparse_set] *)

Module SparseSet.
Import Charmap.

(** The variables of the loop of [write_sparse_set]. *)
Record scan_state : Type := {
  ss_subranges : gmap Z Z;
  ss_first : Z;
  ss_last : Z
}.

(** [subranges = {}; first = last = -99] *)
Definition scan_init : scan_state :=
  {| ss_subranges := ∅; ss_first := -99; ss_last := -99 |}.

(** One iteration: [if c != last + 1: first = c] and then
    [subranges[first] = last = c]. *)
Definition scan_step (st : scan_state) (c : Z) : scan_state :=
  let first := if decide (c ≠ ss_last st + 1) then c else ss_first st in
  {| ss_subranges := <[first := c]> (ss_subranges st);
     ss_first := first;
     ss_last := c |}.

Definition write_sparse_set (table : gset Z) : option (list (Z * list Z)) :=
  let codes := sorted (elements table) in
  let subranges := ss_subranges (foldl scan_step scan_init codes) in
  write_charmap (Single <$> subranges) 1.

(** The closed interval written as the entry [(first, last)]. *)
Definition covers (e : Z * list Z) (c : Z) : Prop :=
  ∃ l, e.2 = [l] ∧ e.1 ≤ c ≤ l.

End SparseSet.

(** * Python dictionaries in insertion order *)

Module PyDict.
Section dict.
Context {K V : Type} `{EqDecision K}.

(** The items of a [dict], in the order in which the keys were first
    inserted: the order of [for k in d]. *)
Definition dict : Type := list (K * V).

(** [d.get(k)] *)
Fixpoint get (d : dict) (k : K) : option V :=
  match d with
  | [] => None
  | (k', v) :: d' => if decide (k = k') then Some v else get d' k
  end.

(** [d[k] = v]: a key already present keeps its place. *)
Fixpoint set (d : dict) (k : K) (v : V) : dict :=
  match d with
  | [] => [(k, v)]
  | (k', v') :: d' =>
      if decide (k = k') then (k, v) :: d' else (k', v') :: set d' k v
  end.

Definition keys (d : dict) : list K := d.*1.
End dict.
Global Arguments dict : clear implicits.
End PyDict.

(** * Strings *)

Module Str.
Local Open Scope string_scope.

(** [ord(c)] *)
Definition ord (c : ascii) : Z := Z.of_N (N_of_ascii c).

(** [s.startswith(p)] and [s.endswith(p)] *)
Definition startswith (p s : string) : bool := String.prefix p s.
Definition endswith (p s : string) : bool :=
  String.prefix (String.rev p) (String.rev s).

(** ['{0:x}'.format(z)]: lower-case hexadecimal, ["0"] for zero, a minus
    sign for a negative number. *)
Definition format_hex (z : Z) : string :=
  NilZero.string_of_int (Z.to_hex_int z).

(** ['{0:4x}'.format(z)]: right-aligned in a field of at least [width]
    characters, padded with spaces. *)
Definition pad_left (width : nat) (s : string) : string :=
  string_of_list_ascii (replicate (width - String.length s) " "%char) +:+ s.

(** [fields[i]] of a string, [IndexError] when out of range. *)
Definition char_at (s : string) (i : nat) : option ascii := String.get i s.
End Str.

(** * The pass over [UnicodeData.txt] *)

Module UnicodeData.
Import Str.
Local Open Scope string_scope.

(** Field 5 after [split_codes]: empty, a canonical decomposition (no
    formatting tag in front; a non-empty field has at least one word), or
    a compatibility decomposition (the words after the tag). *)
Inductive decomposition : Type :=
  | NoDecomposition
  | Canonical (d0 : Z) (ds : list Z)
  | Compatibility (dchars : list Z).

(** The fields of one record that [unicode_data_record] reads, the numeric
    ones after [int(..., 16)], [int(...)] and [split_codes], which raise
    [ValueError] on a field that is not a number. *)
Record ud_fields : Type := {
  ud_code : Z;                (* [0] *)
  ud_name : string;           (* [1] *)
  ud_category : string;       (* [2] *)
  ud_ccc : Z;                 (* [3] *)
  ud_bidi : string;           (* [4] *)
  ud_decomp : decomposition;  (* [5] *)
  ud_mirrored : string;       (* [9] *)
  ud_upper : option Z;        (* [12], [None] when empty *)
  ud_lower : option Z;        (* [13] *)
  ud_title : option Z         (* [14] *)
}.

(** The module-level tables filled by the pass. *)
Record ucd : Type := {
  character_names : gmap Z string;
  range_bounds : list (Z * Z);
  general_category : gmap Z string;
  combining_class : gmap Z Z;
  bidi_class : gmap Z string;
  bidi_mirrored : gset Z;
  canonical : PyDict.dict Z (list Z);
  composition_exclusion : gset Z;
  short_compatibility : gmap Z (list Z);
  long_compatibility : gmap Z (list Z);
  simple_upper : gmap Z Z;
  simple_lower : gmap Z Z;
  simple_title : gmap Z Z
}.

Definition ucd_init : ucd :=
  {| character_names := ∅; range_bounds := []; general_category := ∅;
     combining_class := ∅; bidi_class := ∅; bidi_mirrored := ∅;
     canonical := []; composition_exclusion := ∅;
     short_compatibility := ∅; long_compatibility := ∅;
     simple_upper := ∅; simple_lower := ∅; simple_title := ∅ |}.

(** The three case values of a record: a missing upper or lower case is the
    code itself, a missing title case is the upper case. *)
Definition uc_of (fields : ud_fields) : Z := default (ud_code fields) (ud_upper fields).
Definition lc_of (fields : ud_fields) : Z := default (ud_code fields) (ud_lower fields).
Definition tc_of (fields : ud_fields) : Z := default (uc_of fields) (ud_title fields).

(** [range_bounds[-1][1] = code], [IndexError] on an empty list. *)
Definition close_range (rb : list (Z * Z)) (code : Z) : option (list (Z * Z)) :=
  match reverse rb with
  | [] => None
  | (first, _) :: rest => Some (reverse ((first, code) :: rest))
  end.

(** [unicode_data_record(fields)] *)
Definition unicode_data_record (fields : ud_fields) (st : ucd) : option ucd :=
  let code := ud_code fields in
  let name := ud_name fields in
  rb ← (if endswith " First>" name then Some (range_bounds st ++ [(code, code)])%list
        else if endswith " Last>" name then close_range (range_bounds st) code
        else Some (range_bounds st));
  g0 ← char_at (ud_category fields) 0;
  g1 ← char_at (ud_category fields) 1;
  let uc := uc_of fields in
  let lc := lc_of fields in
  let tc := tc_of fields in
  Some {|
    character_names :=
      if startswith "<" name then character_names st
      else <[code := name]> (character_names st);
    range_bounds := rb;
    general_category :=
      <[code := "0x" +:+ pad_left 4 (format_hex (256 * ord g0 + ord g1))]>
        (general_category st);
    combining_class := <[code := ud_ccc fields]> (combining_class st);
    bidi_class := <[code := "Bidi_Class::" +:+ ud_bidi fields]> (bidi_class st);
    bidi_mirrored :=
      if decide (ud_mirrored fields = "Y") then {[code]} ∪ bidi_mirrored st
      else bidi_mirrored st;
    canonical :=
      match ud_decomp fields with
      | Canonical d0 ds => PyDict.set (canonical st) code (d0 :: ds)
      | _ => canonical st
      end;
    composition_exclusion :=
      match ud_decomp fields with
      | Canonical d0 ds =>
          if decide (length (d0 :: ds) = 1%nat)
          then {[code]} ∪ composition_exclusion st
          else composition_exclusion st
      | _ => composition_exclusion st
      end;
    short_compatibility :=
      match ud_decomp fields with
      | Compatibility dchars =>
          if decide (length dchars ≤ 3)%nat
          then <[code := dchars]> (short_compatibility st)
          else short_compatibility st
      | _ => short_compatibility st
      end;
    long_compatibility :=
      match ud_decomp fields with
      | Compatibility dchars =>
          if decide (length dchars ≤ 3)%nat
          then long_compatibility st
          else <[code := dchars]> (long_compatibility st)
      | _ => long_compatibility st
      end;
    simple_upper :=
      if decide (uc ≠ code) then <[code := uc]> (simple_upper st)
      else simple_upper st;
    simple_lower :=
      if decide (lc ≠ code) then <[code := lc]> (simple_lower st)
      else simple_lower st;
    simple_title :=
      if decide (tc ≠ uc) then <[code := tc]> (simple_title st)
      else simple_title st
  |}.

(** [process_file('ucd/UnicodeData.txt', unicode_data_record, 15)] on the
    records of the file, in file order. *)
Fixpoint process_records (records : list ud_fields) (st : ucd) : option ucd :=
  match records with
  | [] => Some st
  | fields :: records' =>
      st' ← unicode_data_record fields st;
      process_records records' st'
  end.

End UnicodeData.

(** * Case folding *)

Module CaseFolding.
Local Open Scope string_scope.

(** The fields of one record of [CaseFolding.txt]: the code after
    [int(..., 16)], the status, and the hexadecimal words of the mapping. *)
Record cf_fields : Type := {
  cf_code : Z;            (* [0] *)
  cf_status : string;     (* [1] *)
  cf_mapping : list Z     (* [2] *)
}.

Record fold_tables : Type := {
  simple_fold : gmap Z Z;
  full_fold : gmap Z (list Z)
}.

Definition fold_init : fold_tables := {| simple_fold := ∅; full_fold := ∅ |}.

(** [case_folding_record(fields)]: a common or simple mapping is one
    number ([int] raises [ValueError] on anything else); a full mapping is
    kept when it has more than one character. *)
Definition case_folding_record (fields : cf_fields) (ft : fold_tables)
    : option fold_tables :=
  let code := cf_code fields in
  let status := cf_status fields in
  if decide (status = "C" ∨ status = "S") then
    match cf_mapping fields with
    | [mapping] =>
        Some {| simple_fold := <[code := mapping]> (simple_fold ft);
                full_fold := full_fold ft |}
    | _ => None
    end
  else if decide (status = "F") then
    let values := cf_mapping fields in
    if decide (1 < length values)%nat
    then Some {| simple_fold := simple_fold ft;
                 full_fold := <[code := values]> (full_fold ft) |}
    else Some ft
  else Some ft.

Fixpoint process_records (records : list cf_fields) (ft : fold_tables)
    : option fold_tables :=
  match records with
  | [] => Some ft
  | fields :: records' =>
      ft' ← case_folding_record fields ft;
      process_records records' ft'
  end.

(** [for code in simple_lower: if code not in simple_fold:
    simple_fold[code] = code] *)
Definition default_folds (simple_lower simple_fold : gmap Z Z) : gmap Z Z :=
  foldl (λ sf code, if decide (is_Some (sf !! code)) then sf
                    else <[code := code]> sf)
        simple_fold (map_to_list simple_lower).*1.

(** [for code in simple_fold: if code not in simple_lower or
    simple_lower[code] != simple_fold[code]: temp_fold[code] =
    simple_fold[code]] *)
Definition divergent_folds (simple_lower simple_fold : gmap Z Z) : gmap Z Z :=
  foldl (λ temp_fold '(code, mapping),
           if decide (simple_lower !! code = None ∨
                      simple_lower !! code ≠ Some mapping)
           then <[code := mapping]> temp_fold
           else temp_fold)
        ∅ (map_to_list simple_fold).

(** The [simple_fold] that is written. *)
Definition normalize_folds (simple_lower simple_fold : gmap Z Z) : gmap Z Z :=
  divergent_folds simple_lower (default_folds simple_lower simple_fold).

(** [write_charmap(cpp, 'simple_casefold', simple_fold)] and
    [write_charmap(cpp, 'full_casefold', full_fold, valsize=3)] *)
Definition write_simple_casefold (simple_lower : gmap Z Z) (ft : fold_tables)
    : option (list (Z * list Z)) :=
  Charmap.write_charmap
    (Charmap.Single <$> normalize_folds simple_lower (simple_fold ft)) 1.
Definition write_full_casefold (ft : fold_tables) : option (list (Z * list Z)) :=
  Charmap.write_charmap (Charmap.Multiple <$> full_fold ft) 3.

End CaseFolding.

(** * Composition exclusions and the composition table *)

Module Decomposition.
Import UnicodeData.

(** The code field of a record: one codepoint, or [first..last]. *)
Inductive code_field : Type :=
  | OneCode (c : Z)
  | CodeRange (first last : Z).

(** [hexrange(field)]: [range(first, last + 1)] or the single code. *)
Definition hexrange (field : code_field) : list Z :=
  match field with
  | OneCode c => [c]
  | CodeRange first last => seqZ first (last + 1 - first)
  end.

(** [BooleanUcdRecord(table)(fields)]: [table.update(hexrange(fields[0]))] *)
Definition boolean_ucd_record (table : gset Z) (field : code_field) : gset Z :=
  table ∪ list_to_set (hexrange field).

(** One iteration of [for c in canonical]:
    [if combining_class[c] != 0 or
        combining_class.get(canonical[c][0], 0) != 0:
        composition_exclusion.add(c)];
    [KeyError] when [c] has no combining class, [IndexError] on an empty
    decomposition. *)
Definition exclusion_step (cc : gmap Z Z) (excl : gset Z)
    (item : Z * list Z) : option (gset Z) :=
  ccc ← cc !! item.1;
  if decide (ccc ≠ 0) then Some ({[item.1]} ∪ excl)
  else
    d0 ← head item.2;
    if decide (default 0 (cc !! d0) ≠ 0) then Some ({[item.1]} ∪ excl)
    else Some excl.

(** The side conditions on the combining classes, for a code [c] with the
    canonical decomposition [ds] and a recorded combining class: the class of
    [c] is not zero, or that of the first character of [ds] is not zero. *)
Definition side_condition (cc : gmap Z Z) (c : Z) (ds : list Z) : Prop :=
  cc !! c ≠ Some 0 ∨ ∃ d0, head ds = Some d0 ∧ default 0 (cc !! d0) ≠ 0.

Fixpoint exclusion_loop (cc : gmap Z Z) (items : list (Z * list Z))
    (excl : gset Z) : option (gset Z) :=
  match items with
  | [] => Some excl
  | item :: items' =>
      excl' ← exclusion_step cc excl item;
      exclusion_loop cc items' excl'
  end.

(** [for c in canonical: if c not in composition_exclusion:
    composition[canonical[c]] = c], in the iteration order of [canonical]. *)
Definition composition_loop (excl : gset Z) (items : list (Z * list Z))
    : gmap (list Z) Z :=
  foldl (λ composition item,
           if decide (item.1 ∈ excl) then composition
           else <[item.2 := item.1]> composition)
        ∅ items.

Record decomposition_tables : Type := {
  dt_exclusion : gset Z;
  dt_composition : gmap (list Z) Z
}.

(** The decomposition stage, after the pass over [UnicodeData.txt]: the
    records of [CompositionExclusions.txt], the side conditions, and the
    composition table. *)
Definition derive (st : ucd) (exclusions : list code_field)
    : option decomposition_tables :=
  let listed := foldl boolean_ucd_record (composition_exclusion st) exclusions in
  excl ← exclusion_loop (combining_class st) (canonical st) listed;
  Some {| dt_exclusion := excl;
          dt_composition := composition_loop excl (canonical st) |}.

End Decomposition.

(** * Script tags *)

Module Script.
Import Str.

(** [c.lower()] on the characters U+0000..U+00FF. *)
Definition lower_char (c : ascii) : ascii :=
  let n := N_of_ascii c in
  if bool_decide ((0x41 ≤ n ≤ 0x5A)%N ∨ ((0xC0 ≤ n ≤ 0xDE)%N ∧ n ≠ 0xD7%N))
  then ascii_of_N (n + 32)
  else c.

Definition lower (s : string) : list ascii :=
  lower_char <$> list_ascii_of_string s.

(** [encode_script(abbr)] *)
Definition encode_script (abbr : string) : Z :=
  foldl (λ tag c, Z.shiftl tag 8 + ord c) 0 (lower abbr).

(** A lower-case ASCII letter. *)
Definition lowercase_letter (c : ascii) : Prop :=
  (0x61 ≤ N_of_ascii c ≤ 0x7A)%N.

(** A script code: one to four lower-case ASCII letters. *)
Definition script_code (abbr : string) : Prop :=
  (1 ≤ String.length abbr ≤ 4)%nat ∧
  Forall lowercase_letter (list_ascii_of_string abbr).

End Script.

(** * Reading a UCD file: [process_file] *)

Module ProcessFile.
Import Str.

(** The characters of a string. *)
Definition chars (s : string) : list ascii := list_ascii_of_string s.

(** [c.isspace()] on the characters U+0000..U+00FF. *)
Definition is_space (c : ascii) : bool :=
  let n := N_of_ascii c in
  bool_decide ((9 ≤ n ≤ 13)%N ∨ (28 ≤ n ≤ 32)%N ∨ n = 0x85%N ∨ n = 0xA0%N).

Fixpoint lstrip (l : list ascii) : list ascii :=
  match l with
  | [] => []
  | c :: l' => if is_space c then lstrip l' else l
  end.

(** [s.strip()] *)
Definition strip (s : string) : string :=
  string_of_list_ascii (reverse (lstrip (reverse (lstrip (chars s))))).

(** [s.partition(sep)[0]]: the text before the first [sep]. *)
Fixpoint before (sep : ascii) (l : list ascii) : list ascii :=
  match l with
  | [] => []
  | c :: l' => if decide (c = sep) then [] else c :: before sep l'
  end.

(** [s.split(sep)] for a separator of one character. *)
Fixpoint split_chars (sep : ascii) (l : list ascii) : list (list ascii) :=
  match l with
  | [] => [[]]
  | c :: l' =>
      if decide (c = sep) then [] :: split_chars sep l'
      else match split_chars sep l' with
           | f :: fs => (c :: f) :: fs
           | [] => [[c]]
           end
  end.

Definition split (sep : ascii) (s : string) : list string :=
  string_of_list_ascii <$> split_chars sep (chars s).

(** The body of the loop of [process_file] for one line: the fields handed
    to the callback, or [None] when the line is skipped. *)
Definition process_line (line : string) (minfields : nat) (delim : ascii)
    : option (list string) :=
  let text := strip (string_of_list_ascii (before "#" (chars line))) in
  if decide (text = EmptyString) then None
  else
    let fields := split delim text in
    if decide (minfields ≤ length fields)%nat
    then Some (strip <$> take minfields fields)
    else None.

(** [process_file(filename, callback, minfields, delim)] over the lines of
    the file; a callback that raises ends the run. *)
Fixpoint process_file {S : Type} (lines : list string)
    (callback : list string → S → option S) (minfields : nat) (delim : ascii)
    (st : S) : option S :=
  match lines with
  | [] => Some st
  | line :: lines' =>
      match process_line line minfields delim with
      | Some fields =>
          st' ← callback fields st;
          process_file lines' callback minfields delim st'
      | None => process_file lines' callback minfields delim st
      end
  end.

End ProcessFile.

(** * Character names *)

Module Names.
Import Str Charmap ProcessFile.
Local Open Scope string_scope.

(** ['{0:x};{1};'.format(code, name)] *)
Definition name_record (code : Z) (name : string) : string :=
  format_hex code +:+ ";" +:+ name +:+ ";".

(** [for code in sorted(character_names): names_list += ...] *)
Definition names_list (character_names : gmap Z string) : string :=
  foldl (λ names_list code,
           match character_names !! code with
           | Some name => names_list +:+ name_record code name
           | None => names_list
           end)
        EmptyString (sorted (map_to_list character_names).*1).

(** The name blob in the words of the data model: the concatenation of
    the records [<hex-codepoint>;<name>;] of a list of named codepoints. *)
Definition blob_text (items : list (Z * string)) : string :=
  foldr (λ item text, name_record item.1 item.2 +:+ text) EmptyString items.

(** [s.encode('ascii')]: [UnicodeEncodeError] on a character above
    U+007F. *)
Definition encode_ascii (s : string) : option (list byte) :=
  if forallb (λ c, bool_decide (N_of_ascii c < 128)%N) (chars s)
  then Some (list_byte_of_string s)
  else None.

(** The fields of one record of [NameAliases.txt]. *)
Record na_fields : Type := {
  na_code : Z;        (* [0] *)
  na_name : string;   (* [1] *)
  na_type : string    (* [2] *)
}.

(** [name_aliases_record(fields)] *)
Definition name_aliases_record (corrected_names : gmap Z string)
    (fields : na_fields) : gmap Z string :=
  if decide (na_type fields = "correction")
  then <[na_code fields := na_name fields]> corrected_names
  else corrected_names.

(** What [ucd-character-names.cpp] holds: the compressed names and the two
    sizes, and the table of corrected names. *)
Record names_tables : Type := {
  main_names_data : list byte;
  main_names_compressed : nat;
  main_names_expanded : nat;
  corrected_names : gmap Z string
}.

(** The terminated fields of a text: [a;b;c] has the fields [a] and [b]. *)
Fixpoint terminated_fields (l : list ascii) : list (list ascii) :=
  match l with
  | [] => []
  | c :: l' =>
      if decide (c = ";"%char) then [] :: terminated_fields l'
      else match terminated_fields l' with
           | f :: fs => (c :: f) :: fs
           | [] => []
           end
  end.

Fixpoint pair_up (fs : list (list ascii)) : list (string * string) :=
  match fs with
  | h :: n :: rest =>
      (string_of_list_ascii h, string_of_list_ascii n) :: pair_up rest
  | _ => []
  end.

(** A hexadecimal codepoint as [format_hex] writes it. *)
Definition parse_hex (s : string) : option Z :=
  Z.of_hex_int <$> NilZero.int_of_string s.

Fixpoint find_name (records : list (string * string)) (c : Z) : option string :=
  match records with
  | [] => None
  | (h, name) :: records' =>
      if decide (parse_hex h = Some c) then Some name
      else find_name records' c
  end.

Section zlib.
(** [zlib.compress] and the decompression of the reader. *)
Variables (compress decompress : list byte → list byte).

(** The blob and the overlay written to [ucd-character-names.cpp]. *)
Definition write_character_names (character_names : gmap Z string)
    (aliases : list na_fields) : option names_tables :=
  names_bytes ← encode_ascii (names_list character_names);
  let names_zip := compress names_bytes in
  Some {| main_names_data := names_zip;
          main_names_compressed := length names_zip;
          main_names_expanded := length names_bytes;
          corrected_names := foldl name_aliases_record ∅ aliases |}.

(** Modelled from the spec: the reader of the name blob, which is not part
    of the table compiler: "a consumer decompresses once, then must itself
    implement a scan/parse of the <hex>;<name>; grammar to recover a name
    for a given codepoint". *)
Definition blob_name (tables : names_tables) (c : Z) : option string :=
  let text := string_of_list_byte (decompress (main_names_data tables)) in
  find_name (pair_up (terminated_fields (chars text))) c.

(** Modelled from the spec: the overlay: "after any successful name
    lookup, check the corrected-name overlay map by codepoint and
    substitute if present; the overlay must never be consulted before a
    base name is found". *)
Definition character_name (tables : names_tables) (c : Z) : option string :=
  name ← blob_name tables c;
  Some (default name (corrected_names tables !! c)).
End zlib.

End Names.

(** * Property tables: the record classes *)

Module Properties.
Import Decomposition.

(** The fields of a record of a property file: [0] the code or code range,
    [1] the property name or value. *)
Record property_fields : Type := {
  pf_codes : code_field;
  pf_value : string
}.

(** [NamedBooleanUcdRecord(table, prop)(fields)]:
    [if fields[1] == self.prop: self.table.update(hexrange(fields[0]))] *)
Definition named_boolean_ucd_record (prop : string) (table : gset Z)
    (fields : property_fields) : gset Z :=
  if decide (pf_value fields = prop)
  then table ∪ list_to_set (hexrange (pf_codes fields))
  else table.

(** ['"{0}"'.format(field)] *)
Definition quoted (field : string) : string :=
  String (ascii_of_N 34) (field +:+ String (ascii_of_N 34) EmptyString).

(** The value stored by [EnumUcdRecord]: [self.prefix + fields[1]], in
    quotes when [self.quote]. *)
Definition enum_field (prefix : string) (quote : bool) (value : string) : string :=
  let field := prefix +:+ value in
  if quote then quoted field else field.

(** [EnumUcdRecord(table, prefix, quote)(fields)]:
    [for c in hexrange(fields[0]): ...; self.table[c] = field] *)
Definition enum_ucd_record (prefix : string) (quote : bool)
    (table : gmap Z string) (fields : property_fields) : gmap Z string :=
  foldl (λ table c, <[c := enum_field prefix quote (pf_value fields)]> table)
        table (hexrange (pf_codes fields)).

(** The set filled by one pass of [process_file] with a
    [NamedBooleanUcdRecord] over the records of the file. *)
Definition named_set (prop : string) (records : list property_fields) : gset Z :=
  foldl (named_boolean_ucd_record prop) ∅ records.

(** [id_nonstart = id_continue - id_start], both read from
    [DerivedCoreProperties.txt]. *)
Definition id_nonstart (records : list property_fields) : gset Z :=
  named_set "ID_Continue" records ∖ named_set "ID_Start" records.

(** [xid_nonstart = xid_continue - xid_start] *)
Definition xid_nonstart (records : list property_fields) : gset Z :=
  named_set "XID_Continue" records ∖ named_set "XID_Start" records.

End Properties.

(** * The ranges of [UnicodeData.txt] *)

Module UnicodeRanges.
Import UnicodeData.

(** One iteration of [for code in range(rb[0] + 1, rb[1])]:
    [general_category[code] = gc; bidi_class[code] = bc;
     if bm: bidi_mirrored.add(code)] *)
Definition fill_code (gc bc : string) (bm : bool) (st : ucd) (code : Z) : ucd :=
  {| character_names := character_names st;
     range_bounds := range_bounds st;
     general_category := <[code := gc]> (general_category st);
     combining_class := combining_class st;
     bidi_class := <[code := bc]> (bidi_class st);
     bidi_mirrored := if bm then {[code]} ∪ bidi_mirrored st else bidi_mirrored st;
     canonical := canonical st;
     composition_exclusion := composition_exclusion st;
     short_compatibility := short_compatibility st;
     long_compatibility := long_compatibility st;
     simple_upper := simple_upper st;
     simple_lower := simple_lower st;
     simple_title := simple_title st |}.

(** The body of [for rb in range_bounds]: the properties of the first code
    of the range ([KeyError] when it has none) are given to the codes
    strictly between the bounds. *)
Definition fill_range (st : ucd) (rb : Z * Z) : option ucd :=
  gc ← general_category st !! rb.1;
  bc ← bidi_class st !! rb.1;
  let bm := bool_decide (rb.1 ∈ bidi_mirrored st) in
  Some (foldl (fill_code gc bc bm) st (seqZ (rb.1 + 1) (rb.2 - (rb.1 + 1)))).

Fixpoint fill_loop (ranges : list (Z * Z)) (st : ucd) : option ucd :=
  match ranges with
  | [] => Some st
  | rb :: ranges' => st' ← fill_range st rb; fill_loop ranges' st'
  end.

(** [for rb in range_bounds: ...] *)
Definition fill_ranges (st : ucd) : option ucd := fill_loop (range_bounds st) st.

End UnicodeRanges.

(** * Full case mappings: [SpecialCasing.txt] *)

Module SpecialCasing.

(** The fields of one record, the code after [int(..., 16)] and the three
    mappings after [split_codes]. *)
Record sc_fields : Type := {
  sc_code : Z;               (* [0] *)
  sc_lower : list Z;         (* [1] *)
  sc_title : list Z;         (* [2] *)
  sc_upper : list Z;         (* [3] *)
  sc_conditions : string     (* [4] *)
}.

Record full_tables : Type := {
  full_lower : gmap Z (list Z);
  full_title : gmap Z (list Z);
  full_upper : gmap Z (list Z)
}.

Definition full_init : full_tables :=
  {| full_lower := ∅; full_title := ∅; full_upper := ∅ |}.

(** [special_casing_record(fields)]: only records without conditions are
    read, and of those only the mappings of more than one character. *)
Definition special_casing_record (ft : full_tables) (fields : sc_fields)
    : full_tables :=
  if decide (sc_conditions fields = EmptyString) then
    let code := sc_code fields in
    {| full_lower :=
         if decide (1 < length (sc_lower fields))%nat
         then <[code := sc_lower fields]> (full_lower ft) else full_lower ft;
       full_title :=
         if decide (1 < length (sc_title fields))%nat
         then <[code := sc_title fields]> (full_title ft) else full_title ft;
       full_upper :=
         if decide (1 < length (sc_upper fields))%nat
         then <[code := sc_upper fields]> (full_upper ft) else full_upper ft |}
  else ft.

(** [process_file('ucd/SpecialCasing.txt', special_casing_record, 5)] *)
Definition process_records (records : list sc_fields) : full_tables :=
  foldl special_casing_record full_init records.

End SpecialCasing.

(** * Reading the fields of a record *)

Module Fields.
Import Str ProcessFile.

(** [s.partition(sep)[2]]: the text after the first [sep], empty when
    there is none. *)
Fixpoint after (sep : ascii) (l : list ascii) : list ascii :=
  match l with
  | [] => []
  | c :: l' => if decide (c = sep) then l' else after sep l'
  end.

(** [s.split()]: the words of [s], separated by runs of white space. *)
Fixpoint words_chars (l : list ascii) : list (list ascii) :=
  match l with
  | [] => []
  | c :: l' =>
      if is_space c then words_chars l'
      else match l' with
           | [] => [[c]]
           | c' :: _ =>
               if is_space c' then [c] :: words_chars l'
               else match words_chars l' with
                    | w :: ws => (c :: w) :: ws
                    | [] => [[c]]
                    end
           end
  end.

Definition words (s : string) : list string :=
  string_of_list_ascii <$> words_chars (chars s).

(** [field.partition('..')]: the texts before and after the first [..],
    or [None] when there is none. *)
Fixpoint partition_dots (l : list ascii) : option (list ascii * list ascii) :=
  match l with
  | [] => None
  | c :: l' =>
      match l' with
      | [] => None
      | c' :: rest =>
          if decide (c = "."%char ∧ c' = "."%char) then Some ([], rest)
          else '(prefix, suffix) ← partition_dots l'; Some (c :: prefix, suffix)
      end
  end.

Section parse.
(** [int(s, 16)], [None] for its [ValueError]. *)
Variable int16 : string → option Z.

(** [split_codes(field)]:
    [tuple([int(w, 16) for w in field.split()])] *)
Definition split_codes (field : string) : option (list Z) :=
  mapM int16 (words field).

(** [hexrange(field)] on the text of the field. *)
Definition hexrange (field : string) : option (list Z) :=
  match partition_dots (chars field) with
  | Some (prefix, suffix) =>
      first ← int16 (string_of_list_ascii prefix);
      last ← int16 (string_of_list_ascii suffix);
      Some (seqZ first (last + 1 - first))
  | None => c ← int16 field; Some [c]
  end.
End parse.

End Fields.

(** * The records of [UnicodeData.txt] as read from the file *)

Module UnicodeDataFile.
Import Str ProcessFile Fields UnicodeData.

(** The fields of a record that [unicode_data_record] reads, as the
    strings that [process_file] hands over. *)
Record ud_record : Type := {
  f_code : string;        (* [0] *)
  f_name : string;        (* [1] *)
  f_category : string;    (* [2] *)
  f_ccc : string;         (* [3] *)
  f_bidi : string;        (* [4] *)
  f_decomp : string;      (* [5] *)
  f_mirrored : string;    (* [9] *)
  f_upper : string;       (* [12] *)
  f_lower : string;       (* [13] *)
  f_title : string        (* [14] *)
}.

(** [canon = decomp[0] != '<'] *)
Definition canon (decomp : string) : bool :=
  bool_decide (char_at decomp 0 ≠ Some "<"%char).

(** The text handed to [split_codes]: the field, or for a compatibility
    decomposition [decomp.partition('>')[2].strip()]. *)
Definition decomposition_text (decomp : string) : string :=
  if canon decomp then decomp
  else strip (string_of_list_ascii (after ">" (chars decomp))).

Section parse.
(** [int(s, 16)] and [int(s)], [None] for their [ValueError]. *)
Variables (int16 int10 : string → option Z).

(** [int(field, 16) if field else missing] *)
Definition case_field (field : string) (missing : Z) : option Z :=
  if decide (field = EmptyString) then Some missing else int16 field.

(** [unicode_data_record(fields)], with the reading of the number fields,
    in the order of the source. *)
Definition unicode_data_record (fields : ud_record) (st : ucd) : option ucd :=
  code ← int16 (f_code fields);
  let name := f_name fields in
  rb ← (if endswith " First>" name then Some (range_bounds st ++ [(code, code)])
        else if endswith " Last>" name then close_range (range_bounds st) code
        else Some (range_bounds st));
  g0 ← char_at (f_category fields) 0;
  g1 ← char_at (f_category fields) 1;
  ccc ← int10 (f_ccc fields);
  dchars ← (if decide (f_decomp fields = EmptyString) then Some []
            else split_codes int16 (decomposition_text (f_decomp fields)));
  let decomposed := bool_decide (f_decomp fields ≠ EmptyString) in
  let canonical_decomp := decomposed && canon (f_decomp fields) in
  let compatibility_decomp := decomposed && negb (canon (f_decomp fields)) in
  uc ← case_field (f_upper fields) code;
  lc ← case_field (f_lower fields) code;
  tc ← case_field (f_title fields) uc;
  Some {|
    character_names :=
      if startswith "<" name then character_names st
      else <[code := name]> (character_names st);
    range_bounds := rb;
    general_category :=
      <[code := ("0x" +:+ pad_left 4 (format_hex (256 * ord g0 + ord g1)))%string]>
        (general_category st);
    combining_class := <[code := ccc]> (combining_class st);
    bidi_class := <[code := ("Bidi_Class::" +:+ f_bidi fields)%string]> (bidi_class st);
    bidi_mirrored :=
      if decide (f_mirrored fields = "Y"%string) then {[code]} ∪ bidi_mirrored st
      else bidi_mirrored st;
    canonical :=
      if canonical_decomp then PyDict.set (canonical st) code dchars
      else canonical st;
    composition_exclusion :=
      if canonical_decomp && bool_decide (length dchars = 1%nat)
      then {[code]} ∪ composition_exclusion st
      else composition_exclusion st;
    short_compatibility :=
      if compatibility_decomp && bool_decide (length dchars ≤ 3)%nat
      then <[code := dchars]> (short_compatibility st)
      else short_compatibility st;
    long_compatibility :=
      if compatibility_decomp && negb (bool_decide (length dchars ≤ 3)%nat)
      then <[code := dchars]> (long_compatibility st)
      else long_compatibility st;
    simple_upper :=
      if decide (uc ≠ code) then <[code := uc]> (simple_upper st)
      else simple_upper st;
    simple_lower :=
      if decide (lc ≠ code) then <[code := lc]> (simple_lower st)
      else simple_lower st;
    simple_title :=
      if decide (tc ≠ uc) then <[code := tc]> (simple_title st)
      else simple_title st
  |}.

(** [process_file('ucd/UnicodeData.txt', unicode_data_record, 15)] on the
    records of the file, in file order. *)
Fixpoint process_records (records : list ud_record) (st : ucd) : option ucd :=
  match records with
  | [] => Some st
  | fields :: records' =>
      st' ← unicode_data_record fields st;
      process_records records' st'
  end.
End parse.

End UnicodeDataFile.

(** * The records of [CaseFolding.txt] as read from the file *)

Module CaseFoldingFile.
Import Fields CaseFolding.

Record cf_record : Type := {
  f_code : string;      (* [0] *)
  f_status : string;    (* [1] *)
  f_mapping : string    (* [2] *)
}.

Section parse.
(** [int(s, 16)], [None] for its [ValueError]. *)
Variable int16 : string → option Z.

(** [case_folding_record(fields)], with the reading of the number
    fields: the mapping of a common or simple record is read as one number,
    that of a full record word by word, that of any other record not at
    all. *)
Definition case_folding_record (fields : cf_record) (ft : fold_tables)
    : option fold_tables :=
  code ← int16 (f_code fields);
  let status := f_status fields in
  if decide (status = "C"%string ∨ status = "S"%string) then
    mapping ← int16 (f_mapping fields);
    Some {| simple_fold := <[code := mapping]> (simple_fold ft);
            full_fold := full_fold ft |}
  else if decide (status = "F"%string) then
    values ← split_codes int16 (f_mapping fields);
    if decide (1 < length values)%nat
    then Some {| simple_fold := simple_fold ft;
                 full_fold := <[code := values]> (full_fold ft) |}
    else Some ft
  else Some ft.

Fixpoint process_records (records : list cf_record) (ft : fold_tables)
    : option fold_tables :=
  match records with
  | [] => Some ft
  | fields :: records' =>
      ft' ← case_folding_record fields ft;
      process_records records' ft'
  end.
End parse.

End CaseFoldingFile.

(** * Script tables: [script_record] *)

Module ScriptTable.
Import Fields Script.

Record script_fields : Type := {
  f_codes : string;    (* [0] *)
  f_script : string    (* [1] *)
}.

Section parse.
(** [int(s, 16)], [None] for its [ValueError]. *)
Variable int16 : string → option Z.

(** [script_record(fields)]: the code field is read first, then the script
    name is looked up in [script_name_codes] ([KeyError] when it is not
    there), then the codes are visited. *)
Definition script_record (script_name_codes : gmap string string)
    (scripts : gmap Z Z) (fields : script_fields) : option (gmap Z Z) :=
  codes ← hexrange int16 (f_codes fields);
  script ← script_name_codes !! f_script fields;
  Some (foldl (λ scripts c, <[c := encode_script script]> scripts) scripts codes).

(** [process_file('ucd/Scripts.txt', script_record, 2)] *)
Fixpoint process_records (script_name_codes : gmap string string)
    (records : list script_fields) (scripts : gmap Z Z) : option (gmap Z Z) :=
  match records with
  | [] => Some scripts
  | fields :: records' =>
      scripts' ← script_record script_name_codes scripts fields;
      process_records script_name_codes records' scripts'
  end.
End parse.

End ScriptTable.

(** * Writing the decomposition tables *)

Module DecompositionTables.
Import Charmap UnicodeData.

(** [write_charmap(cpp, 'canonical', canonical, valsize=2)] *)
Definition write_canonical (st : ucd) : option (list (Z * list Z)) :=
  write_charmap (Multiple <$> (list_to_map (canonical st) : gmap Z (list Z))) 2.

End DecompositionTables.

(** * Normalization tests *)

Module NormalizationTest.
Import ProcessFile Properties.

(** [set(range(0, 0x110000)) - set(range(0xd800, 0xe000))] *)
Definition scalar_values : gset Z :=
  list_to_set (seqZ 0 0x110000) ∖ list_to_set (seqZ 0xd800 (0xe000 - 0xd800)).

Record nt_tables : Type := {
  normalization_tests : list (list string);
  normalization_identity : gset Z
}.

Definition nt_init : nt_tables :=
  {| normalization_tests := []; normalization_identity := scalar_values |}.

Section parse.
(** [int(s, 16)], [None] for its [ValueError]. *)
Variable int16 : string → option Z.

(** [normalization_test_record(fields)]: the quoted fields are appended to
    the tests; a first field without a space is read as one number and
    removed from the identity set. *)
Definition normalization_test_record (fields : list string) (st : nt_tables)
    : option nt_tables :=
  let tests := normalization_tests st ++ [quoted <$> fields] in
  source ← head fields;
  if bool_decide (" "%char ∈ chars source)
  then Some {| normalization_tests := tests;
               normalization_identity := normalization_identity st |}
  else
    c ← int16 source;
    Some {| normalization_tests := tests;
            normalization_identity := normalization_identity st ∖ {[c]} |}.

Fixpoint process_records (records : list (list string)) (st : nt_tables)
    : option nt_tables :=
  match records with
  | [] => Some st
  | fields :: records' =>
      st' ← normalization_test_record fields st;
      process_records records' st'
  end.
End parse.

End NormalizationTest.

(** * Properties of the sparse-table encoder *)

Section sparse_table_facts.
Import SparseTable.
Context {V : Type} `{EqDecision V}.
Implicit Types (table : gmap Z V) (entries : list (Z * V)) (acc lastv : option V).

Lemma foldl_max_le (ks : list Z) (k0 : Z) :
  k0 ≤ foldl Z.max k0 ks ∧ ∀ k, k ∈ ks → k ≤ foldl Z.max k0 ks.
Proof.
  revert k0. induction ks as [|k ks IH]; intros k0; simpl.
  - split; [lia | intros k Hk; inversion Hk].
  - destruct (IH (Z.max k0 k)) as [H1 H2]. split; [lia|].
    intros k' [->|Hk']%elem_of_cons; [lia | auto].
Qed.

Lemma foldl_max_elem (ks : list Z) (k0 : Z) :
  foldl Z.max k0 ks = k0 ∨ foldl Z.max k0 ks ∈ ks.
Proof.
  revert k0. induction ks as [|k ks IH]; intros k0; simpl; [by left|].
  destruct (IH (Z.max k0 k)) as [Hm|Hm].
  - rewrite Hm. destruct (Z.max_spec k0 k) as [[_ ->]|[_ ->]];
      [right; left | by left].
  - right. by right.
Qed.

Lemma max_key_nonempty table : table ≠ ∅ → is_Some (max_key table).
Proof.
  intros Hne. unfold max_key.
  destruct (map_to_list table) as [|[k v] l] eqn:Hl; simpl; [|eauto].
  by apply map_to_list_empty_iff in Hl.
Qed.

Lemma max_key_spec table m :
  max_key table = Some m →
  is_Some (table !! m) ∧ ∀ k, is_Some (table !! k) → k ≤ m.
Proof.
  unfold max_key. intros Hm.
  assert (Hkeys : ∀ k, k ∈ (map_to_list table).*1 ↔ is_Some (table !! k)).
  { intros k. rewrite list_elem_of_fmap. split.
    - intros [[k' v] [-> Hkv]]. apply elem_of_map_to_list in Hkv. eauto.
    - intros [v Hv]. exists (k, v). split; [done|]. by apply elem_of_map_to_list. }
  destruct ((map_to_list table).*1) as [|k0 ks]; [done|].
  injection Hm as <-. split.
  - apply Hkeys. destruct (foldl_max_elem ks k0) as [->| Hin]; [left | by right].
  - intros k Hk. destruct (foldl_max_le ks k0) as [H1 H2].
    apply Hkeys, elem_of_cons in Hk as [->|Hk]; auto.
Qed.

Lemma table_get_beyond table d m k :
  max_key table = Some m → m < k → table_get table k d = d.
Proof.
  intros [_ Hmax]%max_key_spec Hk. unfold table_get.
  destruct (table !! k) eqn:Hlk; [|done].
  specialize (Hmax k (mk_is_Some _ _ Hlk)). lia.
Qed.

(** ** The two loops agree *)

Lemma count_loop_length table d ks lastv n :
  count_loop table d ks lastv n = (n + length (write_loop table d ks lastv))%nat.
Proof.
  revert lastv n. induction ks as [|k ks IH]; intros lastv n; simpl; [lia|].
  case_decide; rewrite IH; simpl; lia.
Qed.

(** ** Shape of the written entries *)

Lemma write_loop_keys table d ks lastv k v :
  (k, v) ∈ write_loop table d ks lastv → k ∈ ks ∧ v = table_get table k d.
Proof.
  revert lastv. induction ks as [|k0 ks IH]; intros lastv; simpl.
  - intros Hin; inversion Hin.
  - case_decide.
    + intros [??]%IH. split; [by right | done].
    + intros [Heq|[??]%IH]%elem_of_cons; [|split; [by right | done]].
      injection Heq as -> ->. split; [left | done].
Qed.

Lemma write_loop_sorted table d ks lastv :
  StronglySorted Z.lt ks →
  StronglySorted Z.lt (write_loop table d ks lastv).*1.
Proof.
  revert lastv. induction ks as [|k0 ks IH]; intros lastv Hs; simpl.
  - constructor.
  - apply StronglySorted_inv in Hs as [Hs Hall].
    case_decide; [by apply IH|]. simpl. constructor; [by apply IH|].
    apply Forall_forall. intros k [[k' v] [-> Hkv]]%list_elem_of_fmap.
    apply write_loop_keys in Hkv as [Hk _]. simpl.
    rewrite Forall_forall in Hall. by apply Hall.
Qed.

Lemma seqZ_sorted (a n : Z) : StronglySorted Z.lt (seqZ a n).
Proof.
  destruct (decide (n ≤ 0)) as [Hn|Hn]; [rewrite seqZ_nil by done; constructor|].
  rewrite <- (Z2Nat.id n) by lia. generalize (Z.to_nat n) as len. clear Hn.
  intros len. revert a. induction len as [|len IH]; intros a.
  - rewrite seqZ_nil by lia. constructor.
  - rewrite seqZ_cons by lia. constructor.
    + replace (Z.pred (Z.of_nat (S len))) with (Z.of_nat len) by lia. apply IH.
    + apply Forall_forall. intros k Hk%elem_of_seqZ. lia.
Qed.

Lemma write_loop_app table d ks1 ks2 lastv :
  write_loop table d (ks1 ++ ks2) lastv =
  write_loop table d ks1 lastv ++
  write_loop table d ks2
    (default lastv ((λ k, Some (table_get table k d)) <$> last ks1)).
Proof.
  revert lastv. induction ks1 as [|k ks1 IH]; intros lastv; simpl; [done|].
  assert (Hl : default lastv ((λ k, Some (table_get table k d)) <$> last (k :: ks1))
             = default (Some (table_get table k d))
                 ((λ k, Some (table_get table k d)) <$> last ks1)).
  { destruct ks1 as [|k1 ks1]; [done|]. rewrite last_cons_cons.
    by destruct (last (k1 :: ks1)) eqn:Hlast;
      [|apply last_None in Hlast]. }
  rewrite Hl. case_decide; rewrite IH; done.
Qed.

Lemma write_loop_constant table d ks :
  (∀ k, k ∈ ks → table_get table k d = d) →
  write_loop table d ks (Some d) = [].
Proof.
  induction ks as [|k ks IH]; intros Hd; simpl; [done|].
  rewrite (Hd k) by left. rewrite decide_True by done.
  apply IH. intros k' Hk'. apply Hd. by right.
Qed.
(** ** The linear scan over the written entries *)

Lemma find_le_above acc entries c :
  Forall (λ e, c < e.1) entries → find_le acc entries c = acc.
Proof.
  destruct entries as [|[k v] es]; simpl; [done|].
  intros [Hk _]%Forall_cons. simpl in Hk. by rewrite decide_False by lia.
Qed.

Lemma find_le_all acc entries c :
  Forall (λ e, e.1 ≤ c) entries →
  find_le acc entries c = from_option (λ e, Some e.2) acc (last entries).
Proof.
  revert acc. induction entries as [|[k v] es IH]; intros acc Hall; simpl; [done|].
  apply Forall_cons in Hall as [Hk Hall]. simpl in Hk.
  rewrite decide_True by done. rewrite IH by done.
  destruct es as [|e es]; [done|]. rewrite last_cons_cons.
  destruct (last (e :: es)) eqn:Hlast; [done|]. by apply last_None in Hlast.
Qed.

Lemma find_le_write_loop table d (len : nat) (a c : Z) acc :
  a ≤ c < a + Z.of_nat len →
  find_le acc (write_loop table d (seqZ a (Z.of_nat len)) acc) c
  = Some (table_get table c d).
Proof.
  revert a acc. induction len as [|len IH]; intros a acc Hc; [lia|].
  rewrite seqZ_cons by lia.
  replace (Z.pred (Z.of_nat (S len))) with (Z.of_nat len) by lia. simpl.
  set (v := table_get table a d).
  assert (Hrest : find_le (Some v)
            (write_loop table d (seqZ (Z.succ a) (Z.of_nat len)) (Some v)) c
          = Some (table_get table c d)).
  { destruct (decide (c = a)) as [->|Hne]; [|apply IH; lia].
    rewrite find_le_above; [done|].
    apply Forall_forall. intros [k w] [Hk _]%write_loop_keys.
    apply elem_of_seqZ in Hk. simpl. lia. }
  case_decide as Hv; [by rewrite <- Hv|].
  simpl. by rewrite decide_True by lia.
Qed.

(** ** The binary search agrees with the linear scan *)

Lemma sorted_lookup_lt (l : list Z) (i j : nat) (x y : Z) :
  StronglySorted Z.lt l → l !! i = Some x → l !! j = Some y →
  (i < j)%nat → x < y.
Proof.
  intros Hs. revert i j. induction Hs as [|a l Hs IH Hall]; intros i j Hi Hj Hij.
  - by rewrite lookup_nil in Hi.
  - destruct j as [|j]; [lia|]. simpl in Hj. destruct i as [|i].
    + injection Hi as <-. rewrite Forall_forall in Hall.
      apply Hall. by eapply list_elem_of_lookup_2.
    + simpl in Hi. apply (IH i j); [done..|lia].
Qed.

(** [r] splits [entries] into the breakpoints [<= c] and those [> c]. *)
Definition splits_at entries (c : Z) (r : nat) : Prop :=
  (∀ i k v, entries !! i = Some (k, v) → (i < r)%nat → k ≤ c) ∧
  (∀ i k v, entries !! i = Some (k, v) → (r ≤ i)%nat → c < k).

Lemma upper_bound_spec entries c lo hi :
  StronglySorted Z.lt entries.*1 →
  (lo ≤ hi ≤ length entries)%nat →
  (∀ i k v, entries !! i = Some (k, v) → (i < lo)%nat → k ≤ c) →
  (∀ i k v, entries !! i = Some (k, v) → (hi ≤ i)%nat → c < k) →
  (lo ≤ upper_bound entries c lo hi ≤ hi)%nat ∧
  splits_at entries c (upper_bound entries c lo hi).
Proof.
  intros Hs. funelim (upper_bound entries c lo hi); intros Hb Hlo Hhi.
  - clear Heq Heqcall. rename H into IHhigh, H0 into IHlow.
    set (mid := (lo + (hi - lo) / 2)%nat) in *.
    assert (Hmid : (lo ≤ mid < hi)%nat).
    { pose proof (Nat.div_lt (hi - lo) 2). subst mid. lia. }
    destruct (lookup_lt_is_Some_2 entries mid) as [[km vm] Hm]; [lia|].
    assert (Hord : ∀ i j ki vi kj vj, entries !! i = Some (ki, vi) →
              entries !! j = Some (kj, vj) → (i < j)%nat → ki < kj).
    { intros i j ki vi kj vj Hi Hj Hij.
      apply (sorted_lookup_lt entries.*1 i j); [done| | |done];
        rewrite list_lookup_fmap; [by rewrite Hi | by rewrite Hj]. }
    unfold key_le. rewrite Hm. case_bool_decide as Hk.
    + destruct IHhigh as [Hr Hsplit]; [done | lia | | done | split; [lia | done]].
      intros i k v Hi Hi_lt. destruct (decide (i = mid)) as [->|Hne].
      * rewrite Hm in Hi. by injection Hi as <- <-.
      * pose proof (Hord i mid k v km vm Hi Hm). lia.
    + destruct IHlow as [Hr Hsplit]; [done | lia | done | | split; [lia | done]].
      intros i k v Hi Hge. destruct (decide (i = mid)) as [->|Hne].
      * rewrite Hm in Hi. injection Hi as <- <-. lia.
      * pose proof (Hord mid i km vm k v Hm Hi). lia.
  - split; [lia|]. split; [done|].
    intros i k v Hi Hge. apply (Hhi i k v Hi). lia.
Qed.

Lemma find_le_splits acc entries c r :
  splits_at entries c r → (r ≤ length entries)%nat →
  find_le acc entries c =
  match r with O => acc | S i => (λ e, e.2) <$> entries !! i end.
Proof.
  revert acc r. induction entries as [|[k v] es IH]; intros acc r [Hle Hgt] Hr.
  - simpl in Hr. by replace r with O by lia.
  - destruct r as [|r]; simpl.
    + rewrite decide_False; [done|]. specialize (Hgt O k v eq_refl). lia.
    + rewrite decide_True by (apply (Hle O k v eq_refl); lia).
      rewrite (IH (Some v) r).
      * by destruct r.
      * split; intros i k' v' Hi Hlt.
        -- apply (Hle (S i) k' v' Hi). lia.
        -- apply (Hgt (S i) k' v' Hi). lia.
      * simpl in Hr. lia.
Qed.

Lemma query_find_le entries d c :
  StronglySorted Z.lt entries.*1 →
  query entries d c = default d (find_le None entries c).
Proof.
  intros Hs. unfold query.
  destruct (upper_bound_spec entries c 0 (length entries)) as [Hr Hsplit];
    [done | lia | intros; lia | |].
  { intros i k v Hi Hge. apply lookup_lt_Some in Hi. lia. }
  rewrite (find_le_splits None entries c _ Hsplit) by lia.
  destruct (upper_bound entries c 0 (length entries)) as [|i]; [done|].
  by destruct (entries !! i) as [[k v]|].
Qed.
(** ** Scanning further than [max key + 1] writes nothing more *)

Lemma last_seqZ (a n : Z) : 0 < n → last (seqZ a n) = Some (a + n - 1).
Proof.
  intros Hn. replace n with ((n - 1) + 1) at 1 by lia.
  rewrite seqZ_app by lia. rewrite (seqZ_cons _ 1) by lia.
  rewrite (seqZ_nil _ (Z.pred 1)) by lia. rewrite last_snoc. f_equal. lia.
Qed.

Lemma write_loop_extend table d m n :
  max_key table = Some m → 0 < m + 2 → m + 2 ≤ n →
  write_loop table d (seqZ 0 n) None
  = write_loop table d (seqZ 0 (m + 2)) None.
Proof.
  intros Hm Hpos Hn. replace n with ((m + 2) + (n - (m + 2))) at 1 by lia.
  rewrite seqZ_app by lia. rewrite write_loop_app, last_seqZ by lia. simpl.
  rewrite (table_get_beyond table d m) by (done || lia).
  rewrite write_loop_constant; [by rewrite app_nil_r|].
  intros k Hk%elem_of_seqZ. apply (table_get_beyond table d m); [done | lia].
Qed.

Lemma write_loop_ext table table' d ks lastv :
  (∀ k, k ∈ ks → table_get table k d = table_get table' k d) →
  write_loop table d ks lastv = write_loop table' d ks lastv.
Proof.
  revert lastv. induction ks as [|k ks IH]; intros lastv Hext; simpl; [done|].
  rewrite (Hext k) by left.
  rewrite (IH (Some (table_get table' k d))); [done|].
  intros k' Hk'. apply Hext. by right.
Qed.

(** The linear scan of the written entries reads the association back. *)
Lemma write_loop_find_le table d m c :
  max_key table = Some m → 0 ≤ c →
  default d (find_le None (write_loop table d (seqZ 0 (m + 2)) None) c)
  = table_get table c d.
Proof.
  intros Hm Hc. destruct (decide (c < m + 2)) as [Hlt|Hge].
  - rewrite <- (Z2Nat.id (m + 2)) by lia.
    rewrite find_le_write_loop by lia. done.
  - rewrite (table_get_beyond table d m) by (done || lia).
    destruct (decide (0 < m + 2)) as [Hpos|Hneg].
    + rewrite <- (write_loop_extend table d m (c + 1)) by (done || lia).
      rewrite <- (Z2Nat.id (c + 1)) by lia.
      rewrite find_le_write_loop by lia. simpl.
      apply (table_get_beyond table d m); [done | lia].
    + by rewrite seqZ_nil by lia.
Qed.

Lemma write_loop_query table d m c :
  max_key table = Some m → 0 ≤ c →
  query (write_loop table d (seqZ 0 (m + 2)) None) d c = table_get table c d.
Proof.
  intros Hm Hc. rewrite query_find_le by apply write_loop_sorted, seqZ_sorted.
  by apply write_loop_find_le.
Qed.

(** Two associations with the same values at every non-negative integer
    are written as the same entries. *)
Lemma write_loop_same_function table table' d m m' :
  max_key table = Some m → max_key table' = Some m' → 0 ≤ m → 0 ≤ m' →
  (∀ c, 0 ≤ c → table_get table' c d = table_get table c d) →
  write_loop table' d (seqZ 0 (m' + 2)) None
  = write_loop table d (seqZ 0 (m + 2)) None.
Proof.
  intros Hm Hm' H0 H0' Hext.
  assert (Hw : ∀ n, write_loop table' d (seqZ 0 n) None
                    = write_loop table d (seqZ 0 n) None).
  { intros n. apply write_loop_ext. intros k Hk%elem_of_seqZ. apply Hext. lia. }
  destruct (Z.le_ge_cases m m').
  - rewrite Hw. by apply write_loop_extend; [|lia..].
  - rewrite <- Hw. symmetry. by apply write_loop_extend; [|lia..].
Qed.

(** ** Runs *)

Lemma runs_expand (l : list V) :
  flat_map (λ r, replicate r.2 r.1) (runs l) = l.
Proof.
  induction l as [|x l IH]; simpl; [done|].
  destruct (runs l) as [|[y n] g]; simpl in *; [by rewrite <- IH|].
  case_decide as Hxy; simpl; [subst y|]; by rewrite <- IH.
Qed.

Lemma runs_head (x : V) (l : list V) :
  ∃ n g, runs (x :: l) = (x, n) :: g.
Proof.
  simpl. destruct (runs l) as [|[y n] g]; [eauto|]. case_decide; eauto.
Qed.

(** Adjacent runs carry different values: the runs are maximal. *)
Lemma runs_maximal (l : list V) (i : nat) (r1 r2 : V * nat) :
  runs l !! i = Some r1 → runs l !! S i = Some r2 → r1.1 ≠ r2.1.
Proof.
  revert i r1 r2. induction l as [|x l IH]; intros i r1 r2; simpl; [by destruct i|].
  destruct (runs l) as [|[y n] g] eqn:Hg; [by destruct i|].
  case_decide as Hxy.
  - subst y. destruct i as [|i]; simpl.
    + intros [= <-] H2. apply (IH O (x, n) r2); done.
    + intros H1 H2. apply (IH (S i) r1 r2); done.
  - destruct i as [|i]; simpl.
    + by intros [= <-] [= <-].
    + intros H1 H2. apply (IH i r1 r2); done.
Qed.

Lemma write_loop_runs table d (k : Z) (ks : list Z) lastv :
  (write_loop table d (k :: ks) lastv).*2 =
  let g := (runs ((λ k, table_get table k d) <$> k :: ks)).*1 in
  if decide (Some (table_get table k d) = lastv) then tail g else g.
Proof.
  revert k lastv. induction ks as [|k' ks IH]; intros k lastv.
  - simpl. by case_decide.
  - specialize (IH k' (Some (table_get table k d))).
    destruct (runs_head (table_get table k' d) ((λ k, table_get table k d) <$> ks))
      as (n & g & Hg).
    rewrite fmap_cons, Hg in IH. cbv zeta in IH.
    remember (write_loop table d (k' :: ks) (Some (table_get table k d))) as W eqn:HW.
    assert (Hstep : write_loop table d (k :: k' :: ks) lastv =
              if decide (Some (table_get table k d) = lastv)
              then W else (k, table_get table k d) :: W)
      by (by rewrite HW).
    assert (Hruns : runs ((λ k, table_get table k d) <$> k :: k' :: ks) =
              if decide (table_get table k d = table_get table k' d)
              then (table_get table k d, S n) :: g
              else (table_get table k d, 1%nat) :: (table_get table k' d, n) :: g).
    { rewrite fmap_cons, fmap_cons.
      change (runs (?x :: ?l)) with
        (match runs l with
         | (y, n) :: g => if decide (x = y) then (x, S n) :: g else (x, 1%nat) :: (y, n) :: g
         | [] => [(x, 1%nat)]
         end). by rewrite Hg. }
    rewrite Hstep, Hruns. cbv zeta. clear Hstep Hruns HW Hg.
    destruct (decide (table_get table k d = table_get table k' d)) as [Heq|Hne].
    + rewrite decide_True in IH by congruence.
      case_decide; rewrite ?fmap_cons, IH; done.
    + rewrite decide_False in IH by congruence.
      case_decide; rewrite ?fmap_cons, IH; done.
Qed.

Lemma write_loop_count_runs table d (ks : list Z) :
  length (write_loop table d ks None)
  = length (runs ((λ k, table_get table k d) <$> ks)).
Proof.
  destruct ks as [|k ks]; [done|].
  rewrite <- (length_fmap snd (write_loop _ _ _ _)), write_loop_runs.
  simpl. by rewrite length_fmap.
Qed.
(** ** Round trip, run count and last entry *)

Lemma write_sparse_table_Some zero table defval m :
  max_key table = Some m →
  write_sparse_table zero table defval =
  Some (length (write_loop table (default zero defval) (seqZ 0 (m + 2)) None),
        write_loop table (default zero defval) (seqZ 0 (m + 2)) None).
Proof.
  intros Hm. unfold write_sparse_table. rewrite Hm. simpl.
  by rewrite count_loop_length.
Qed.

Lemma codepoint_table_max table m :
  codepoint_table table → max_key table = Some m → codepoint m.
Proof. intros Hcp [Hm _]%max_key_spec. by apply Hcp. Qed.

(** C1.  For a non-empty association and a default value, looking a
    codepoint up in the written breakpoint sequence (binary search for the
    greatest breakpoint at or below it, the default when there is none)
    returns the value of the association at that codepoint, or the default
    where the association has no entry. *)
Theorem sparse_table_roundtrip (zero : V) table (defval : option V) :
  table ≠ ∅ →
  ∃ number entries,
    write_sparse_table zero table defval = Some (number, entries) ∧
    ∀ c, codepoint c →
      query entries (default zero defval) c
      = table_get table c (default zero defval).
Proof.
  intros [m Hm]%max_key_nonempty.
  eexists _, _. split; [by apply write_sparse_table_Some|].
  intros c [Hc _]. by apply write_loop_query.
Qed.

(** C3.  The entry count of the header equals the number of entries
    written, which is the number of maximal runs of constant value over the
    scanned domain [0 .. max key + 1]; and an association that reads back
    from the written breakpoints (it has, at every codepoint, the value the
    lookup returns) is written as the same entries, so with the same count. *)
Theorem sparse_table_run_count (zero : V) table table' (defval : option V) :
  table ≠ ∅ → table' ≠ ∅ →
  codepoint_table table → codepoint_table table' →
  ∃ m number entries,
    max_key table = Some m ∧
    write_sparse_table zero table defval = Some (number, entries) ∧
    number = length entries ∧
    length entries
    = length (runs (scanned_values table (default zero defval) m)) ∧
    ((∀ c, codepoint c →
        table_get table' c (default zero defval)
        = query entries (default zero defval) c) →
     ∃ number' entries',
       write_sparse_table zero table' defval = Some (number', entries') ∧
       entries' = entries ∧ number' = number).
Proof.
  intros [m Hm]%max_key_nonempty [m' Hm']%max_key_nonempty Hcp Hcp'.
  exists m. eexists _, _. split; [done|].
  split; [by apply write_sparse_table_Some|]. split; [done|].
  split; [apply write_loop_count_runs|].
  intros Hread. eexists _, _. split; [by apply write_sparse_table_Some|].
  pose proof (codepoint_table_max _ _ Hcp Hm) as [Hm0 Hm1].
  pose proof (codepoint_table_max _ _ Hcp' Hm') as [Hm0' Hm1'].
  assert (Hsame : write_loop table' (default zero defval) (seqZ 0 (m' + 2)) None
                = write_loop table (default zero defval) (seqZ 0 (m + 2)) None).
  { apply write_loop_same_function; [done..|]. intros c Hc.
    destruct (decide (c ≤ 0x10FFFF)) as [Hle|Hgt].
    - rewrite Hread by done. by apply write_loop_query.
    - rewrite (table_get_beyond table _ m), (table_get_beyond table' _ m');
        done || lia. }
  by rewrite Hsame.
Qed.

(** C4, as amended.  The written sequence ends with an entry that carries
    the default value and closes the last run; its breakpoint is at most
    [max key + 1], and it is [max key + 1] exactly when the value at the
    maximum key is not the default.  Every lookup above the maximum key
    returns the default. *)
Theorem sparse_table_last_entry (zero : V) table (defval : option V) :
  table ≠ ∅ → codepoint_table table →
  ∃ m number entries k,
    max_key table = Some m ∧
    write_sparse_table zero table defval = Some (number, entries) ∧
    last entries = Some (k, default zero defval) ∧
    k ≤ m + 1 ∧
    (k = m + 1 ↔ table !! m ≠ Some (default zero defval)) ∧
    ∀ c, m < c → query entries (default zero defval) c = default zero defval.
Proof.
  intros [m Hm]%max_key_nonempty Hcp.
  pose proof (codepoint_table_max _ _ Hcp Hm) as [Hm0 _].
  set (d := default zero defval).
  set (entries := write_loop table d (seqZ 0 (m + 2)) None).
  assert (Hq : ∀ c, m < c → query entries d c = d).
  { intros c Hc. unfold entries. rewrite write_loop_query by (done || lia).
    by apply (table_get_beyond table d m). }
  assert (Hsplit : entries =
            write_loop table d (seqZ 0 (m + 1)) None ++
            if decide (Some d = Some (table_get table m d)) then []
            else [(m + 1, d)]).
  { unfold entries. replace (m + 2) with ((m + 1) + 1) by lia.
    rewrite seqZ_app by lia. rewrite write_loop_app, last_seqZ by lia.
    rewrite (seqZ_cons _ 1), (seqZ_nil _ (Z.pred 1)) by lia. simpl.
    replace (0 + (m + 1) - 1) with m by lia.
    rewrite (table_get_beyond table d m) by (done || lia).
    by case_decide. }
  assert (Hprev : ∃ k, last (write_loop table d (seqZ 0 (m + 1)) None)
                       = Some (k, table_get table m d) ∧ k ≤ m).
  { pose proof (find_le_write_loop table d (Z.to_nat (m + 1)) 0 m None) as Hf.
    rewrite Z2Nat.id in Hf by lia. specialize (Hf ltac:(lia)).
    rewrite find_le_all in Hf.
    - destruct (last _) as [[k v]|] eqn:Hlast; [|done]. simpl in Hf.
      injection Hf as ->. exists k. split; [done|].
      apply last_Some_elem_of, write_loop_keys in Hlast as [Hk _].
      apply elem_of_seqZ in Hk. lia.
    - apply Forall_forall. intros [k v] [Hk _]%write_loop_keys.
      apply elem_of_seqZ in Hk. simpl. lia. }
  destruct (max_key_spec table m Hm) as [[vm Hvm] _].
  assert (Hget : table_get table m d = vm) by (unfold table_get; by rewrite Hvm).
  destruct Hprev as (k & Hlast & Hk).
  destruct (decide (Some d = Some (table_get table m d))) as [Heq|Hne].
  - exists m, (length entries), entries, k.
    split; [done|]. split; [by apply write_sparse_table_Some|].
    rewrite app_nil_r in Hsplit. rewrite Hsplit at 1.
    injection Heq as Heq. rewrite Hlast, <- Heq.
    split; [done|]. split; [lia|]. split; [|done].
    split; [lia|]. intros Hdiff. rewrite Hvm in Hdiff. congruence.
  - exists m, (length entries), entries, (m + 1).
    split; [done|]. split; [by apply write_sparse_table_Some|].
    rewrite Hsplit at 1. rewrite last_snoc.
    split; [done|]. split; [lia|]. split; [|done].
    split; [|done]. intros _. rewrite Hvm. congruence.
Qed.
End sparse_table_facts.

(** ** Concrete tables *)

(** Three codepoints U+0041..U+0043 with one value and U+0044 with another,
    default 0: the defaulted run before U+0041 and the closing entry at
    U+0045 are written too. *)
Definition example_table : gmap Z Z :=
  <[0x41 := 1]> (<[0x42 := 1]> (<[0x43 := 1]> (<[0x44 := 2]> ∅))).

Example example_table_written :
  SparseTable.write_sparse_table 0 example_table None
  = Some (4%nat, [(0, 0); (0x41, 1); (0x44, 2); (0x45, 0)]).
Proof. vm_compute. reflexivity. Qed.

Example example_table_query :
  SparseTable.query [(0, 0); (0x41, 1); (0x44, 2); (0x45, 0)] 0 0x42 = 1 ∧
  SparseTable.query [(0, 0); (0x41, 1); (0x44, 2); (0x45, 0)] 0 0x45 = 0.
Proof. vm_compute. split; reflexivity. Qed.

Lemma example_table_nonempty : example_table ≠ ∅.
Proof. intros H. by apply (f_equal (λ m : gmap Z Z, m !! 0x41)) in H. Qed.

Lemma example_table_codepoints : SparseTable.codepoint_table example_table.
Proof.
  intros k [v Hk]. unfold example_table in Hk.
  repeat (apply lookup_insert_Some in Hk as [[<- _]|[_ Hk]];
          [unfold codepoint; lia|]).
  by rewrite lookup_empty in Hk.
Qed.

Lemma sparse_table_roundtrip_witness :
  example_table ≠ ∅ ∧
  ∃ number entries,
    SparseTable.write_sparse_table 0 example_table None = Some (number, entries) ∧
    ∀ c, codepoint c →
      SparseTable.query entries 0 c = SparseTable.table_get example_table c 0.
Proof.
  split; [exact example_table_nonempty|].
  exact (sparse_table_roundtrip 0 example_table None example_table_nonempty).
Defined.

(** The association read back from the breakpoints of [example_table]: an
    explicit value for every codepoint up to the last breakpoint. *)
Definition example_read_back : gmap Z Z :=
  list_to_map ((λ k, (k, SparseTable.query [(0, 0); (0x41, 1); (0x44, 2); (0x45, 0)] 0 k))
                 <$> seqZ 0 0x46).

Lemma fst_fmap_graph {A B : Type} (f : A → B) (l : list A) :
  ((λ k, (k, f k)) <$> l).*1 = l.
Proof. induction l as [|x l IH]; simpl; [done | by f_equal]. Qed.

Lemma example_read_back_lookup (c : Z) :
  example_read_back !! c =
  if decide (0 ≤ c < 0x46)
  then Some (SparseTable.query [(0, 0); (0x41, 1); (0x44, 2); (0x45, 0)] 0 c)
  else None.
Proof.
  unfold example_read_back. case_decide as Hc.
  - apply elem_of_list_to_map.
    + rewrite fst_fmap_graph. apply NoDup_seqZ.
    + apply list_elem_of_fmap. exists c. split; [done|]. apply elem_of_seqZ. lia.
  - apply not_elem_of_list_to_map. rewrite fst_fmap_graph, elem_of_seqZ. lia.
Qed.

Lemma sparse_table_run_count_witness :
  example_table ≠ ∅ ∧ example_read_back ≠ ∅ ∧
  SparseTable.codepoint_table example_table ∧
  SparseTable.codepoint_table example_read_back ∧
  ∃ m number entries,
    SparseTable.max_key example_table = Some m ∧
    SparseTable.write_sparse_table 0 example_table None = Some (number, entries) ∧
    number = length entries ∧
    length entries
    = length (SparseTable.runs (SparseTable.scanned_values example_table 0 m)) ∧
    ((∀ c, codepoint c →
        SparseTable.table_get example_read_back c 0 = SparseTable.query entries 0 c) →
     ∃ number' entries',
       SparseTable.write_sparse_table 0 example_read_back None
       = Some (number', entries') ∧
       entries' = entries ∧ number' = number).
Proof.
  assert (Hne : example_read_back ≠ ∅).
  { intros H. apply (f_equal (λ m : gmap Z Z, m !! 0)) in H.
    by rewrite example_read_back_lookup in H. }
  assert (Hcp : SparseTable.codepoint_table example_read_back).
  { intros k [v Hk]. rewrite example_read_back_lookup in Hk.
    case_decide; [unfold codepoint; lia | done]. }
  split; [exact example_table_nonempty|]. split; [exact Hne|].
  split; [exact example_table_codepoints|]. split; [exact Hcp|].
  exact (sparse_table_run_count 0 example_table example_read_back None
           example_table_nonempty Hne example_table_codepoints Hcp).
Defined.

(** The read-back association has, at every codepoint, the value the lookup
    returns, and is written with the same four entries. *)
Example example_read_back_agrees (c : Z) :
  codepoint c →
  SparseTable.table_get example_read_back c 0
  = SparseTable.query [(0, 0); (0x41, 1); (0x44, 2); (0x45, 0)] 0 c.
Proof.
  intros [Hc _]. unfold SparseTable.table_get.
  rewrite example_read_back_lookup. case_decide as Hin; [done|]. simpl.
  assert (Hmax : SparseTable.max_key example_table = Some 0x44)
    by (vm_compute; reflexivity).
  replace [(0, 0); (0x41, 1); (0x44, 2); (0x45, 0)] with
    (SparseTable.write_loop example_table 0 (seqZ 0 (0x44 + 2)) None)
    by (vm_compute; reflexivity).
  rewrite write_loop_query by done.
  symmetry. apply (table_get_beyond example_table 0 0x44); [done | lia].
Qed.

Example example_read_back_written :
  SparseTable.write_sparse_table 0 example_read_back None
  = Some (4%nat, [(0, 0); (0x41, 1); (0x44, 2); (0x45, 0)]).
Proof. vm_compute. reflexivity. Qed.

Lemma sparse_table_last_entry_witness :
  example_table ≠ ∅ ∧ SparseTable.codepoint_table example_table ∧
  ∃ m number entries k,
    SparseTable.max_key example_table = Some m ∧
    SparseTable.write_sparse_table 0 example_table None = Some (number, entries) ∧
    last entries = Some (k, 0) ∧
    k ≤ m + 1 ∧
    (k = m + 1 ↔ example_table !! m ≠ Some 0) ∧
    ∀ c, m < c → SparseTable.query entries 0 c = 0.
Proof.
  split; [exact example_table_nonempty|].
  split; [exact example_table_codepoints|].
  exact (sparse_table_last_entry 0 example_table None
           example_table_nonempty example_table_codepoints).
Defined.

(** C4 as stated fails: when the value at the maximum key is the default
    (as for a combining class 0 recorded at the last key, with default 0), no
    entry is written at [max key + 1]. *)
Definition combining_class_example : gmap Z Z :=
  <[0x300 := 230]> (<[0x301 := 0]> ∅).

Lemma sparse_table_sentinel_counterexample :
  SparseTable.max_key combining_class_example = Some 0x301 ∧
  ∃ entries,
    SparseTable.write_sparse_table 0 combining_class_example (Some 0)
    = Some (3%nat, entries) ∧
    last entries = Some (0x301, 0) ∧
    last entries ≠ Some (0x301 + 1, 0).
Proof.
  split; [vm_compute; reflexivity|].
  exists [(0, 0); (0x300, 230); (0x301, 0)].
  split; [vm_compute; reflexivity|]. split; [reflexivity | discriminate].
Qed.

(** * Properties of explicit maps and sparse sets *)

Section charmap_facts.
Import Charmap.

Lemma sorted_elem (codes : list Z) (c : Z) : c ∈ sorted codes ↔ c ∈ codes.
Proof. unfold sorted. by rewrite merge_sort_Permutation. Qed.

Lemma sorted_le_lt (l : list Z) :
  StronglySorted Z.le l → NoDup l → StronglySorted Z.lt l.
Proof.
  induction 1 as [|x l Hs IH Hall]; intros Hnd; [constructor|].
  apply NoDup_cons in Hnd as [Hx Hnd]. constructor; [by apply IH|].
  rewrite Forall_forall in Hall |- *. intros y Hy.
  specialize (Hall y Hy). assert (x ≠ y) by (by intros ->). lia.
Qed.

Lemma sorted_strict (codes : list Z) :
  NoDup codes → StronglySorted Z.lt (sorted codes).
Proof.
  intros Hnd. apply sorted_le_lt.
  - apply (StronglySorted_merge_sort Z.le).
  - unfold sorted. by rewrite merge_sort_Permutation.
Qed.

Lemma map_keys_elem {A : Type} (table : gmap Z A) (k : Z) :
  k ∈ (map_to_list table).*1 ↔ is_Some (table !! k).
Proof.
  rewrite list_elem_of_fmap. split.
  - intros [[k' v] [-> Hkv]]. apply elem_of_map_to_list in Hkv. eauto.
  - intros [v Hv]. exists (k, v). split; [done|]. by apply elem_of_map_to_list.
Qed.

(** What a successful [write_charmap] has written: the keys in ascending
    order, each with its formatted value. *)
Lemma write_charmap_spec (table : gmap Z field) (valsize : nat) entries :
  write_charmap table valsize = Some entries →
  entries.*1 = sorted (map_to_list table).*1 ∧
  StronglySorted Z.lt entries.*1 ∧
  ∀ k fv, (k, fv) ∈ entries ↔
          ∃ v, table !! k = Some v ∧ field_value v valsize = Some fv.
Proof.
  unfold write_charmap. intros Hm%mapM_Some_1.
  set (keys := sorted (map_to_list table).*1) in *.
  assert (Hkeys : entries.*1 = keys).
  { induction Hm as [|c [k fv] cs es Hc Hm IH]; [done|]. simpl. f_equal; [|done].
    destruct (table !! c) as [v|]; [|done]. simpl in Hc.
    destruct (field_value v valsize); [|done]. by injection Hc as <- _. }
  split; [done|]. split.
  { rewrite Hkeys. apply sorted_strict, NoDup_fst_map_to_list. }
  intros k fv. split.
  - intros [i Hi]%list_elem_of_lookup.
    destruct (Forall2_lookup_r _ _ _ _ _ Hm Hi) as (c & _ & Hc).
    destruct (table !! c) as [v|] eqn:Hv; [|done]. simpl in Hc.
    destruct (field_value v valsize) as [fv'|] eqn:Hfv; [|done].
    injection Hc as <- <-. eauto.
  - intros (v & Hv & Hfv).
    assert (Hk : k ∈ keys) by (apply sorted_elem, map_keys_elem; eauto).
    apply list_elem_of_lookup in Hk as [i Hi].
    destruct (Forall2_lookup_l _ _ _ _ _ Hm Hi) as (e & He & Hc).
    rewrite Hv in Hc. simpl in Hc. rewrite Hfv in Hc. injection Hc as <-.
    by eapply list_elem_of_lookup_2.
Qed.

Lemma write_charmap_is_Some (table : gmap Z field) (valsize : nat) :
  (∀ k v, table !! k = Some v → is_Some (field_value v valsize)) →
  is_Some (write_charmap table valsize).
Proof.
  intros Hok. apply mapM_is_Some_2, Forall_forall.
  intros c [v Hv]%sorted_elem%map_keys_elem. simpl. rewrite Hv. simpl.
  destruct (Hok c v Hv) as [fv ->]. by eexists.
Qed.

(** A table of single characters written with [valsize = 1]. *)
Lemma write_charmap_single (table : gmap Z Z) :
  ∃ entries,
    write_charmap (Single <$> table) 1 = Some entries ∧
    StronglySorted Z.lt entries.*1 ∧
    ∀ k fv, (k, fv) ∈ entries ↔ ∃ v, table !! k = Some v ∧ fv = [v].
Proof.
  destruct (write_charmap_is_Some (Single <$> table) 1) as [entries He].
  { intros k v. rewrite lookup_fmap. destruct (table !! k); [|done].
    intros [= <-]. by eexists. }
  exists entries. split; [done|].
  destruct (write_charmap_spec _ _ _ He) as (_ & Hs & Hin). split; [done|].
  intros k fv. rewrite Hin. setoid_rewrite lookup_fmap. split.
  - intros (v & Hv & Hfv). destruct (table !! k) as [w|]; [|done].
    injection Hv as <-. injection Hfv as <-. eauto.
  - intros (v & -> & ->). eauto.
Qed.
End charmap_facts.

Section sparse_set_facts.
Import Charmap SparseSet.

(** The state of the loop after the sorted codes [p] have been visited. *)
Record scan_inv (p : list Z) (st : scan_state) : Prop := {
  inv_empty : p = [] → st = scan_init;
  inv_last : p ≠ [] →
    ss_last st ∈ p ∧ ss_subranges st !! ss_first st = Some (ss_last st);
  inv_max : ∀ x, x ∈ p → x ≤ ss_last st;
  inv_range : ∀ f l, ss_subranges st !! f = Some l →
    f ≤ l ∧ (∀ x, f ≤ x ≤ l → x ∈ p) ∧ (f - 1 ∉ p) ∧
    (f ≠ ss_first st → (l + 1 ∉ p) ∧ l < ss_last st);
  inv_cover : ∀ x, x ∈ p →
    ∃ f l, ss_subranges st !! f = Some l ∧ f ≤ x ≤ l
}.

Lemma scan_inv_init : scan_inv [] scan_init.
Proof.
  split; try done.
  - intros x Hx. inversion Hx.
  - intros x Hx. inversion Hx.
Qed.

(** The step keeps the invariant unless the first code visited is [-98],
    the successor of the initial [last = -99]. *)
Lemma scan_inv_step_from (p : list Z) (st : scan_state) (c : Z) :
  scan_inv p st → (∀ x, x ∈ p → x < c) → (p = [] → c ≠ -98) →
  scan_inv (p ++ [c]) (scan_step st c).
Proof.
  intros [Hemp Hlast Hmax Hrange Hcover] Hlt Hc.
  assert (Hin : ∀ x, x ∈ p ++ [c] ↔ x ∈ p ∨ x = c).
  { intros x. rewrite elem_of_app, list_elem_of_singleton. done. }
  assert (Hnonempty : ∀ x, x ∈ p → p ≠ []).
  { intros x Hx ->. inversion Hx. }
  unfold scan_step. destruct (decide (c ≠ ss_last st + 1)) as [Hnew|Hold].
  - (* a new interval starts at [c] *)
    split; simpl.
    + intros Heq. by apply app_eq_nil in Heq as [_ ?].
    + intros _. split; [apply Hin; by right | by rewrite lookup_insert_eq].
    + intros x [Hx| ->]%Hin; [specialize (Hlt x Hx)|]; lia.
    + intros f l [[<- <-]|[Hne Hfl]]%lookup_insert_Some.
      * split; [lia|]. split; [intros x Hx; apply Hin; right; lia|].
        split; [|done]. intros [Hx|Hx]%Hin; [|lia].
        destruct (Hlast (Hnonempty _ Hx)) as [Hl _].
        specialize (Hmax _ Hx). specialize (Hlt _ Hl). lia.
      * destruct (Hrange f l Hfl) as (Hle & Hsub & Hpred & Hsucc).
        assert (Hl : l ∈ p) by (apply Hsub; lia).
        pose proof (Hlt l Hl) as Hlc.
        split; [done|]. split; [intros x Hx; apply Hin; left; by apply Hsub|].
        split; [intros [Hx|Hx]%Hin; [done | lia]|].
        intros _. split; [|done].
        destruct (decide (f = ss_first st)) as [->|Hf].
        -- destruct (Hlast (Hnonempty _ Hl)) as [_ Hcur].
           rewrite Hcur in Hfl. injection Hfl as <-.
           intros [Hx|Hx]%Hin; [specialize (Hmax _ Hx); lia | lia].
        -- destruct (Hsucc Hf) as [Hs Hll].
           destruct (Hlast (Hnonempty _ Hl)) as [Hlp _].
           specialize (Hlt _ Hlp).
           intros [Hx|Hx]%Hin; [done | lia].
    + intros x [Hx| ->]%Hin.
      * destruct (Hcover x Hx) as (f & l & Hfl & Hfx).
        exists f, l. split; [|done].
        rewrite lookup_insert_ne; [done|]. specialize (Hlt x Hx). lia.
      * exists c, c. split; [by rewrite lookup_insert_eq | lia].
  - (* [c] extends the current interval *)
    assert (Heq : c = ss_last st + 1) by (destruct (decide (c = ss_last st + 1)); tauto).
    assert (Hp : p ≠ []).
    { intros Hp. specialize (Hc Hp). rewrite (Hemp Hp) in Heq. simpl in Heq. lia. }
    destruct (Hlast Hp) as [Hl Hcur].
    destruct (Hrange _ _ Hcur) as (Hle & Hsub & Hpred & _).
    split; simpl.
    + intros Hnil. by apply app_eq_nil in Hnil as [_ ?].
    + intros _. split; [apply Hin; by right | by rewrite lookup_insert_eq].
    + intros x [Hx| ->]%Hin; [specialize (Hlt x Hx)|]; lia.
    + intros f l [[<- <-]|[Hne Hfl]]%lookup_insert_Some.
      * split; [lia|]. split.
        { intros x Hx. apply Hin.
          destruct (decide (x = c)); [by right | left; apply Hsub; lia]. }
        split; [|done]. intros [Hx|Hx]%Hin; [done | lia].
      * destruct (Hrange f l Hfl) as (Hle' & Hsub' & Hpred' & Hsucc).
        destruct (Hsucc ltac:(done)) as [Hs Hll].
        split; [done|]. split; [intros x Hx; apply Hin; left; by apply Hsub'|].
        split; [intros [Hx|Hx]%Hin; [done | lia]|].
        intros _. split; [|lia]. intros [Hx|Hx]%Hin; [done | lia].
    + intros x [Hx| ->]%Hin.
      * destruct (Hcover x Hx) as (f & l & Hfl & Hfx).
        destruct (decide (f = ss_first st)) as [->|Hf].
        -- exists (ss_first st), c. split; [by rewrite lookup_insert_eq|].
           specialize (Hlt x Hx). lia.
        -- exists f, l. split; [|done]. by rewrite lookup_insert_ne.
      * exists (ss_first st), c. split; [by rewrite lookup_insert_eq | lia].
Qed.

Lemma scan_inv_step (p : list Z) (st : scan_state) (c : Z) :
  scan_inv p st → (∀ x, x ∈ p → x < c) → 0 ≤ c →
  scan_inv (p ++ [c]) (scan_step st c).
Proof. intros Hinv Hlt Hc. apply scan_inv_step_from; [done | done | lia]. Qed.

Lemma scan_inv_foldl (p : list Z) :
  StronglySorted Z.lt p → (∀ x, x ∈ p → 0 ≤ x) →
  scan_inv p (foldl scan_step scan_init p).
Proof.
  induction p as [|c p IH] using rev_ind; intros Hs Hpos.
  - apply scan_inv_init.
  - rewrite foldl_snoc. apply scan_inv_step.
    + apply IH; [by eapply StronglySorted_app_1_l|].
      intros x Hx. apply Hpos, elem_of_app. by left.
    + intros x Hx.
      apply (StronglySorted_app_1_elem_of Z.lt p [c] x c Hs Hx). by left.
    + apply Hpos, elem_of_app. right. by left.
Qed.

(** C2.  The intervals written for a set of codepoints cover exactly the
    members of the set; both ends of every interval are members and the
    codepoints just outside it are not; and an interval starts at a member
    exactly when the codepoint before it is not a member. *)
Theorem sparse_set_membership (table : gset Z) :
  (∀ c, c ∈ table → codepoint c) →
  ∃ entries,
    write_sparse_set table = Some entries ∧
    StronglySorted Z.lt entries.*1 ∧
    (∀ c, c ∈ table ↔ ∃ e, e ∈ entries ∧ covers e c) ∧
    (∀ e, e ∈ entries →
       ∃ l, e.2 = [l] ∧ e.1 ≤ l ∧ e.1 ∈ table ∧ l ∈ table ∧
            (e.1 - 1 ∉ table) ∧ l + 1 ∉ table) ∧
    (∀ c, c ∈ table → (c - 1 ∉ table ↔ ∃ e, e ∈ entries ∧ e.1 = c)).
Proof.
  intros Hcp. unfold write_sparse_set.
  set (p := sorted (elements table)).
  assert (Hp : ∀ x, x ∈ p ↔ x ∈ table).
  { intros x. unfold p. by rewrite sorted_elem, elem_of_elements. }
  destruct (scan_inv_foldl p) as [_ Hlast Hmax Hrange Hcover].
  { apply sorted_strict, NoDup_elements. }
  { intros x Hx%Hp. by apply Hcp. }
  set (sub := ss_subranges (foldl scan_step scan_init p)) in *.
  destruct (write_charmap_single sub) as (entries & He & Hsorted & Hin).
  exists entries. split; [done|]. split; [done|].
  assert (Hends : ∀ f l, sub !! f = Some l →
            f ≤ l ∧ f ∈ table ∧ l ∈ table ∧ (f - 1 ∉ table) ∧ (l + 1 ∉ table) ∧
            ∀ x, f ≤ x ≤ l → x ∈ table).
  { intros f l Hfl. destruct (Hrange f l Hfl) as (Hle & Hsub & Hpred & Hsucc).
    assert (Hl : l ∈ p) by (apply Hsub; lia).
    split; [done|]. split; [apply Hp, Hsub; lia|]. split; [by apply Hp|].
    split; [by rewrite <- Hp|]. split; [|intros x Hx; by apply Hp, Hsub].
    rewrite <- Hp.
    destruct (decide (f = ss_first (foldl scan_step scan_init p))) as [->|Hf].
    - destruct Hlast as [_ Hcur]; [by intros Hnil; rewrite Hnil in Hl; inversion Hl|].
      rewrite Hcur in Hfl. injection Hfl as <-.
      intros Hx. specialize (Hmax _ Hx). lia.
    - by destruct (Hsucc Hf). }
  split; [|split].
  - intros c. split.
    + intros (f & l & Hfl & Hc)%Hp%Hcover. exists (f, [l]).
      split; [apply Hin; eauto|]. exists l. done.
    + intros ([f fv] & (v & Hfl & ->)%Hin & (l & [= <-] & Hc)). simpl in Hc.
      by apply (Hends f v Hfl).
  - intros [f fv] (l & Hfl & ->)%Hin. exists l. simpl.
    destruct (Hends f l Hfl) as (? & ? & ? & ? & ? & _). done.
  - intros c Hc. split.
    + intros Hpred. apply Hp, Hcover in Hc as (f & l & Hfl & Hfc).
      exists (f, [l]). split; [apply Hin; eauto|]. simpl.
      destruct (decide (f = c)) as [|Hne]; [done|]. exfalso. apply Hpred.
      apply (Hends f l Hfl). lia.
    + intros ([f fv] & (l & Hfl & ->)%Hin & Hf). simpl in Hf. subst f.
      by apply (Hends c l Hfl).
Qed.
End sparse_set_facts.

Definition example_set : gset Z := {[ 0x30; 0x31; 0x32; 0x41; 0x61; 0x62 ]}.

Example example_set_written :
  SparseSet.write_sparse_set example_set
  = Some [(0x30, [0x32]); (0x41, [0x41]); (0x61, [0x62])].
Proof. vm_compute. reflexivity. Qed.

Lemma sparse_set_membership_witness :
  (∀ c, c ∈ example_set → codepoint c) ∧
  ∃ entries,
    SparseSet.write_sparse_set example_set = Some entries ∧
    StronglySorted Z.lt entries.*1 ∧
    (∀ c, c ∈ example_set ↔ ∃ e, e ∈ entries ∧ SparseSet.covers e c) ∧
    (∀ e, e ∈ entries →
       ∃ l, e.2 = [l] ∧ e.1 ≤ l ∧ e.1 ∈ example_set ∧ l ∈ example_set ∧
            (e.1 - 1 ∉ example_set) ∧ l + 1 ∉ example_set) ∧
    (∀ c, c ∈ example_set → (c - 1 ∉ example_set ↔ ∃ e, e ∈ entries ∧ e.1 = c)).
Proof.
  assert (Hcp : ∀ c, c ∈ example_set → codepoint c).
  { intros c. unfold example_set. rewrite !elem_of_union, !elem_of_singleton.
    unfold codepoint. lia. }
  split; [exact Hcp|]. exact (sparse_set_membership example_set Hcp).
Defined.

(** * Properties of the script tag packer *)

Section script_facts.
Import Str Script.

Lemma ord_bounds (c : ascii) : 0 ≤ ord c < 256.
Proof. unfold ord. pose proof (N_ascii_bounded c). lia. Qed.

Lemma ord_inj (c1 c2 : ascii) : ord c1 = ord c2 → c1 = c2.
Proof.
  unfold ord. intros Heq%N2Z.inj.
  by rewrite <- (ascii_N_embedding c1), <- (ascii_N_embedding c2), Heq.
Qed.

Lemma lower_char_lowercase (c : ascii) : lowercase_letter c → lower_char c = c.
Proof.
  unfold lowercase_letter, lower_char. intros Hc.
  rewrite bool_decide_eq_false_2; [done|]. lia.
Qed.

Lemma lower_script_code (abbr : string) :
  Forall lowercase_letter (list_ascii_of_string abbr) →
  lower abbr = list_ascii_of_string abbr.
Proof.
  unfold lower. induction 1 as [|c l Hc Hl IH]; [done|].
  rewrite fmap_cons, IH. by rewrite lower_char_lowercase.
Qed.

(** The fold of [encode_script] over the characters of the code. *)
Definition pack (l : list ascii) : Z :=
  foldl (λ tag c, Z.shiftl tag 8 + ord c) 0 l.

Lemma pack_snoc (l : list ascii) (c : ascii) :
  pack (l ++ [c]) = pack l * 256 + ord c.
Proof. unfold pack. rewrite foldl_snoc. by rewrite Z.shiftl_mul_pow2 by lia. Qed.

Lemma pack_nonneg (l : list ascii) : 0 ≤ pack l.
Proof.
  induction l as [|c l IH] using rev_ind; [done|].
  rewrite pack_snoc. pose proof (ord_bounds c). lia.
Qed.

Lemma list_snoc_case {A : Type} (l : list A) :
  l = [] ∨ ∃ l' x, l = l' ++ [x].
Proof. induction l as [|x l _] using rev_ind; [by left | right; eauto]. Qed.

(** Distinct sequences of non-zero characters pack to distinct integers. *)
Lemma pack_inj (l1 l2 : list ascii) :
  Forall (λ c, 0 < ord c) l1 → Forall (λ c, 0 < ord c) l2 →
  pack l1 = pack l2 → l1 = l2.
Proof.
  revert l2. induction l1 as [|c1 l1 IH] using rev_ind;
    intros l2 H1 H2; destruct (list_snoc_case l2) as [->|(l2' & c2 & ->)];
    [| rename l2' into l2 | | rename l2' into l2].
  - done.
  - rewrite pack_snoc. apply Forall_app in H2 as [_ [Hc2 _]%Forall_cons].
    pose proof (pack_nonneg l2). unfold pack at 1. simpl. lia.
  - rewrite pack_snoc. apply Forall_app in H1 as [_ [Hc1 _]%Forall_cons].
    pose proof (pack_nonneg l1). unfold pack at 2. simpl. lia.
  - rewrite !pack_snoc.
    apply Forall_app in H1 as [H1 _]. apply Forall_app in H2 as [H2 _].
    pose proof (ord_bounds c1). pose proof (ord_bounds c2). intros Heq.
    assert (ord c1 = ord c2 ∧ pack l1 = pack l2) as [Hc Hl] by lia.
    by rewrite (IH l2 H1 H2 Hl), (ord_inj _ _ Hc).
Qed.

(** A sequence of [n >= 1] non-zero characters packs into
    [256^(n-1) .. 256^n - 1]. *)
Lemma pack_range (l : list ascii) :
  l ≠ [] → Forall (λ c, 0 < ord c) l →
  256 ^ (Z.of_nat (length l) - 1) ≤ pack l < 256 ^ Z.of_nat (length l).
Proof.
  induction l as [|c l IH] using rev_ind; [done|]. intros _ Hall.
  apply Forall_app in Hall as [Hl [Hc _]%Forall_cons].
  rewrite pack_snoc, length_app. simpl length.
  pose proof (ord_bounds c).
  replace (Z.of_nat (length l + 1) - 1) with (Z.of_nat (length l)) by lia.
  replace (Z.of_nat (length l + 1)) with (Z.succ (Z.of_nat (length l))) by lia.
  rewrite Z.pow_succ_r by lia.
  destruct (list_snoc_case l) as [->|(l' & c' & ->)].
  - unfold pack. simpl. lia.
  - specialize (IH ltac:(by intros [_ ?]%app_eq_nil) Hl).
    revert IH. generalize (pack (l' ++ [c'])). rewrite length_app. simpl length.
    replace (Z.of_nat (length l' + 1)) with (Z.succ (Z.of_nat (length l'))) by lia.
    replace (Z.succ (Z.of_nat (length l')) - 1) with (Z.of_nat (length l')) by lia.
    rewrite Z.pow_succ_r by lia.
    generalize (256 ^ Z.of_nat (length l')). intros p z Hz. lia.
Qed.

Lemma lowercase_nonzero (l : list ascii) :
  Forall lowercase_letter l → Forall (λ c, 0 < ord c) l.
Proof.
  intros Hl. eapply Forall_impl; [exact Hl|].
  intros c Hc. unfold lowercase_letter in Hc. unfold ord. lia.
Qed.

Lemma encode_script_pack (abbr : string) :
  script_code abbr → encode_script abbr = pack (list_ascii_of_string abbr).
Proof. intros [_ Hl]. unfold encode_script. by rewrite lower_script_code. Qed.

Lemma length_list_ascii (s : string) :
  length (list_ascii_of_string s) = String.length s.
Proof. induction s as [|c s IH]; simpl; [done | by rewrite IH]. Qed.

(** C9.  Two script codes of one to four lower-case ASCII letters that pack
    to the same integer are the same code; a code of [n] letters packs into
    the range [256^(n-1) .. 256^n - 1], so codes of different lengths fall
    in disjoint ranges. *)
Theorem encode_script_injective (abbr1 abbr2 : string) :
  script_code abbr1 → script_code abbr2 →
  (encode_script abbr1 = encode_script abbr2 → abbr1 = abbr2) ∧
  256 ^ (Z.of_nat (String.length abbr1) - 1) ≤ encode_script abbr1
    < 256 ^ Z.of_nat (String.length abbr1).
Proof.
  intros Hc1 Hc2. rewrite !encode_script_pack by done.
  destruct Hc1 as [Hlen1 Hl1], Hc2 as [Hlen2 Hl2]. split.
  - intros Heq%pack_inj; [|by apply lowercase_nonzero..].
    by rewrite <- (string_of_list_ascii_of_string abbr1), Heq,
      string_of_list_ascii_of_string.
  - rewrite <- length_list_ascii. apply pack_range; [|by apply lowercase_nonzero].
    intros Hnil. rewrite <- length_list_ascii, Hnil in Hlen1. simpl in Hlen1. lia.
Qed.
End script_facts.

Example encode_script_latn : Script.encode_script "latn" = 0x6c61746e.
Proof. reflexivity. Qed.

Example encode_script_upper : Script.encode_script "Zzzz" = 0x7a7a7a7a.
Proof. reflexivity. Qed.

Lemma script_code_latn : Script.script_code "latn".
Proof.
  split; [simpl; lia|]. unfold Script.lowercase_letter.
  repeat constructor; simpl; lia.
Qed.

Lemma script_code_la : Script.script_code "la".
Proof.
  split; [simpl; lia|]. unfold Script.lowercase_letter.
  repeat constructor; simpl; lia.
Qed.

Lemma encode_script_injective_witness :
  Script.script_code "latn" ∧ Script.script_code "la" ∧
  (Script.encode_script "latn" = Script.encode_script "la" → "latn" = "la") ∧
  256 ^ (Z.of_nat (String.length "latn") - 1) ≤ Script.encode_script "latn"
    < 256 ^ Z.of_nat (String.length "latn").
Proof.
  split; [exact script_code_latn|]. split; [exact script_code_la|].
  exact (encode_script_injective "latn" "la" script_code_latn script_code_la).
Defined.

(** * Properties of fold normalization *)

Section case_folding_facts.
Import Charmap CaseFolding.
Implicit Types (simple_lower simple_fold sf : gmap Z Z).

Lemma default_loop_lookup (keys : list Z) sf (c : Z) :
  foldl (λ sf code, if decide (is_Some (sf !! code)) then sf
                    else <[code := code]> sf) sf keys !! c
  = match sf !! c with
    | Some m => Some m
    | None => if decide (c ∈ keys) then Some c else None
    end.
Proof.
  revert sf. induction keys as [|k keys IH]; intros sf; cbn [foldl].
  - destruct (sf !! c); [done|]. by rewrite decide_False by (by intros ?%elem_of_nil).
  - rewrite IH. destruct (decide (is_Some (sf !! k))) as [[m Hm]|Hnone].
    + destruct (sf !! c) eqn:Hc; [done|].
      destruct (decide (c = k)) as [->|Hne]; [congruence|].
      destruct (decide (c ∈ keys)) as [Hin|Hnin].
      * by rewrite decide_True by (by right).
      * rewrite decide_False; [done|]. by intros [?|?]%elem_of_cons.
    + destruct (decide (c = k)) as [->|Hne].
      * rewrite lookup_insert_eq.
        apply eq_None_not_Some in Hnone. rewrite Hnone.
        by rewrite decide_True by left.
      * rewrite lookup_insert_ne by done.
        destruct (sf !! c); [done|].
        destruct (decide (c ∈ keys)) as [Hin|Hnin].
        -- by rewrite decide_True by (by right).
        -- rewrite decide_False; [done|]. by intros [?|?]%elem_of_cons.
Qed.

(** After the first loop: an explicit fold stays, and a codepoint with a
    lower-case mapping and no fold folds to itself. *)
Lemma default_folds_lookup simple_lower simple_fold (c : Z) :
  default_folds simple_lower simple_fold !! c
  = match simple_fold !! c with
    | Some m => Some m
    | None => if decide (is_Some (simple_lower !! c)) then Some c else None
    end.
Proof.
  unfold default_folds. rewrite default_loop_lookup.
  destruct (simple_fold !! c); [done|].
  destruct (decide (is_Some (simple_lower !! c))) as [Hs|Hn].
  - by rewrite decide_True by (by apply map_keys_elem).
  - rewrite decide_False; [done|]. by rewrite map_keys_elem.
Qed.

Lemma divergent_loop_lookup simple_lower (items : list (Z * Z))
    (temp_fold : gmap Z Z) (c : Z) :
  NoDup items.*1 →
  foldl (λ temp_fold '(code, mapping),
           if decide (simple_lower !! code = None ∨
                      simple_lower !! code ≠ Some mapping)
           then <[code := mapping]> temp_fold
           else temp_fold) temp_fold items !! c
  = match list_find (λ item, item.1 = c) items with
    | Some (_, (_, m)) =>
        if decide (simple_lower !! c = Some m) then temp_fold !! c else Some m
    | None => temp_fold !! c
    end.
Proof.
  revert temp_fold. induction items as [|[k m] items IH]; intros temp_fold Hnd;
    [done|]. cbn [foldl list_find]. rewrite fmap_cons in Hnd.
  apply NoDup_cons in Hnd as [Hk Hnd]. rewrite IH by done. clear IH.
  simpl in Hk. destruct (decide (k = c)) as [->|Hne].
  - assert (Hfind : list_find (λ item : Z * Z, item.1 = c) items = None).
    { apply list_find_None, Forall_forall. intros [k' m'] Hin ?. simpl in *.
      subst k'. apply Hk. apply list_elem_of_fmap. by exists (c, m'). }
    rewrite Hfind. rewrite (decide_True (P := (c, m).1 = c)) by done.
    destruct (decide (simple_lower !! c = Some m)) as [Heq|Hdiff].
    + rewrite decide_False; [done|]. intros [Hn|Hn]; congruence.
    + rewrite decide_True by (by right). by rewrite lookup_insert_eq.
  - rewrite (decide_False (P := (k, m).1 = c)) by done.
    destruct (list_find _ items) as [[i [k' m']]|] eqn:Hfind; simpl.
    + apply list_find_Some in Hfind as (_ & Hk' & _). simpl in Hk'. subst k'.
      case_decide; [|done]. case_decide; [by rewrite lookup_insert_ne | done].
    + case_decide; [by rewrite lookup_insert_ne | done].
Qed.

(** After the second loop: exactly the folds that are not the lower-case
    entry of the same codepoint. *)
Lemma divergent_folds_lookup simple_lower simple_fold (c m : Z) :
  divergent_folds simple_lower simple_fold !! c = Some m ↔
  simple_fold !! c = Some m ∧ simple_lower !! c ≠ Some m.
Proof.
  unfold divergent_folds.
  rewrite divergent_loop_lookup by apply NoDup_fst_map_to_list.
  rewrite lookup_empty.
  destruct (list_find _ _) as [[i [k m']]|] eqn:Hfind.
  - apply list_find_Some in Hfind as (Hi & Hk & _). simpl in Hk. subst k.
    apply list_elem_of_lookup_2, elem_of_map_to_list in Hi. rewrite Hi.
    case_decide; [split; [done | intros [[= <-] ?]; done]|].
    split; [intros [= <-]; done | by intros [[= <-] _]].
  - split; [done|]. intros [Hc _]. exfalso.
    apply elem_of_map_to_list, list_elem_of_lookup in Hc as [i Hi].
    eapply list_find_None, Forall_forall in Hfind;
      [|by eapply list_elem_of_lookup_2]. by apply Hfind.
Qed.

Lemma normalize_folds_lookup simple_lower simple_fold (c m : Z) :
  normalize_folds simple_lower simple_fold !! c = Some m ↔
  default_folds simple_lower simple_fold !! c = Some m ∧
  simple_lower !! c ≠ Some m.
Proof. apply divergent_folds_lookup. Qed.
(** ** The records of [CaseFolding.txt] *)

Lemma case_folding_record_full (fields : cf_fields) (ft ft' : fold_tables) :
  case_folding_record fields ft = Some ft' →
  full_fold ft' =
  if decide (cf_status fields = "F"%string ∧ (1 < length (cf_mapping fields))%nat)
  then <[cf_code fields := cf_mapping fields]> (full_fold ft)
  else full_fold ft.
Proof.
  unfold case_folding_record. intros Hrec.
  destruct (decide (cf_status fields = "C"%string ∨ cf_status fields = "S"%string))
    as [Hcs|Hcs].
  - destruct (cf_mapping fields) as [|m [|m' ms]]; try done.
    injection Hrec as <-. simpl.
    rewrite decide_False; [done|]. intros [HF _]. destruct Hcs; congruence.
  - destruct (decide (cf_status fields = "F"%string)) as [HF|HF].
    + destruct (decide (1 < length (cf_mapping fields))%nat).
      * injection Hrec as <-. simpl. by rewrite decide_True.
      * injection Hrec as <-. by rewrite decide_False by tauto.
    + injection Hrec as <-. by rewrite decide_False by tauto.
Qed.

Lemma process_records_full_keeps (records : list cf_fields) (ft ft' : fold_tables)
    (c : Z) :
  CaseFolding.process_records records ft = Some ft' →
  (∃ values, full_fold ft !! c = Some values ∧ (1 < length values)%nat) →
  ∃ values, full_fold ft' !! c = Some values ∧ (1 < length values)%nat.
Proof.
  revert ft. induction records as [|r records IH]; intros ft Hrun Hc; simpl in Hrun.
  - by injection Hrun as <-.
  - destruct (case_folding_record r ft) as [ft1|] eqn:Hrec; [|done]. simpl in Hrun.
    apply (IH ft1 Hrun). rewrite (case_folding_record_full _ _ _ Hrec).
    case_decide as Hf; [|done].
    destruct (decide (cf_code r = c)) as [<-|Hne].
    + rewrite lookup_insert_eq. exists (cf_mapping r). by destruct Hf.
    + by rewrite lookup_insert_ne.
Qed.

Lemma process_records_full (records : list cf_fields) (ft ft' : fold_tables)
    (r : cf_fields) :
  CaseFolding.process_records records ft = Some ft' →
  r ∈ records → cf_status r = "F"%string → (1 < length (cf_mapping r))%nat →
  ∃ values, full_fold ft' !! cf_code r = Some values ∧ (1 < length values)%nat.
Proof.
  revert ft. induction records as [|r' records IH]; intros ft Hrun Hin HF Hlen.
  - inversion Hin.
  - simpl in Hrun.
    destruct (case_folding_record r' ft) as [ft1|] eqn:Hrec; [|done]. simpl in Hrun.
    apply elem_of_cons in Hin as [->|Hin]; [|by apply (IH ft1)].
    apply (process_records_full_keeps records ft1 ft' _ Hrun).
    rewrite (case_folding_record_full _ _ _ Hrec), decide_True by done.
    rewrite lookup_insert_eq. eauto.
Qed.

(** ** The written fold tables *)

(** C5, as amended.  A codepoint with a simple lower-case mapping and no
    explicit simple fold is given itself as its fold (not its lower-case
    value), and a codepoint with neither gets no fold; then every codepoint
    whose fold equals its lower-case entry is dropped.  The written
    simple-fold table holds exactly the codepoints whose explicit or
    defaulted fold is not their lower-case entry: the explicit folds that are
    not the lower-case entry, and as their own fold the codepoints without
    an explicit fold whose lower-case entry is another codepoint, and nothing
    else.  An explicit fold equal to the lower-case mapping is left out, and
    a multi-character full fold is in the full-fold table. *)
Theorem fold_normalization (simple_lower : gmap Z Z)
    (records : list cf_fields) (ft : fold_tables) :
  CaseFolding.process_records records fold_init = Some ft →
  let defaulted := default_folds simple_lower (simple_fold ft) in
  let emitted := normalize_folds simple_lower (simple_fold ft) in
  (∀ c, is_Some (simple_lower !! c) → simple_fold ft !! c = None →
        defaulted !! c = Some c) ∧
  (∀ c m, simple_fold ft !! c = Some m → defaulted !! c = Some m) ∧
  (∀ c m, emitted !! c = Some m ↔
          defaulted !! c = Some m ∧ simple_lower !! c ≠ Some m) ∧
  (∀ c m, simple_fold ft !! c = Some m → simple_lower !! c = Some m →
          emitted !! c = None) ∧
  (∀ c l, simple_lower !! c = Some l → l ≠ c → simple_fold ft !! c = None →
          emitted !! c = Some c) ∧
  (∃ entries,
     write_simple_casefold simple_lower ft = Some entries ∧
     ∀ c fv, (c, fv) ∈ entries ↔ ∃ m, emitted !! c = Some m ∧ fv = [m]) ∧
  (∀ r, r ∈ records → cf_status r = "F"%string →
        (1 < length (cf_mapping r))%nat →
        ∃ values, full_fold ft !! cf_code r = Some values ∧
                  (1 < length values)%nat) ∧
  (∀ c, simple_lower !! c = None → simple_fold ft !! c = None →
        defaulted !! c = None) ∧
  (∀ c m, emitted !! c = Some m ↔
          (simple_fold ft !! c = Some m ∧ simple_lower !! c ≠ Some m) ∨
          (simple_fold ft !! c = None ∧ m = c ∧
           ∃ l, simple_lower !! c = Some l ∧ l ≠ c)).
Proof.
  intros Hrun defaulted emitted.
  split; [|split; [|split; [|split; [|split; [|split; [|split; [|split]]]]]]].
  - intros c Hl Hf. unfold defaulted. rewrite default_folds_lookup, Hf.
    by rewrite decide_True.
  - intros c m Hf. unfold defaulted. by rewrite default_folds_lookup, Hf.
  - intros c m. apply normalize_folds_lookup.
  - intros c m Hf Hl. apply eq_None_not_Some. intros [m' Hm'].
    apply normalize_folds_lookup in Hm' as [Hd Hne].
    rewrite default_folds_lookup, Hf in Hd. congruence.
  - intros c l Hl Hne Hf. apply normalize_folds_lookup. split.
    + rewrite default_folds_lookup, Hf. by rewrite decide_True by eauto.
    + rewrite Hl. congruence.
  - unfold write_simple_casefold.
    destruct (write_charmap_single emitted) as (entries & He & _ & Hin).
    exists entries. split; [done|]. intros c fv. by rewrite Hin.
  - intros r Hin HF Hlen. by apply (process_records_full records fold_init ft r).
  - intros c Hl Hf. unfold defaulted. rewrite default_folds_lookup, Hf.
    rewrite decide_False; [done|]. rewrite Hl. by intros [? ?].
  - intros c m. unfold emitted. rewrite normalize_folds_lookup, default_folds_lookup.
    destruct (simple_fold ft !! c) as [m'|] eqn:Hf.
    + split; [intros [? ?]; by left | intros [[? ?]|(? & _)]; done].
    + destruct (simple_lower !! c) as [l|] eqn:Hl.
      * rewrite decide_True by (by eexists). split.
        -- intros [[= <-] Hne]. right. split; [done|]. split; [done|].
           exists l. split; [done | congruence].
        -- intros [[? _]|(_ & -> & l' & [= <-] & Hne)]; [done|].
           split; [done | congruence].
      * rewrite decide_False by (by intros [? ?]).
        split; [by intros [? _] | intros [[? _]|(_ & _ & l & ? & _)]; done].
Qed.
End case_folding_facts.

(** ** A case-folding scenario *)

(** U+0041 folds to U+0061, its lower case; U+0130 has a lower case U+0069,
    a full fold to U+0069 U+0307 and no simple fold. *)
Definition example_lower : gmap Z Z := <[0x41 := 0x61]> (<[0x130 := 0x69]> ∅).

Definition example_folding : list CaseFolding.cf_fields :=
  [ {| CaseFolding.cf_code := 0x41; CaseFolding.cf_status := "C";
       CaseFolding.cf_mapping := [0x61] |};
    {| CaseFolding.cf_code := 0x130; CaseFolding.cf_status := "F";
       CaseFolding.cf_mapping := [0x69; 0x307] |};
    {| CaseFolding.cf_code := 0x130; CaseFolding.cf_status := "T";
       CaseFolding.cf_mapping := [0x69] |} ].

Definition example_folds : CaseFolding.fold_tables :=
  {| CaseFolding.simple_fold := <[0x41 := 0x61]> ∅;
     CaseFolding.full_fold := <[0x130 := [0x69; 0x307]]> ∅ |}.

Lemma example_folding_processed :
  CaseFolding.process_records example_folding CaseFolding.fold_init
  = Some example_folds.
Proof. reflexivity. Qed.

Example example_folding_written :
  CaseFolding.write_simple_casefold example_lower example_folds
  = Some [(0x130, [0x130])] ∧
  CaseFolding.write_full_casefold example_folds
  = Some [(0x130, [0x69; 0x307; 0])].
Proof. split; vm_compute; reflexivity. Qed.

Lemma fold_normalization_witness :
  CaseFolding.process_records example_folding CaseFolding.fold_init
  = Some example_folds ∧
  CaseFolding.normalize_folds example_lower
    (CaseFolding.simple_fold example_folds) !! 0x41 = None ∧
  CaseFolding.normalize_folds example_lower
    (CaseFolding.simple_fold example_folds) !! 0x130 = Some 0x130.
Proof.
  split; [exact example_folding_processed|].
  destruct (fold_normalization example_lower example_folding example_folds
              example_folding_processed) as (_ & _ & _ & Homit & Hself & _).
  split; [exact (Homit 0x41 0x61 eq_refl eq_refl)|].
  apply (Hself 0x130 0x69); [reflexivity | lia | reflexivity].
Defined.

(** C5 as stated fails: U+0130 has the lower-case mapping U+0069 and no
    simple fold; the first loop gives it the fold U+0130, not U+0069, and it
    stays in the written table. *)
Lemma fold_default_counterexample :
  let simple_lower : gmap Z Z := <[0x130 := 0x69]> ∅ in
  let simple_fold : gmap Z Z := ∅ in
  simple_lower !! 0x130 = Some 0x69 ∧
  simple_fold !! 0x130 = None ∧
  CaseFolding.default_folds simple_lower simple_fold !! 0x130 = Some 0x130 ∧
  CaseFolding.default_folds simple_lower simple_fold !! 0x130 ≠ Some 0x69 ∧
  CaseFolding.normalize_folds simple_lower simple_fold !! 0x130 = Some 0x130.
Proof. vm_compute. repeat split; discriminate. Qed.

(** * Properties of the pass over [UnicodeData.txt] *)

Section unicode_data_facts.
Import Str Charmap UnicodeData.

(** What one record does to each table the later stages read. *)
Lemma unicode_data_record_Some (fields : ud_fields) (st st' : ucd) :
  unicode_data_record fields st = Some st' →
  character_names st' =
    (if startswith "<" (ud_name fields) then character_names st
     else <[ud_code fields := ud_name fields]> (character_names st)) ∧
  combining_class st' = <[ud_code fields := ud_ccc fields]> (combining_class st) ∧
  canonical st' =
    match ud_decomp fields with
    | Canonical d0 ds => PyDict.set (canonical st) (ud_code fields) (d0 :: ds)
    | _ => canonical st
    end ∧
  composition_exclusion st' =
    match ud_decomp fields with
    | Canonical d0 [] => {[ud_code fields]} ∪ composition_exclusion st
    | _ => composition_exclusion st
    end ∧
  simple_upper st' =
    (if decide (uc_of fields ≠ ud_code fields)
     then <[ud_code fields := uc_of fields]> (simple_upper st)
     else simple_upper st) ∧
  simple_lower st' =
    (if decide (lc_of fields ≠ ud_code fields)
     then <[ud_code fields := lc_of fields]> (simple_lower st)
     else simple_lower st) ∧
  simple_title st' =
    (if decide (tc_of fields ≠ uc_of fields)
     then <[ud_code fields := tc_of fields]> (simple_title st)
     else simple_title st).
Proof.
  unfold unicode_data_record. intros Hrec.
  destruct (if endswith " First>" (ud_name fields) then _ else _) as [rb|];
    [|done]. simpl in Hrec.
  destruct (char_at (ud_category fields) 0) as [g0|]; [|done]. simpl in Hrec.
  destruct (char_at (ud_category fields) 1) as [g1|]; [|done]. simpl in Hrec.
  injection Hrec as <-. simpl. repeat split.
  destruct (ud_decomp fields) as [|d0 [|d1 ds]|dchars]; try done.
Qed.

(** A table filled by [if val != base: table[code] = val]. *)
Section conditional_insert.
Variables (proj : ucd → gmap Z Z) (val base : ud_fields → Z).
Hypothesis proj_step : ∀ fields st st',
  unicode_data_record fields st = Some st' →
  proj st' = if decide (val fields ≠ base fields)
             then <[ud_code fields := val fields]> (proj st)
             else proj st.

Lemma conditional_insert_sound (records : list ud_fields) (st0 st : ucd)
    (c t : Z) :
  process_records records st0 = Some st →
  proj st !! c = Some t →
  proj st0 !! c = Some t ∨
  ∃ r, r ∈ records ∧ ud_code r = c ∧ val r = t ∧ val r ≠ base r.
Proof.
  revert st0. induction records as [|r records IH]; intros st0 Hrun Hc;
    simpl in Hrun.
  - injection Hrun as <-. by left.
  - destruct (unicode_data_record r st0) as [st1|] eqn:Hrec; [|done].
    simpl in Hrun. destruct (IH st1 Hrun Hc) as [H1|(r' & Hin & ?)].
    + rewrite (proj_step _ _ _ Hrec) in H1. case_decide as Hv; [|by left].
      apply lookup_insert_Some in H1 as [[<- <-]|[_ H1]]; [|by left].
      right. exists r. split; [left | done].
    + right. exists r'. split; [by right | done].
Qed.

Lemma conditional_insert_complete (records : list ud_fields) (st0 st : ucd)
    (c : Z) :
  process_records records st0 = Some st →
  is_Some (proj st0 !! c) ∨
  (∃ r, r ∈ records ∧ ud_code r = c ∧ val r ≠ base r) →
  is_Some (proj st !! c).
Proof.
  revert st0. induction records as [|r records IH]; intros st0 Hrun Hc;
    simpl in Hrun.
  - injection Hrun as <-. destruct Hc as [?|(r & Hin & _)]; [done|].
    inversion Hin.
  - destruct (unicode_data_record r st0) as [st1|] eqn:Hrec; [|done].
    simpl in Hrun. apply (IH st1 Hrun).
    rewrite (proj_step _ _ _ Hrec).
    destruct Hc as [Hc|(r' & [->|Hin]%elem_of_cons & Hcode & Hv)].
    + left. case_decide; [|done].
      destruct (decide (ud_code r = c)) as [->|Hne];
        [by rewrite lookup_insert_eq | by rewrite lookup_insert_ne].
    + left. rewrite decide_True by done. subst c. by rewrite lookup_insert_eq.
    + right. eauto.
Qed.

Lemma conditional_insert_dom (records : list ud_fields) (st : ucd) (c : Z) :
  proj ucd_init = ∅ →
  process_records records ucd_init = Some st →
  is_Some (proj st !! c) ↔
  ∃ r, r ∈ records ∧ ud_code r = c ∧ val r ≠ base r.
Proof.
  intros Hinit Hrun. split.
  - intros [t Ht].
    destruct (conditional_insert_sound records ucd_init st c t Hrun Ht)
      as [H0|(r & ? & ? & ? & ?)]; [|eauto].
    by rewrite Hinit, lookup_empty in H0.
  - intros Hr. apply (conditional_insert_complete records ucd_init st c Hrun).
    by right.
Qed.
End conditional_insert.

(** C10.  A record without a title-case field records no title-case entry,
    whatever its upper-case field: the missing title case is the upper case,
    not the code.  A record with a title-case field records it exactly when
    it is not the upper-case field, or the code where that is missing.  So
    the title-case table has an entry for exactly the codes of the records
    whose title-case field differs from their upper case, the upper- and
    lower-case tables for the codes of the records whose upper- or lower-case
    field differs from the code itself; and the written title-case table
    lists exactly those codes. *)
Theorem simple_titlecase_divergence (records : list ud_fields) (st : ucd) :
  process_records records ucd_init = Some st →
  (∀ fields st0 st1,
     unicode_data_record fields st0 = Some st1 → ud_title fields = None →
     simple_title st1 = simple_title st0) ∧
  (∀ fields st0 st1 t,
     unicode_data_record fields st0 = Some st1 → ud_title fields = Some t →
     simple_title st1 =
     if decide (t ≠ default (ud_code fields) (ud_upper fields))
     then <[ud_code fields := t]> (simple_title st0)
     else simple_title st0) ∧
  (∀ c, is_Some (simple_title st !! c) ↔
        ∃ r t, r ∈ records ∧ ud_code r = c ∧ ud_title r = Some t ∧
               t ≠ default c (ud_upper r)) ∧
  (∀ c, is_Some (simple_upper st !! c) ↔
        ∃ r u, r ∈ records ∧ ud_code r = c ∧ ud_upper r = Some u ∧ u ≠ c) ∧
  (∀ c, is_Some (simple_lower st !! c) ↔
        ∃ r l, r ∈ records ∧ ud_code r = c ∧ ud_lower r = Some l ∧ l ≠ c) ∧
  (∀ c t, simple_title st !! c = Some t →
          ∃ r, r ∈ records ∧ ud_code r = c ∧ ud_title r = Some t ∧
               t ≠ default c (ud_upper r)) ∧
  ∃ entries,
    write_charmap (Single <$> simple_title st) 1 = Some entries ∧
    ∀ c, c ∈ entries.*1 ↔
         ∃ r t, r ∈ records ∧ ud_code r = c ∧ ud_title r = Some t ∧
                t ≠ default c (ud_upper r).
Proof.
  intros Hrun.
  assert (Htc : ∀ r, tc_of r ≠ uc_of r ↔
            ∃ t, ud_title r = Some t ∧ t ≠ default (ud_code r) (ud_upper r)).
  { intros r. unfold tc_of, uc_of. destruct (ud_title r) as [t|]; simpl.
    - split; [intros Hne; by exists t | by intros (t' & [= <-] & Hne)].
    - split; [done | by intros (t' & ? & _)]. }
  assert (Huc : ∀ r, uc_of r ≠ ud_code r ↔
            ∃ u, ud_upper r = Some u ∧ u ≠ ud_code r).
  { intros r. unfold uc_of. destruct (ud_upper r) as [u|]; simpl.
    - split; [intros Hne; by exists u | by intros (u' & [= <-] & Hne)].
    - split; [done | by intros (u' & ? & _)]. }
  assert (Hlc : ∀ r, lc_of r ≠ ud_code r ↔
            ∃ l, ud_lower r = Some l ∧ l ≠ ud_code r).
  { intros r. unfold lc_of. destruct (ud_lower r) as [l|]; simpl.
    - split; [intros Hne; by exists l | by intros (l' & [= <-] & Hne)].
    - split; [done | by intros (l' & ? & _)]. }
  assert (Htitle : ∀ c, is_Some (simple_title st !! c) ↔
            ∃ r t, r ∈ records ∧ ud_code r = c ∧ ud_title r = Some t ∧
                   t ≠ default c (ud_upper r)).
  { intros c.
    rewrite (conditional_insert_dom simple_title tc_of uc_of) by
      (try done; intros fields st0 st1 Hrec;
       by destruct (unicode_data_record_Some _ _ _ Hrec) as (_&_&_&_&_&_&->)).
    split.
    - intros (r & Hr & <- & (t & Ht & Hne)%Htc). by exists r, t.
    - intros (r & t & Hr & <- & Ht & Hne). exists r. split; [done|].
      split; [done|]. apply Htc. by exists t. }
  split; [|split; [|split; [done|split; [|split; [|split]]]]].
  - intros fields st0 st1 Hrec Hnone.
    destruct (unicode_data_record_Some _ _ _ Hrec) as (_&_&_&_&_&_&->).
    rewrite decide_False; [done|]. intros (t & Ht & _)%Htc. congruence.
  - intros fields st0 st1 t Hrec Ht.
    destruct (unicode_data_record_Some _ _ _ Hrec) as (_&_&_&_&_&_&->).
    unfold tc_of, uc_of. rewrite Ht. simpl. done.
  - intros c.
    rewrite (conditional_insert_dom simple_upper uc_of ud_code) by
      (try done; intros fields st0 st1 Hrec;
       by destruct (unicode_data_record_Some _ _ _ Hrec) as (_&_&_&_&->&_&_)).
    split.
    + intros (r & Hr & <- & (u & Hu & Hne)%Huc). by exists r, u.
    + intros (r & u & Hr & <- & Hu & Hne). exists r. split; [done|].
      split; [done|]. apply Huc. by exists u.
  - intros c.
    rewrite (conditional_insert_dom simple_lower lc_of ud_code) by
      (try done; intros fields st0 st1 Hrec;
       by destruct (unicode_data_record_Some _ _ _ Hrec) as (_&_&_&_&_&->&_)).
    split.
    + intros (r & Hr & <- & (l & Hl & Hne)%Hlc). by exists r, l.
    + intros (r & l & Hr & <- & Hl & Hne). exists r. split; [done|].
      split; [done|]. apply Hlc. by exists l.
  - intros c t Ht.
    destruct (conditional_insert_sound simple_title tc_of uc_of) with
      (records := records) (st0 := ucd_init) (st := st) (c := c) (t := t)
      as [H0|(r & Hin & Hc & Hv & Hne)]; [|done..| |].
    + intros fields st0 st1 Hrec.
      by destruct (unicode_data_record_Some _ _ _ Hrec) as (_&_&_&_&_&_&->).
    + simpl in H0. by rewrite lookup_empty in H0.
    + exists r. split; [done|]. split; [done|].
      apply Htc in Hne as (t' & Ht' & Hne). subst c.
      unfold tc_of in Hv. rewrite Ht' in Hv. simpl in Hv. subst t'. done.
  - destruct (write_charmap_single (simple_title st)) as (entries & He & _ & Hin).
    exists entries. split; [done|]. intros c. rewrite <- Htitle.
    rewrite list_elem_of_fmap. split.
    + intros ([c' fv] & -> & (t & Ht & _)%Hin). eauto.
    + intros [t Ht]. exists (c, [t]). split; [done|]. apply Hin. eauto.
Qed.
End unicode_data_facts.

Definition example_unicode_data : list UnicodeData.ud_fields :=
  [ {| UnicodeData.ud_code := 0x61; UnicodeData.ud_name := "LATIN SMALL LETTER A";
       UnicodeData.ud_category := "Ll"; UnicodeData.ud_ccc := 0;
       UnicodeData.ud_bidi := "L";
       UnicodeData.ud_decomp := UnicodeData.NoDecomposition;
       UnicodeData.ud_mirrored := "N";
       UnicodeData.ud_upper := Some 0x41; UnicodeData.ud_lower := None;
       UnicodeData.ud_title := None |};
    {| UnicodeData.ud_code := 0x1C4;
       UnicodeData.ud_name := "LATIN CAPITAL LETTER DZ WITH CARON";
       UnicodeData.ud_category := "Lu"; UnicodeData.ud_ccc := 0;
       UnicodeData.ud_bidi := "L";
       UnicodeData.ud_decomp := UnicodeData.Compatibility [0x44; 0x17D];
       UnicodeData.ud_mirrored := "N";
       UnicodeData.ud_upper := None; UnicodeData.ud_lower := Some 0x1C6;
       UnicodeData.ud_title := Some 0x1C5 |} ].

Lemma example_unicode_data_processed :
  is_Some (UnicodeData.process_records example_unicode_data UnicodeData.ucd_init).
Proof. vm_compute. eauto. Qed.

Lemma simple_titlecase_divergence_witness :
  ∃ st,
    UnicodeData.process_records example_unicode_data UnicodeData.ucd_init = Some st ∧
    ∀ c, is_Some (UnicodeData.simple_title st !! c) ↔
         ∃ r t, r ∈ example_unicode_data ∧ UnicodeData.ud_code r = c ∧
                UnicodeData.ud_title r = Some t ∧
                t ≠ default c (UnicodeData.ud_upper r).
Proof.
  destruct example_unicode_data_processed as [st Hst]. exists st.
  split; [exact Hst|].
  exact (proj1 (proj2 (proj2
           (simple_titlecase_divergence example_unicode_data st Hst)))).
Defined.

Example example_titlecase_table :
  (λ st, (UnicodeData.simple_upper st, UnicodeData.simple_lower st,
          UnicodeData.simple_title st))
    <$> UnicodeData.process_records example_unicode_data UnicodeData.ucd_init
  = Some (<[0x61 := 0x41]> ∅, <[0x1C4 := 0x1C6]> ∅, <[0x1C4 := 0x1C5]> ∅).
Proof. vm_compute. reflexivity. Qed.

(** * Properties of insertion-ordered dictionaries *)

Section pydict_facts.
Context {K V : Type} `{EqDecision K}.
Implicit Types (d : PyDict.dict K V) (k : K) (v : V).

Lemma pydict_get_set d k v k' :
  PyDict.get (PyDict.set d k v) k' =
  if decide (k' = k) then Some v else PyDict.get d k'.
Proof.
  induction d as [|[k0 v0] d IH]; simpl.
  - by case_decide.
  - destruct (decide (k = k0)) as [->|Hne]; simpl.
    + by destruct (decide (k' = k0)).
    + rewrite IH. destruct (decide (k' = k0)) as [->|]; [|done].
      by rewrite decide_False.
Qed.

Lemma pydict_keys_set d k v :
  PyDict.keys (PyDict.set d k v) =
  if decide (k ∈ PyDict.keys d) then PyDict.keys d else PyDict.keys d ++ [k].
Proof.
  unfold PyDict.keys. induction d as [|[k0 v0] d IH].
  - by rewrite decide_False by (by intros ?%elem_of_nil).
  - cbn [PyDict.set]. destruct (decide (k = k0)) as [->|Hne]; rewrite !fmap_cons.
    + by rewrite decide_True by left.
    + rewrite IH. cbn [fst]. destruct (decide (k ∈ d.*1)) as [Hin|Hnin].
      * by rewrite decide_True by (by right).
      * rewrite decide_False; [done|]. by intros [?|?]%elem_of_cons.
Qed.

Lemma pydict_keys_NoDup d k v :
  NoDup (PyDict.keys d) → NoDup (PyDict.keys (PyDict.set d k v)).
Proof.
  intros Hnd. rewrite pydict_keys_set. case_decide as Hin; [done|].
  apply NoDup_app. split; [done|]. split; [|apply NoDup_singleton].
  intros x Hx ->%list_elem_of_singleton. done.
Qed.

Lemma pydict_get_elem d k v :
  NoDup (PyDict.keys d) → PyDict.get d k = Some v ↔ (k, v) ∈ d.
Proof.
  unfold PyDict.keys. induction d as [|[k0 v0] d IH]; simpl; intros Hnd.
  - split; [done | by intros ?%elem_of_nil].
  - apply NoDup_cons in Hnd as [Hk0 Hnd].
    destruct (decide (k = k0)) as [->|Hne].
    + split; [intros [= ->]; left|].
      intros [[= ->]|Hin]%elem_of_cons; [done|].
      exfalso. apply Hk0. apply list_elem_of_fmap. by exists (k0, v).
    + rewrite IH by done. split; [by right|].
      by intros [[= ? ?]|?]%elem_of_cons.
Qed.

Lemma pydict_get_keys d k : is_Some (PyDict.get d k) ↔ k ∈ PyDict.keys d.
Proof.
  unfold PyDict.keys. induction d as [|[k0 v0] d IH]; simpl.
  - split; [by intros [??] | by intros ?%elem_of_nil].
  - destruct (decide (k = k0)) as [->|Hne].
    + split; [left | eauto].
    + rewrite IH. split; [by right | by intros [?|?]%elem_of_cons].
Qed.
End pydict_facts.

(** * Properties of the composition exclusions and the composition table *)

Section decomposition_facts.
Import UnicodeData Decomposition.

(** The canonical table after any number of records: distinct keys, every
    key with a combining class, no empty decomposition, and the
    one-character decompositions already excluded. *)
Definition canonical_ok (st : ucd) : Prop :=
  NoDup (PyDict.keys (canonical st)) ∧
  ∀ c ds, PyDict.get (canonical st) c = Some ds →
    is_Some (combining_class st !! c) ∧ ds ≠ [] ∧
    (length ds = 1%nat → c ∈ composition_exclusion st).

Lemma canonical_ok_init : canonical_ok ucd_init.
Proof. split; [constructor | done]. Qed.

Lemma canonical_ok_step (fields : ud_fields) (st st' : ucd) :
  unicode_data_record fields st = Some st' →
  canonical_ok st → canonical_ok st'.
Proof.
  intros (_ & Hcc & Hcan & Hexcl & _)%unicode_data_record_Some [Hnd Hok].
  assert (Hkeep : ∀ c ds, PyDict.get (canonical st) c = Some ds →
            is_Some (combining_class st' !! c) ∧ ds ≠ [] ∧
            (length ds = 1%nat → c ∈ composition_exclusion st')).
  { intros c ds Hc. destruct (Hok c ds Hc) as (Hs & Hne & Hone).
    split; [rewrite Hcc; by apply lookup_insert_is_Some'; right|].
    split; [done|]. intros Hlen. rewrite Hexcl.
    destruct (ud_decomp fields) as [|d0 [|d1 ds']|]; auto.
    apply elem_of_union. right. auto. }
  unfold canonical_ok.
  destruct (ud_decomp fields) as [|d0 ds0|dchars];
    [by rewrite Hcan | | by rewrite Hcan].
  rewrite Hcan. split; [by apply pydict_keys_NoDup|].
  intros c ds. rewrite pydict_get_set.
  destruct (decide (c = ud_code fields)) as [->|Hne]; [|by apply Hkeep].
  intros [= <-]. split; [rewrite Hcc, lookup_insert_eq; eauto|].
  split; [done|]. intros Hlen. rewrite Hexcl.
  destruct ds0; [|done]. apply elem_of_union. left. by apply elem_of_singleton.
Qed.

Lemma canonical_ok_run (records : list ud_fields) (st0 st : ucd) :
  process_records records st0 = Some st → canonical_ok st0 → canonical_ok st.
Proof.
  revert st0. induction records as [|r records IH]; intros st0 Hrun Hok;
    simpl in Hrun.
  - by injection Hrun as <-.
  - destruct (unicode_data_record r st0) as [st1|] eqn:Hrec; [|done].
    simpl in Hrun. apply (IH st1 Hrun). by eapply canonical_ok_step.
Qed.

(** Records read in ascending code order fill [canonical] in ascending
    key order. *)
Lemma canonical_sorted_run (records : list ud_fields) (st0 st : ucd) :
  process_records records st0 = Some st →
  StronglySorted Z.le (ud_code <$> records) →
  StronglySorted Z.lt (PyDict.keys (canonical st0)) →
  (∀ k r, k ∈ PyDict.keys (canonical st0) → r ∈ records → k ≤ ud_code r) →
  StronglySorted Z.lt (PyDict.keys (canonical st)).
Proof.
  revert st0. induction records as [|r records IH];
    intros st0 Hrun Hsorted Hkeys Hbound; simpl in Hrun.
  - by injection Hrun as <-.
  - destruct (unicode_data_record r st0) as [st1|] eqn:Hrec; [|done].
    simpl in Hrun. rewrite fmap_cons in Hsorted.
    apply StronglySorted_inv in Hsorted as [Hsorted Hhead].
    apply unicode_data_record_Some in Hrec as (_ & _ & Hcan & _).
    assert (Hstep : PyDict.keys (canonical st1) = PyDict.keys (canonical st0) ∨
              ((ud_code r ∉ PyDict.keys (canonical st0)) ∧
               PyDict.keys (canonical st1)
               = PyDict.keys (canonical st0) ++ [ud_code r])).
    { rewrite Hcan. destruct (ud_decomp r); [by left| |by left].
      rewrite pydict_keys_set. case_decide; [by left | by right]. }
    apply (IH st1 Hrun Hsorted).
    + destruct Hstep as [->|[Hfresh ->]]; [done|].
      apply StronglySorted_app_2; [|done | repeat constructor].
      intros k x Hk ->%list_elem_of_singleton.
      specialize (Hbound k r Hk ltac:(left)).
      assert (k ≠ ud_code r) by (by intros ->). lia.
    + intros k r' Hk Hr'.
      assert (Hk' : k ∈ PyDict.keys (canonical st0) ∨ k = ud_code r).
      { destruct Hstep as [Heq|[_ Heq]]; rewrite Heq in Hk; [by left|].
        apply elem_of_app in Hk as [?|?%list_elem_of_singleton]; auto. }
      destruct Hk' as [Hk'| ->]; [apply Hbound; [done | by right]|].
      rewrite Forall_forall in Hhead. apply Hhead.
      apply list_elem_of_fmap. eauto.
Qed.

Lemma exclusion_loop_spec (cc : gmap Z Z) (items : list (Z * list Z))
    (excl : gset Z) :
  (∀ c ds, (c, ds) ∈ items → is_Some (cc !! c) ∧ ds ≠ []) →
  ∃ excl',
    exclusion_loop cc items excl = Some excl' ∧
    ∀ x, x ∈ excl' ↔
         x ∈ excl ∨ ∃ ds, (x, ds) ∈ items ∧ side_condition cc x ds.
Proof.
  revert excl. induction items as [|[c ds] items IH]; intros excl Hok; simpl.
  - exists excl. split; [done|]. intros x. split; [by left|].
    intros [?|(ds & Hin & _)]; [done | inversion Hin].
  - destruct (Hok c ds ltac:(left)) as [[ccc Hccc] Hds].
    destruct ds as [|d0 ds]; [done|].
    assert (Hstep : ∃ excl1,
              exclusion_step cc excl (c, d0 :: ds) = Some excl1 ∧
              ∀ x, x ∈ excl1 ↔
                   x ∈ excl ∨ (x = c ∧ side_condition cc c (d0 :: ds))).
    { unfold exclusion_step, side_condition. simpl. rewrite Hccc. simpl.
      destruct (decide (ccc ≠ 0)) as [Hnz|Hz].
      - eexists. split; [done|]. intros x.
        rewrite elem_of_union, elem_of_singleton. split.
        + intros [->|?]; [right; split; [done|left; congruence] | by left].
        + intros [?|[-> _]]; auto.
      - assert (ccc = 0) as -> by lia.
        destruct (decide (default 0 (cc !! d0) ≠ 0)) as [Hnz|Hz'].
        + eexists. split; [done|]. intros x.
          rewrite elem_of_union, elem_of_singleton. split.
          * intros [->|?]; [right; split; [done|right; eauto] | by left].
          * intros [?|[-> _]]; auto.
        + eexists. split; [done|]. intros x. split; [by left|].
          intros [?|[_ [Hc|(d & [= <-] & Hd)]]]; done. }
    destruct Hstep as (excl1 & -> & Hexcl1). simpl.
    destruct (IH excl1) as (excl' & Hloop & Hexcl').
    { intros c' ds' Hin. apply Hok. by right. }
    exists excl'. split; [done|]. intros x. rewrite Hexcl', Hexcl1. split.
    + intros [[?|[-> Hside]]|(ds' & Hin & Hside)].
      * by left.
      * right. exists (d0 :: ds). split; [left | done].
      * right. exists ds'. split; [by right | done].
    + intros [?|(ds' & [[= -> ->]|Hin]%elem_of_cons & Hside)].
      * left. by left.
      * left. right. done.
      * right. eauto.
Qed.

(** The last item of a list that satisfies [P]. *)
Fixpoint last_match {A : Type} (P : A → Prop) `{!∀ x, Decision (P x)}
    (items : list A) : option A :=
  match items with
  | [] => None
  | x :: items' =>
      match last_match P items' with
      | Some y => Some y
      | None => if decide (P x) then Some x else None
      end
  end.

Lemma last_match_None {A : Type} (P : A → Prop) `{!∀ x, Decision (P x)}
    (items : list A) :
  last_match P items = None ↔ ∀ x, x ∈ items → ¬ P x.
Proof.
  induction items as [|x items IH]; simpl.
  - split; [intros _ y Hy; inversion Hy | done].
  - destruct (last_match P items) as [y|].
    + split; [done|]. intros Hall. apply IH.
      intros z Hz. apply Hall. by right.
    + case_decide as HP.
      * split; [done|]. intros Hall. exfalso. apply (Hall x); [left | done].
      * split; [|done]. intros _ z [->|Hz]%elem_of_cons; [done|].
        by apply IH.
Qed.

Lemma last_match_Some {A : Type} (P : A → Prop) `{!∀ x, Decision (P x)}
    (items : list A) (y : A) :
  last_match P items = Some y →
  ∃ i, items !! i = Some y ∧ P y ∧
       ∀ j z, items !! j = Some z → P z → (j ≤ i)%nat.
Proof.
  revert y. induction items as [|x items IH]; intros y; simpl; [done|].
  destruct (last_match P items) as [y'|] eqn:Hlast.
  - intros [= <-]. destruct (IH y' eq_refl) as (i & Hi & HP & Hmax).
    exists (S i). split; [done|]. split; [done|].
    intros [|j] z Hj Hz; [lia|]. specialize (Hmax j z Hj Hz). lia.
  - case_decide as HP; [|done]. intros [= <-].
    exists O. split; [done|]. split; [done|].
    intros [|j] z Hj Hz; [lia|]. exfalso.
    apply (proj1 (last_match_None P items) Hlast z); [|done].
    by eapply list_elem_of_lookup_2.
Qed.
Lemma composition_loop_lookup (excl : gset Z) (items : list (Z * list Z))
    (acc : gmap (list Z) Z) (s : list Z) :
  foldl (λ composition item,
           if decide (item.1 ∈ excl) then composition
           else <[item.2 := item.1]> composition) acc items !! s
  = match last_match (λ item, item.2 = s ∧ item.1 ∉ excl) items with
    | Some item => Some item.1
    | None => acc !! s
    end.
Proof.
  revert acc. induction items as [|[c ds] items IH]; intros acc;
    cbn [foldl last_match]; [done|].
  rewrite IH. destruct (last_match _ items) as [y|]; [done|]. simpl.
  destruct (decide (c ∈ excl)) as [Hin|Hnin].
  - rewrite decide_False; [done|]. by intros [_ ?].
  - destruct (decide (ds = s)) as [->|Hne].
    + rewrite decide_True by done. by rewrite lookup_insert_eq.
    + rewrite decide_False by (by intros [? _]). by rewrite lookup_insert_ne.
Qed.

Lemma listed_exclusions (exclusions : list code_field) (excl : gset Z) (x : Z) :
  x ∈ foldl boolean_ucd_record excl exclusions ↔
  x ∈ excl ∨ ∃ field, field ∈ exclusions ∧ x ∈ hexrange field.
Proof.
  revert excl. induction exclusions as [|f exclusions IH]; intros excl; simpl.
  - split; [by left|]. intros [?|(f & Hf & _)]; [done | inversion Hf].
  - rewrite IH. unfold boolean_ucd_record.
    rewrite elem_of_union, elem_of_list_to_set. split.
    + intros [[?|?]|(f' & ? & ?)]; [by left | right; exists f | right; exists f'];
        (split; [by constructor | done]).
    + intros [?|(f' & [->|?]%elem_of_cons & ?)]; [by left; left | by left; right|].
      right. eauto.
Qed.

(** The decomposition stage does not fail after a successful pass over
    [UnicodeData.txt], and its exclusion set is the one of the pass, the
    listed exclusions, and the codes of [canonical] that meet a side
    condition. *)
Lemma derive_spec (records : list ud_fields) (exclusions : list code_field)
    (st : ucd) :
  process_records records ucd_init = Some st →
  ∃ tables,
    derive st exclusions = Some tables ∧
    dt_composition tables = composition_loop (dt_exclusion tables) (canonical st) ∧
    ∀ c, c ∈ dt_exclusion tables ↔
         c ∈ composition_exclusion st ∨
         (∃ field, field ∈ exclusions ∧ c ∈ hexrange field) ∨
         ∃ ds, PyDict.get (canonical st) c = Some ds ∧
               side_condition (combining_class st) c ds.
Proof.
  intros Hrun. destruct (canonical_ok_run _ _ _ Hrun canonical_ok_init) as [Hnd Hok].
  unfold derive.
  destruct (exclusion_loop_spec (combining_class st) (canonical st)
              (foldl boolean_ucd_record (composition_exclusion st) exclusions))
    as (excl & -> & Hexcl).
  { intros c ds Hin%pydict_get_elem; [|done].
    destruct (Hok c ds Hin) as (? & ? & _). done. }
  eexists. split; [done|]. split; [done|]. simpl. intros c.
  rewrite Hexcl, listed_exclusions. split.
  - intros [[?|?]|(ds & Hin%pydict_get_elem & ?)]; eauto.
  - intros [?|[?|(ds & Hin & ?)]]; [by left; left | by left; right|].
    right. exists ds. split; [by apply pydict_get_elem | done].
Qed.

(** C7, as amended.  The exclusion set contains the listed exclusions,
    every code whose canonical decomposition has one character, and every
    code with a canonical decomposition whose own combining class is not
    zero or whose decomposition starts with a character of non-zero
    combining class; nothing excluded by the pass is removed.  A code
    without a canonical decomposition is excluded only when listed. *)
Theorem composition_exclusion_superset (records : list ud_fields)
    (exclusions : list code_field) (st : ucd) :
  process_records records ucd_init = Some st →
  ∃ tables,
    derive st exclusions = Some tables ∧
    (∀ field c, field ∈ exclusions → c ∈ hexrange field →
                c ∈ dt_exclusion tables) ∧
    (∀ c ds, PyDict.get (canonical st) c = Some ds → length ds = 1%nat →
             c ∈ dt_exclusion tables) ∧
    (∀ c ds, PyDict.get (canonical st) c = Some ds →
             side_condition (combining_class st) c ds →
             c ∈ dt_exclusion tables) ∧
    composition_exclusion st ⊆ dt_exclusion tables ∧
    (∀ c, PyDict.get (canonical st) c = None →
          c ∈ dt_exclusion tables ↔
          ∃ field, field ∈ exclusions ∧ c ∈ hexrange field).
Proof.
  intros Hrun. destruct (derive_spec records exclusions st Hrun)
    as (tables & Hderive & _ & Hexcl).
  destruct (canonical_ok_run _ _ _ Hrun canonical_ok_init) as [Hnd Hok].
  assert (Hpass : ∀ c, c ∈ composition_exclusion st →
            is_Some (PyDict.get (canonical st) c)).
  { clear -Hrun. revert Hrun.
    assert (Hgen : ∀ st0, process_records records st0 = Some st →
              (∀ c, c ∈ composition_exclusion st0 →
                    is_Some (PyDict.get (canonical st0) c)) →
              ∀ c, c ∈ composition_exclusion st →
                   is_Some (PyDict.get (canonical st) c)).
    { induction records as [|r records IH]; intros st0 Hrun H0; simpl in Hrun.
      - by injection Hrun as <-.
      - destruct (unicode_data_record r st0) as [st1|] eqn:Hrec; [|done].
        simpl in Hrun. apply (IH st1 Hrun).
        apply unicode_data_record_Some in Hrec as (_ & _ & Hcan & Hex & _).
        intros c. rewrite Hcan, Hex.
        destruct (ud_decomp r) as [|d0 ds|]; [by apply H0 | | by apply H0].
        rewrite pydict_get_set.
        destruct (decide (c = ud_code r)) as [->|Hne]; [by eauto|].
        destruct ds; [|by apply H0].
        intros [?%elem_of_singleton|?]%elem_of_union; [done | by apply H0]. }
    intros Hrun. apply (Hgen ucd_init Hrun). intros c Hc. inversion Hc. }
  exists tables. split; [done|]. split; [|split; [|split; [|split]]].
  - intros field c Hf Hc. apply Hexcl. right. left. eauto.
  - intros c ds Hc Hlen. apply Hexcl. left. by apply (Hok c ds Hc).
  - intros c ds Hc Hside. apply Hexcl. right. right. eauto.
  - intros c Hc. apply Hexcl. by left.
  - intros c Hnone. rewrite Hexcl. split; [|by intros ?; right; left].
    intros [Hc|[?|(ds & Hds & _)]]; [|done|congruence].
    apply Hpass in Hc as [ds Hds]. congruence.
Qed.

(** C8, as amended.  The composition table maps a sequence only to a code
    that is not excluded and decomposes canonically to it, and has an entry
    for the decomposition of every such code; among several such codes the
    one whose key is last in the insertion order of [canonical] is kept;
    when the records are read in ascending code order that is the greatest
    of them. *)
Theorem composition_last_write_wins (records : list ud_fields)
    (exclusions : list code_field) (st : ucd) (tables : decomposition_tables) :
  process_records records ucd_init = Some st →
  derive st exclusions = Some tables →
  (∀ s c, dt_composition tables !! s = Some c →
          PyDict.get (canonical st) c = Some s ∧ c ∉ dt_exclusion tables) ∧
  (∀ c s, PyDict.get (canonical st) c = Some s → c ∉ dt_exclusion tables →
          is_Some (dt_composition tables !! s)) ∧
  (∀ s c, dt_composition tables !! s = Some c →
          ∃ i, PyDict.keys (canonical st) !! i = Some c ∧
               ∀ j c', PyDict.keys (canonical st) !! j = Some c' →
                       PyDict.get (canonical st) c' = Some s →
                       c' ∉ dt_exclusion tables → (j ≤ i)%nat) ∧
  (StronglySorted Z.le (ud_code <$> records) →
   ∀ s c c', dt_composition tables !! s = Some c →
             PyDict.get (canonical st) c' = Some s →
             c' ∉ dt_exclusion tables → c' ≤ c).
Proof.
  intros Hrun Hderive.
  destruct (derive_spec records exclusions st Hrun) as (tables' & Hd & Hcomp & _).
  rewrite Hderive in Hd. injection Hd as <-.
  destruct (canonical_ok_run _ _ _ Hrun canonical_ok_init) as [Hnd _].
  set (excl := dt_exclusion tables) in *.
  assert (Hlook : ∀ s c, dt_composition tables !! s = Some c ↔
            last_match (λ item : Z * list Z, item.2 = s ∧ item.1 ∉ excl)
              (canonical st) = Some (c, s)).
  { intros s c. rewrite Hcomp. unfold composition_loop.
    rewrite composition_loop_lookup, lookup_empty.
    destruct (last_match _ _) as [[c' s']|] eqn:Hlast; [|done].
    apply last_match_Some in Hlast as (_ & _ & [Hs _] & _). simpl in Hs.
    subst s'. simpl. split; [by intros [= ->] | by intros [= ->]]. }
  assert (Hlast : ∀ s c, dt_composition tables !! s = Some c →
            ∃ i, PyDict.keys (canonical st) !! i = Some c ∧
                 ∀ j c', PyDict.keys (canonical st) !! j = Some c' →
                         PyDict.get (canonical st) c' = Some s →
                         c' ∉ excl → (j ≤ i)%nat).
  { intros s c (i & Hi & _ & Hmax)%Hlook%last_match_Some. exists i.
    split; [unfold PyDict.keys; by rewrite list_lookup_fmap, Hi|].
    intros j c' Hj Hc' Hex. unfold PyDict.keys in Hj.
    apply list_lookup_fmap_Some in Hj as ([c'' s'] & -> & Hitem). simpl in *.
    assert (s' = s) as ->.
    { apply list_elem_of_lookup_2, pydict_get_elem in Hitem; [|done]. congruence. }
    by apply (Hmax j (c'', s) Hitem). }
  split; [|split; [|split; [done|]]].
  - intros s c (i & Hi & [_ Hex] & _)%Hlook%last_match_Some.
    split; [|done]. apply pydict_get_elem; [done|].
    by eapply list_elem_of_lookup_2.
  - intros c s Hc%pydict_get_elem Hex; [|done].
    destruct (last_match (λ item : Z * list Z, item.2 = s ∧ item.1 ∉ excl)
                (canonical st)) as [[c' s']|] eqn:Hl.
    + exists c'. apply Hlook. rewrite Hl.
      apply last_match_Some in Hl as (_ & _ & [Hs _] & _). simpl in Hs. by subst.
    + exfalso. by apply (proj1 (last_match_None _ _) Hl (c, s)).
  - intros Hsorted s c c' Hc Hc' Hex.
    assert (Hkeys : StronglySorted Z.lt (PyDict.keys (canonical st))).
    { apply (canonical_sorted_run records ucd_init st Hrun Hsorted);
        [constructor|]. intros k r Hk. inversion Hk. }
    destruct (Hlast s c Hc) as (i & Hi & Hmax).
    assert (Hin : c' ∈ PyDict.keys (canonical st)) by (apply pydict_get_keys; eauto).
    apply list_elem_of_lookup in Hin as [j Hj].
    specialize (Hmax j c' Hj Hc' Hex).
    destruct (decide (j = i)) as [->|Hne]; [rewrite Hi in Hj; injection Hj; lia|].
    pose proof (sorted_lookup_lt _ j i c' c Hkeys Hj Hi). lia.
Qed.
End decomposition_facts.

(** ** Decomposition scenarios *)

Definition ud_record (code ccc : Z) (decomp : UnicodeData.decomposition)
    : UnicodeData.ud_fields :=
  {| UnicodeData.ud_code := code; UnicodeData.ud_name := EmptyString;
     UnicodeData.ud_category := "Xx"; UnicodeData.ud_ccc := ccc;
     UnicodeData.ud_bidi := "L"; UnicodeData.ud_decomp := decomp;
     UnicodeData.ud_mirrored := "N";
     UnicodeData.ud_upper := None; UnicodeData.ud_lower := None;
     UnicodeData.ud_title := None |}.

(** U+00C0 decomposes to U+0041 U+0300; U+0300 is a combining mark without a
    decomposition; U+0344 is a combining mark with one; U+212B decomposes to
    the single character U+00C5. *)
Definition example_decompositions : list UnicodeData.ud_fields :=
  [ ud_record 0xC0 0 (UnicodeData.Canonical 0x41 [0x300]);
    ud_record 0x300 230 UnicodeData.NoDecomposition;
    ud_record 0x344 230 (UnicodeData.Canonical 0x308 [0x301]);
    ud_record 0x212B 0 (UnicodeData.Canonical 0xC5 []) ].

Lemma example_decompositions_processed :
  is_Some (UnicodeData.process_records example_decompositions UnicodeData.ucd_init).
Proof. vm_compute. eauto. Qed.

Example example_decompositions_derived :
  (λ st, (λ t, (Charmap.sorted (elements (Decomposition.dt_exclusion t)),
                map_to_list (Decomposition.dt_composition t)))
           <$> Decomposition.derive st [Decomposition.CodeRange 0x958 0x959])
    <$> UnicodeData.process_records example_decompositions UnicodeData.ucd_init
  = Some (Some ([0x344; 0x958; 0x959; 0x212B], [([0x41; 0x300], 0xC0)])).
Proof. vm_compute. reflexivity. Qed.

Lemma composition_exclusion_superset_witness :
  ∃ st,
    UnicodeData.process_records example_decompositions UnicodeData.ucd_init = Some st ∧
    ∃ tables,
      Decomposition.derive st [Decomposition.CodeRange 0x958 0x959] = Some tables ∧
      ∀ c ds, PyDict.get (UnicodeData.canonical st) c = Some ds →
              length ds = 1%nat → c ∈ Decomposition.dt_exclusion tables.
Proof.
  destruct example_decompositions_processed as [st Hst]. exists st.
  split; [exact Hst|].
  destruct (composition_exclusion_superset example_decompositions
              [Decomposition.CodeRange 0x958 0x959] st Hst)
    as (tables & Hderive & _ & Hone & _).
  exists tables. split; [exact Hderive | exact Hone].
Defined.

(** C7 as stated fails: U+0300 has combining class 230 and no canonical
    decomposition, and is not in the exclusion set. *)
Lemma combining_mark_counterexample :
  ∃ st tables,
    UnicodeData.process_records
      [ud_record 0x300 230 UnicodeData.NoDecomposition] UnicodeData.ucd_init
    = Some st ∧
    Decomposition.derive st [] = Some tables ∧
    UnicodeData.combining_class st !! 0x300 = Some 230 ∧
    0x300 ∉ Decomposition.dt_exclusion tables.
Proof.
  eexists _, _. split; [vm_compute; reflexivity|].
  split; [vm_compute; reflexivity|]. split; [vm_compute; reflexivity|].
  intros Hin. vm_compute in Hin. discriminate Hin.
Qed.

(** Two codes with the same canonical decomposition, in ascending order of
    code and in descending order. *)
Definition ascending_duplicates : list UnicodeData.ud_fields :=
  [ ud_record 0x1000 0 (UnicodeData.Canonical 0x3C [0x338]);
    ud_record 0x226E 0 (UnicodeData.Canonical 0x3C [0x338]) ].

Definition descending_duplicates : list UnicodeData.ud_fields :=
  [ ud_record 0x226E 0 (UnicodeData.Canonical 0x3C [0x338]);
    ud_record 0x1000 0 (UnicodeData.Canonical 0x3C [0x338]) ].

Lemma ascending_duplicates_sorted :
  StronglySorted Z.le (UnicodeData.ud_code <$> ascending_duplicates).
Proof. repeat constructor. simpl. lia. Qed.

Lemma composition_last_write_wins_witness :
  ∃ st tables,
    UnicodeData.process_records ascending_duplicates UnicodeData.ucd_init = Some st ∧
    Decomposition.derive st [] = Some tables ∧
    StronglySorted Z.le (UnicodeData.ud_code <$> ascending_duplicates) ∧
    ∀ s c c', Decomposition.dt_composition tables !! s = Some c →
              PyDict.get (UnicodeData.canonical st) c' = Some s →
              c' ∉ Decomposition.dt_exclusion tables → c' ≤ c.
Proof.
  assert (Hrun : ∃ st tables,
            UnicodeData.process_records ascending_duplicates UnicodeData.ucd_init
            = Some st ∧ Decomposition.derive st [] = Some tables).
  { eexists _, _. split; vm_compute; reflexivity. }
  destruct Hrun as (st & tables & Hst & Htables). exists st, tables.
  split; [exact Hst|]. split; [exact Htables|].
  split; [exact ascending_duplicates_sorted|].
  exact (proj2 (proj2 (proj2
    (composition_last_write_wins ascending_duplicates [] st tables Hst Htables)))
    ascending_duplicates_sorted).
Defined.

Example ascending_duplicates_composition :
  (λ st, (λ t, map_to_list (Decomposition.dt_composition t))
           <$> Decomposition.derive st [])
    <$> UnicodeData.process_records ascending_duplicates UnicodeData.ucd_init
  = Some (Some [([0x3C; 0x338], 0x226E)]).
Proof. vm_compute. reflexivity. Qed.

(** C8 as stated fails: when U+226E is read before U+1000, the sequence maps
    to U+1000, the code inserted last, and not to the greater U+226E. *)
Lemma composition_order_counterexample :
  ∃ st tables,
    UnicodeData.process_records descending_duplicates UnicodeData.ucd_init = Some st ∧
    Decomposition.derive st [] = Some tables ∧
    PyDict.get (UnicodeData.canonical st) 0x226E = Some [0x3C; 0x338] ∧
    PyDict.get (UnicodeData.canonical st) 0x1000 = Some [0x3C; 0x338] ∧
    (0x226E ∉ Decomposition.dt_exclusion tables) ∧
    (0x1000 ∉ Decomposition.dt_exclusion tables) ∧
    Decomposition.dt_composition tables !! [0x3C; 0x338] = Some 0x1000 ∧
    0x1000 < 0x226E.
Proof.
  eexists _, _. split; [vm_compute; reflexivity|].
  split; [vm_compute; reflexivity|]. split; [vm_compute; reflexivity|].
  split; [vm_compute; reflexivity|].
  split; [intros Hin; vm_compute in Hin; discriminate Hin|].
  split; [intros Hin; vm_compute in Hin; discriminate Hin|].
  split; [vm_compute; reflexivity | lia].
Qed.

(** * Properties of the name blob *)

Section names_facts.
Import Str Charmap ProcessFile Names.

Lemma chars_app (s1 s2 : string) : chars (s1 +:+ s2) = chars s1 ++ chars s2.
Proof. unfold chars. induction s1 as [|c s1 IH]; simpl; [done | by rewrite IH]. Qed.

Lemma chars_inj (s1 s2 : string) : chars s1 = chars s2 → s1 = s2.
Proof.
  unfold chars. intros Heq.
  by rewrite <- (string_of_list_ascii_of_string s1), Heq,
    string_of_list_ascii_of_string.
Qed.

Lemma string_of_chars (s : string) : string_of_list_ascii (chars s) = s.
Proof. apply string_of_list_ascii_of_string. Qed.

(** ** Hexadecimal codes *)

(** The characters that [format_hex] writes. *)
Definition hex_char (c : ascii) : Prop := c ∈ chars "-0123456789abcdef".

Lemma hex_uint_chars (d : Hexadecimal.uint) :
  Forall hex_char (chars (NilEmpty.string_of_uint d)).
Proof.
  unfold hex_char, chars.
  induction d; simpl; constructor; try done;
    simpl; repeat (first [by left | right]).
Qed.

Lemma format_hex_chars (z : Z) : Forall hex_char (chars (format_hex z)).
Proof.
  unfold format_hex.
  assert (Hu : ∀ d, Forall hex_char (chars (NilZero.string_of_uint d))).
  { intros d. destruct d; try apply hex_uint_chars.
    unfold hex_char, chars. simpl. constructor; [|done].
    simpl. repeat (first [by left | right]). }
  destruct (Z.to_hex_int z) as [d|d]; simpl; [apply Hu|].
  constructor; [|apply Hu]. unfold hex_char, chars. simpl. by left.
Qed.

Lemma hex_char_facts (c : ascii) :
  hex_char c → c ≠ ";"%char ∧ (N_of_ascii c < 128)%N.
Proof.
  unfold hex_char, chars. simpl. rewrite !elem_of_cons, elem_of_nil.
  intros H. repeat (destruct H as [->|H]; [by split|]). done.
Qed.

Lemma parse_hex_format_hex (z : Z) : parse_hex (format_hex z) = Some z.
Proof.
  unfold parse_hex, format_hex. rewrite NilZero.isi.
  - simpl. by rewrite HexadecimalZ.of_to.
  - destruct z; simpl; [done| |done]. intros [= Hnil].
    by apply HexadecimalPos.Unsigned.to_uint_nonnil in Hnil.
  - destruct z; simpl; [done|done|]. intros [= Hnil].
    by apply HexadecimalPos.Unsigned.to_uint_nonnil in Hnil.
Qed.

(** ** The grammar of the blob *)

Lemma terminated_fields_field (f rest : list ascii) :
  ";"%char ∉ f →
  terminated_fields (f ++ ";"%char :: rest) = f :: terminated_fields rest.
Proof.
  induction f as [|c f IH]; intros Hf; cbn [app terminated_fields].
  - by rewrite decide_True.
  - rewrite decide_False by (intros ->; apply Hf; left).
    rewrite IH; [done|]. intros Hin. apply Hf. by right.
Qed.

Lemma chars_name_record (code : Z) (name : string) (rest : list ascii) :
  chars (name_record code name) ++ rest =
  chars (format_hex code) ++ ";"%char :: chars name ++ ";"%char :: rest.
Proof.
  unfold name_record. rewrite !chars_app, <- !app_assoc. done.
Qed.

Lemma pair_up_blob_text (items : list (Z * string)) :
  (∀ item, item ∈ items → ";"%char ∉ chars item.2) →
  pair_up (terminated_fields (chars (blob_text items)))
  = (λ item, (format_hex item.1, item.2)) <$> items.
Proof.
  induction items as [|[c n] items IH]; intros Hok; [done|].
  cbn [blob_text foldr]. rewrite chars_app, chars_name_record.
  rewrite terminated_fields_field.
  2:{ intros Hin. pose proof (format_hex_chars c) as Hhex.
      rewrite Forall_forall in Hhex.
      by apply Hhex, hex_char_facts in Hin as [Hne _]. }
  rewrite terminated_fields_field by (apply (Hok (c, n)); left).
  cbn [pair_up]. rewrite !string_of_chars, fmap_cons. f_equal.
  apply IH. intros item Hin. apply Hok. by right.
Qed.

(** ** The loop that builds [names_list] *)

(** The named codepoints among [keys], in the order of [keys]. *)
Definition items_of (character_names : gmap Z string) (keys : list Z)
    : list (Z * string) :=
  omap (λ code, name ← character_names !! code; Some (code, name)) keys.

Lemma names_loop (character_names : gmap Z string) (keys : list Z)
    (acc : string) :
  foldl (λ names_list code,
           match character_names !! code with
           | Some name => names_list +:+ name_record code name
           | None => names_list
           end) acc keys
  = acc +:+ blob_text (items_of character_names keys).
Proof.
  revert acc. induction keys as [|k keys IH]; intros acc; cbn [foldl].
  - apply chars_inj. rewrite chars_app. simpl. by rewrite app_nil_r.
  - rewrite IH. unfold items_of. cbn [omap list_omap].
    destruct (character_names !! k) as [name|]; simpl; [|done].
    apply chars_inj. by rewrite !chars_app, app_assoc.
Qed.

Lemma items_of_elem (character_names : gmap Z string) (keys : list Z)
    (c : Z) (name : string) :
  (c, name) ∈ items_of character_names keys ↔
  c ∈ keys ∧ character_names !! c = Some name.
Proof.
  unfold items_of. rewrite list_elem_of_omap. split.
  - intros (k & Hk & Hn). destruct (character_names !! k) eqn:Hlk; [|done].
    simpl in Hn. injection Hn as <- <-. done.
  - intros [Hk Hn]. exists c. split; [done|]. by rewrite Hn.
Qed.

Lemma items_of_keys (character_names : gmap Z string) (keys : list Z) :
  (∀ k, k ∈ keys → is_Some (character_names !! k)) →
  (items_of character_names keys).*1 = keys.
Proof.
  unfold items_of. induction keys as [|k keys IH]; intros Hall; [done|].
  cbn [omap list_omap]. destruct (Hall k ltac:(left)) as [n ->]. simpl.
  f_equal. apply IH. intros k' Hk'. apply Hall. by right.
Qed.

Lemma find_name_items (character_names : gmap Z string) (keys : list Z) (c : Z) :
  find_name ((λ item, (format_hex item.1, item.2))
               <$> items_of character_names keys) c
  = if decide (c ∈ keys) then character_names !! c else None.
Proof.
  unfold items_of. induction keys as [|k keys IH]; [done|].
  cbn [omap list_omap].
  destruct (character_names !! k) as [n|] eqn:Hk; cbn [mbind option_bind].
  - rewrite fmap_cons. cbn [find_name fst snd].
    rewrite parse_hex_format_hex. destruct (decide (k = c)) as [->|Hne].
    + rewrite decide_True by done. by rewrite decide_True by left.
    + rewrite decide_False by congruence. rewrite IH.
      destruct (decide (c ∈ keys)) as [Hin|Hnin].
      * by rewrite decide_True by (by right).
      * rewrite decide_False; [done|]. intros [?|?]%elem_of_cons; done.
  - rewrite IH. destruct (decide (c ∈ keys)) as [Hin|Hnin].
    + by rewrite decide_True by (by right).
    + destruct (decide (c ∈ k :: keys)) as [[->|?]%elem_of_cons|]; done.
Qed.

(** The named codepoints in ascending order of code. *)
Definition sorted_items (character_names : gmap Z string) : list (Z * string) :=
  items_of character_names (sorted (map_to_list character_names).*1).

Lemma names_list_blob_text (character_names : gmap Z string) :
  names_list character_names = blob_text (sorted_items character_names).
Proof. unfold names_list. by rewrite names_loop. Qed.

Lemma sorted_items_spec (character_names : gmap Z string) :
  StronglySorted Z.lt (sorted_items character_names).*1 ∧
  ∀ c name, (c, name) ∈ sorted_items character_names ↔
            character_names !! c = Some name.
Proof.
  unfold sorted_items. split.
  - rewrite items_of_keys.
    + apply sorted_strict, NoDup_fst_map_to_list.
    + intros k Hk. by apply (proj1 (sorted_elem _ _)), map_keys_elem in Hk.
  - intros c name. rewrite items_of_elem, sorted_elem, map_keys_elem.
    split; [by intros [_ ?] | eauto].
Qed.

Lemma encode_ascii_Some (s : string) :
  Forall (λ c, (N_of_ascii c < 128)%N) (chars s) →
  encode_ascii s = Some (list_byte_of_string s).
Proof.
  intros Hall. unfold encode_ascii.
  assert (Hb : forallb (λ c, bool_decide (N_of_ascii c < 128)%N) (chars s) = true).
  { apply forallb_forall. intros c Hc%list_elem_of_In.
    rewrite Forall_forall in Hall. by apply bool_decide_eq_true_2, Hall. }
  by rewrite Hb.
Qed.

Lemma blob_text_ascii (items : list (Z * string)) :
  (∀ item, item ∈ items → Forall (λ c, (N_of_ascii c < 128)%N) (chars item.2)) →
  Forall (λ c, (N_of_ascii c < 128)%N) (chars (blob_text items)).
Proof.
  induction items as [|[c n] items IH]; intros Hok; [constructor|].
  cbn [blob_text foldr]. rewrite chars_app, chars_name_record.
  apply Forall_app. split.
  { pose proof (format_hex_chars c) as Hhex. rewrite Forall_forall in Hhex |- *.
    intros ch Hch%Hhex. by apply hex_char_facts in Hch as [_ ?]. }
  constructor; [done|]. apply Forall_app. split; [apply (Hok (c, n)); left|].
  constructor; [done|]. apply IH. intros item Hin. apply Hok. by right.
Qed.
(** ** The fields that [process_file] hands to a callback *)

Lemma chars_of_list (l : list ascii) : chars (string_of_list_ascii l) = l.
Proof. apply list_ascii_of_string_of_list_ascii. Qed.

Lemma split_chars_no_sep (sep : ascii) (l f : list ascii) :
  f ∈ split_chars sep l → sep ∉ f.
Proof.
  revert f. induction l as [|c l IH]; intros f; cbn [split_chars].
  - intros ->%list_elem_of_singleton. by intros ?%elem_of_nil.
  - destruct (decide (c = sep)) as [->|Hne].
    + intros [->|Hin]%elem_of_cons; [by intros ?%elem_of_nil | by apply IH].
    + destruct (split_chars sep l) as [|f0 fs].
      * intros ->%list_elem_of_singleton.
        intros [?|?%elem_of_nil]%elem_of_cons; done.
      * intros [->|Hin]%elem_of_cons.
        -- intros [?|Hin]%elem_of_cons; [done|]. apply (IH f0); [left | done].
        -- apply IH. by right.
Qed.

Lemma lstrip_elem (l : list ascii) (x : ascii) : x ∈ lstrip l → x ∈ l.
Proof.
  induction l as [|c l IH]; simpl; [done|].
  destruct (is_space c); [|done]. intros Hx. right. by apply IH.
Qed.

Lemma strip_elem (s : string) (x : ascii) : x ∈ chars (strip s) → x ∈ chars s.
Proof.
  unfold strip. rewrite chars_of_list.
  intros Hx. apply (proj1 (elem_of_reverse _ _)), lstrip_elem in Hx.
  by apply (proj1 (elem_of_reverse _ _)), lstrip_elem in Hx.
Qed.

(** No field handed to a callback contains the delimiter. *)
Lemma process_line_fields (line : string) (minfields : nat) (delim : ascii)
    (fields : list string) (f : string) :
  process_line line minfields delim = Some fields →
  f ∈ fields → delim ∉ chars f.
Proof.
  unfold process_line. case_decide; [done|]. case_decide; [|done].
  intros [= <-] (f0 & -> & Hf0)%list_elem_of_fmap Hin.
  apply (subseteq_take minfields) in Hf0.
  apply strip_elem in Hin. unfold split in Hf0.
  apply list_elem_of_fmap in Hf0 as (l & -> & Hl).
  rewrite chars_of_list in Hin. by apply split_chars_no_sep in Hl.
Qed.

(** ** The overlay of corrected names *)

Lemma corrected_names_sound (aliases : list na_fields)
    (corrected : gmap Z string) (c : Z) (name : string) :
  foldl name_aliases_record corrected aliases !! c = Some name →
  corrected !! c = Some name ∨
  ∃ r, r ∈ aliases ∧ na_type r = "correction"%string ∧
       na_code r = c ∧ na_name r = name.
Proof.
  revert corrected. induction aliases as [|r aliases IH]; intros corrected;
    cbn [foldl]; [by left|].
  intros [Hc|(r' & Hin & ?)]%IH; [|right; exists r'; split; [by right | done]].
  unfold name_aliases_record in Hc. case_decide as Ht; [|by left].
  apply lookup_insert_Some in Hc as [[<- <-]|[_ ?]]; [|by left].
  right. exists r. split; [left | done].
Qed.

(** ** Round trip of the name blob *)

(** C6.  The name blob is the compressed concatenation, in ascending order
    of code, of the records [<hex-codepoint>;<name>;] of the named
    codepoints; decompressing it and reading that grammar gives back the
    name of every named codepoint and no name for any other; with the
    overlay, a named codepoint gets its corrected name when it has one and
    its own name otherwise.  The names are those of [UnicodeData.txt]:
    ASCII text without the field delimiter. *)
Theorem name_blob_roundtrip (compress decompress : list byte → list byte)
    (character_names : gmap Z string) (aliases : list na_fields) :
  (∀ data, decompress (compress data) = data) →
  (∀ c name, character_names !! c = Some name →
     (";"%char ∉ chars name) ∧
     Forall (λ ch, (N_of_ascii ch < 128)%N) (chars name)) →
  ∃ tables items,
    write_character_names compress character_names aliases = Some tables ∧
    string_of_list_byte (decompress (main_names_data tables)) = blob_text items ∧
    StronglySorted Z.lt items.*1 ∧
    (∀ c name, (c, name) ∈ items ↔ character_names !! c = Some name) ∧
    (∀ c, blob_name decompress tables c = character_names !! c) ∧
    (∀ c name corrected,
       character_names !! c = Some name →
       corrected_names tables !! c = Some corrected →
       character_name decompress tables c = Some corrected) ∧
    (∀ c name,
       character_names !! c = Some name →
       corrected_names tables !! c = None →
       character_name decompress tables c = Some name) ∧
    (∀ c, character_names !! c = None →
          character_name decompress tables c = None) ∧
    (∀ c corrected,
       corrected_names tables !! c = Some corrected →
       ∃ r, r ∈ aliases ∧ na_type r = "correction"%string ∧
            na_code r = c ∧ na_name r = corrected).
Proof.
  intros Hzlib Hnames.
  destruct (sorted_items_spec character_names) as [Hsorted Hitems].
  assert (Hok : ∀ item, item ∈ sorted_items character_names →
            (";"%char ∉ chars item.2) ∧
            Forall (λ ch, (N_of_ascii ch < 128)%N) (chars item.2)).
  { intros [c name] Hin%Hitems. by apply (Hnames c name). }
  assert (Henc : encode_ascii (names_list character_names)
                 = Some (list_byte_of_string (names_list character_names))).
  { apply encode_ascii_Some. rewrite names_list_blob_text.
    apply blob_text_ascii. intros item Hin. by apply Hok. }
  unfold write_character_names. rewrite Henc. cbn [mbind option_bind].
  eexists _, (sorted_items character_names). split; [done|].
  assert (Htext : string_of_list_byte (decompress (compress
                    (list_byte_of_string (names_list character_names))))
                  = blob_text (sorted_items character_names)).
  { by rewrite Hzlib, string_of_list_byte_of_string, names_list_blob_text. }
  assert (Hblob : ∀ c, blob_name decompress
            {| main_names_data :=
                 compress (list_byte_of_string (names_list character_names));
               main_names_compressed :=
                 length (compress (list_byte_of_string (names_list character_names)));
               main_names_expanded :=
                 length (list_byte_of_string (names_list character_names));
               corrected_names := foldl name_aliases_record ∅ aliases |} c
            = character_names !! c).
  { intros c. unfold blob_name. cbn [main_names_data]. rewrite Htext.
    rewrite pair_up_blob_text by (intros item Hin; by apply Hok).
    unfold sorted_items. rewrite find_name_items.
    case_decide as Hin; [done|]. symmetry. apply eq_None_not_Some.
    intros Hsome. apply Hin. by apply sorted_elem, map_keys_elem. }
  split; [done|]. split; [done|]. split; [done|]. split; [done|].
  unfold character_name. cbn [corrected_names].
  split; [|split; [|split]].
  - intros c name corrected Hc Hcorr. by rewrite Hblob, Hc; simpl; rewrite Hcorr.
  - intros c name Hc Hcorr. by rewrite Hblob, Hc; simpl; rewrite Hcorr.
  - intros c Hc. by rewrite Hblob, Hc.
  - intros c corrected Hcorr.
    apply corrected_names_sound in Hcorr as [Hcorr|?]; [|done].
    by rewrite lookup_empty in Hcorr.
Qed.
End names_facts.

(** ** A name blob *)

Definition example_names : gmap Z string :=
  <[0x1F600 := "GRINNING FACE"]> (<[0x41 := "LATIN CAPITAL LETTER A"]>
    (<[0x1A2 := "LATIN CAPITAL LETTER OI"]> ∅)).

Definition example_aliases : list Names.na_fields :=
  [ {| Names.na_code := 0x1A2; Names.na_name := "LATIN CAPITAL LETTER GHA";
       Names.na_type := "correction" |};
    {| Names.na_code := 0x41; Names.na_name := "A";
       Names.na_type := "abbreviation" |} ].

Example example_names_list :
  Names.names_list example_names
  = "41;LATIN CAPITAL LETTER A;1a2;LATIN CAPITAL LETTER OI;1f600;GRINNING FACE;"%string.
Proof. vm_compute. reflexivity. Qed.

(** A lossless coder to stand for zlib in the examples: the bytes in reverse
    order. *)
Lemma reverse_lossless (data : list byte) : reverse (reverse data) = data.
Proof. apply reverse_involutive. Qed.

Lemma example_names_wellformed (c : Z) (name : string) :
  example_names !! c = Some name →
  (";"%char ∉ ProcessFile.chars name) ∧
  Forall (λ ch, (N_of_ascii ch < 128)%N) (ProcessFile.chars name).
Proof.
  unfold example_names. intros Hc.
  repeat (apply lookup_insert_Some in Hc as [[_ <-]|[_ Hc]];
          [split; [apply (bool_decide_unpack _); by vm_compute
                  | apply (bool_decide_unpack _); by vm_compute]|]).
  by rewrite lookup_empty in Hc.
Qed.

Lemma name_blob_roundtrip_witness :
  (∀ data : list byte, reverse (reverse data) = data) ∧
  ∃ tables,
    Names.write_character_names reverse example_names example_aliases = Some tables ∧
    (∀ c, Names.blob_name reverse tables c = example_names !! c) ∧
    Names.character_name reverse tables 0x1A2 = Some "LATIN CAPITAL LETTER GHA"%string ∧
    Names.character_name reverse tables 0x41 = Some "LATIN CAPITAL LETTER A"%string.
Proof.
  split; [exact reverse_lossless|].
  destruct (name_blob_roundtrip reverse reverse example_names example_aliases
              reverse_lossless example_names_wellformed)
    as (tables & items & Hwrite & _ & _ & _ & Hblob & Hcorrected & Hplain & _).
  exists tables. split; [exact Hwrite|]. split; [exact Hblob|].
  assert (Hoverlay : Names.corrected_names tables
                     = <[0x1A2 := "LATIN CAPITAL LETTER GHA"%string]> ∅).
  { unfold Names.write_character_names in Hwrite.
    destruct (Names.encode_ascii _); [|discriminate Hwrite].
    injection Hwrite as <-. reflexivity. }
  split.
  - apply (Hcorrected 0x1A2 "LATIN CAPITAL LETTER OI"%string); [reflexivity|].
    rewrite Hoverlay. reflexivity.
  - apply (Hplain 0x41); [reflexivity|]. rewrite Hoverlay. reflexivity.
Defined.

Example example_process_line :
  ProcessFile.process_line
    "0041;LATIN CAPITAL LETTER A;Lu;0;L;;;;;N;;;;0061; # comment" 15 ";"
  = Some ["0041"; "LATIN CAPITAL LETTER A"; "Lu"; "0"; "L"; EmptyString;
          EmptyString; EmptyString; EmptyString; "N"; EmptyString; EmptyString;
          EmptyString; "0061"; EmptyString]%string.
Proof. vm_compute. reflexivity. Qed.

(** * Further properties of the sparse-table encoder *)

Section sparse_table_more.
Import SparseTable.
Context {V : Type} `{EqDecision V}.
Implicit Types (table : gmap Z V) (entries : list (Z * V)).

Lemma max_key_None table : max_key table = None ↔ table = ∅.
Proof.
  split.
  - intros Hnone. destruct (decide (table = ∅)) as [|Hne]; [done|].
    apply max_key_nonempty in Hne as [m Hm]. congruence.
  - intros ->. unfold max_key. by rewrite map_to_list_empty.
Qed.

(** X1.  [write_sparse_table] raises ([max] of an empty dictionary) exactly
    on an empty table, whatever the default value. *)
Theorem write_sparse_table_empty (zero : V) table (defval : option V) :
  write_sparse_table zero table defval = None ↔ table = ∅.
Proof.
  rewrite <- max_key_None. unfold write_sparse_table.
  destruct (max_key table); simpl; split; done.
Qed.

(** The entries written over [a .. a + len - 1]: the codepoints at which the
    value is not the one before. *)
Lemma write_loop_elem table d (len : nat) (a : Z) (lastv : option V) (k : Z) (v : V) :
  (k, v) ∈ write_loop table d (seqZ a (Z.of_nat len)) lastv ↔
  a ≤ k < a + Z.of_nat len ∧ v = table_get table k d ∧
  (if decide (k = a) then Some (table_get table k d) ≠ lastv
   else table_get table (k - 1) d ≠ table_get table k d).
Proof.
  revert a lastv. induction len as [|len IH]; intros a lastv.
  - rewrite seqZ_nil by lia. simpl. split; [by intros ?%elem_of_nil | lia].
  - rewrite seqZ_cons by lia.
    replace (Z.pred (Z.of_nat (S len))) with (Z.of_nat len) by lia.
    cbn [write_loop]. set (va := table_get table a d).
    assert (Hrest : (k, v) ∈ write_loop table d (seqZ (Z.succ a) (Z.of_nat len)) (Some va) ↔
              a < k < a + Z.of_nat (S len) ∧ v = table_get table k d ∧
              table_get table (k - 1) d ≠ table_get table k d).
    { rewrite IH. destruct (decide (k = Z.succ a)) as [->|Hne].
      - replace (Z.succ a - 1) with a by lia. fold va.
        split; [intros (? & ? & Hd) | intros (? & ? & Hd)];
          (split; [lia|]; split; [done|]); congruence.
      - split; intros (? & ? & ?); (split; [lia|]; done). }
    destruct (decide (Some va = lastv)) as [Heq|Hdiff].
    + rewrite Hrest. destruct (decide (k = a)) as [->|Hne].
      * fold va. split; [lia | by intros (_ & _ & ?)].
      * split; intros (? & ? & ?); (split; [lia|]; done).
    + rewrite elem_of_cons, Hrest. destruct (decide (k = a)) as [->|Hne].
      * fold va. split; [|intros (_ & -> & _); by left].
        intros [[= ->]|(? & _)]; [|lia]. split; [lia|]. done.
      * split; [intros [[= ? _]|(? & ? & ?)]; [done|] | intros (? & ? & ?); right];
          (split; [lia|]; done).
Qed.

Lemma write_loop_adjacent table d (ks : list Z) (i : nat) (k1 k2 : Z) (v1 v2 : V) :
  write_loop table d ks None !! i = Some (k1, v1) →
  write_loop table d ks None !! S i = Some (k2, v2) →
  v1 ≠ v2.
Proof.
  destruct ks as [|k ks]; [done|]. intros H1 H2.
  pose proof (write_loop_runs table d k ks None) as Hruns. cbv zeta in Hruns.
  rewrite decide_False in Hruns by done.
  assert (Hv : ∀ j kj vj, write_loop table d (k :: ks) None !! j = Some (kj, vj) →
            ∃ r, runs ((λ k, table_get table k d) <$> k :: ks) !! j = Some r ∧ r.1 = vj).
  { intros j kj vj Hj.
    assert (Hj2 : (write_loop table d (k :: ks) None).*2 !! j = Some vj)
      by (by rewrite list_lookup_fmap, Hj).
    rewrite Hruns in Hj2. apply list_lookup_fmap_Some in Hj2 as (r & -> & Hr). eauto. }
  destruct (Hv _ _ _ H1) as (r1 & Hr1 & <-), (Hv _ _ _ H2) as (r2 & Hr2 & <-).
  by eapply runs_maximal.
Qed.

(** X2.  The breakpoints written are exactly the change points of the
    scanned domain: codepoint 0, and every codepoint up to [max key + 1] whose
    value is not that of the codepoint before; each carries the value at its
    codepoint.  So the breakpoints increase strictly and two neighbouring
    entries never carry the same value. *)
Theorem sparse_table_breakpoints (zero : V) table (defval : option V)
    (m : Z) (number : nat) entries :
  max_key table = Some m →
  write_sparse_table zero table defval = Some (number, entries) →
  StronglySorted Z.lt entries.*1 ∧
  (∀ k v, (k, v) ∈ entries ↔
          0 ≤ k ≤ m + 1 ∧ v = table_get table k (default zero defval) ∧
          (k = 0 ∨ table_get table (k - 1) (default zero defval)
                   ≠ table_get table k (default zero defval))) ∧
  (∀ i k1 v1 k2 v2, entries !! i = Some (k1, v1) →
                    entries !! S i = Some (k2, v2) → v1 ≠ v2).
Proof.
  intros Hm Hw. rewrite (write_sparse_table_Some _ _ _ _ Hm) in Hw.
  injection Hw as _ <-. split; [apply write_loop_sorted, seqZ_sorted|]. split.
  - intros k v. destruct (decide (0 < m + 2)) as [Hpos|Hneg].
    + rewrite <- (Z2Nat.id (m + 2)) by lia. rewrite write_loop_elem.
      rewrite Z2Nat.id by lia. destruct (decide (k = 0)) as [->|Hne].
      * split; [intros (? & ? & _) | intros (? & ? & _)];
          (split; [lia|]; split; [done|]); [by left | done].
      * split; [intros (? & ? & ?) | intros (? & ? & [?|?])];
          (split; [lia|]; split; [done|]); [by right | done | done].
    + rewrite seqZ_nil by lia. simpl. split; [by intros ?%elem_of_nil | lia].
  - intros i k1 v1 k2 v2. apply write_loop_adjacent.
Qed.

Lemma find_le_pred (acc : option V) entries (k : Z) :
  k ∉ entries.*1 → find_le acc entries k = find_le acc entries (k - 1).
Proof.
  revert acc. induction entries as [|[k' v'] es IH]; intros acc Hk; [done|].
  cbn [find_le]. rewrite fmap_cons in Hk.
  assert (k' ≠ k) by (intros ->; apply Hk; left).
  assert (k ∉ es.*1) by (intros ?; apply Hk; by right).
  destruct (decide (k' ≤ k)), (decide (k' ≤ k - 1)); try lia; [|done].
  by apply IH.
Qed.

(** X3.  No sequence of breakpoints that answers every lookup over the scanned
    domain [0 .. max key + 1] from one of its entries (the value of the
    greatest breakpoint at or below the codepoint) is shorter than the one
    written. *)
Theorem sparse_table_minimal (zero : V) table (defval : option V)
    (m : Z) (number : nat) entries (other : list (Z * V)) :
  max_key table = Some m →
  write_sparse_table zero table defval = Some (number, entries) →
  (∀ c, 0 ≤ c ≤ m + 1 →
        find_le None other c = Some (table_get table c (default zero defval))) →
  (length entries ≤ length other)%nat.
Proof.
  intros Hm Hw Hother. set (d := default zero defval) in *.
  rewrite (write_sparse_table_Some _ _ _ _ Hm) in Hw. injection Hw as _ <-.
  destruct (decide (0 < m + 2)) as [Hpos|Hneg];
    [|rewrite seqZ_nil by lia; simpl; lia].
  assert (Hhead : ∃ k0 v0 rest, other = (k0, v0) :: rest ∧ k0 ≤ 0).
  { specialize (Hother 0 ltac:(lia)). destruct other as [|[k0 v0] rest]; [done|].
    exists k0, v0, rest. split; [done|]. cbn [find_le] in Hother.
    by destruct (decide (k0 ≤ 0)). }
  destruct Hhead as (k0 & v0 & rest & Hoth & Hk0).
  set (W := (write_loop table d (seqZ 0 (m + 2)) None).*1).
  set (g := λ k : Z, if decide (k ≤ 0) then k0 else k).
  assert (HW : ∀ k, k ∈ W → 0 ≤ k ≤ m + 1 ∧
            (k = 0 ∨ table_get table (k - 1) d ≠ table_get table k d)).
  { intros k ([k' v] & -> & Hin)%list_elem_of_fmap. simpl.
    rewrite <- (Z2Nat.id (m + 2)) in Hin by lia.
    apply write_loop_elem in Hin as (Hr & _ & Hc). rewrite Z2Nat.id in Hr by lia.
    split; [lia|]. destruct (decide (k' = 0)); [by left | by right]. }
  assert (Hsub : ∀ x, x ∈ g <$> W → x ∈ other.*1).
  { intros x (k & -> & Hk)%list_elem_of_fmap. destruct (HW k Hk) as [Hr Hc].
    unfold g. destruct (decide (k ≤ 0)) as [Hle|Hgt].
    - rewrite Hoth, fmap_cons. left.
    - destruct Hc as [->|Hc]; [lia|].
      destruct (decide (k ∈ other.*1)) as [|Hnin]; [done|]. exfalso.
      apply Hc. apply (inj Some).
      rewrite <- (Hother (k - 1)), <- (Hother k) by lia.
      symmetry. by apply find_le_pred. }
  assert (Hnd : NoDup (g <$> W)).
  { apply NoDup_fmap_2_strong.
    - intros x y Hx Hy. destruct (HW x Hx) as [? _], (HW y Hy) as [? _].
      unfold g. repeat case_decide; lia.
    - unfold W. assert (Hs := write_loop_sorted table d (seqZ 0 (m + 2)) None
                          (seqZ_sorted 0 (m + 2))).
      clear -Hs. induction Hs as [|x l Hs IH Hall]; constructor; [|done].
      rewrite Forall_forall in Hall. intros Hin. specialize (Hall x Hin). lia. }
  assert (Hlen : (length (g <$> W) ≤ length other.*1)%nat).
  { apply submseteq_length, NoDup_submseteq; done. }
  unfold W in Hlen. by rewrite !length_fmap in Hlen.
Qed.
End sparse_table_more.

Lemma sparse_table_breakpoints_witness :
  SparseTable.max_key example_table = Some 0x44 ∧
  SparseTable.write_sparse_table 0 example_table None
  = Some (4%nat, [(0, 0); (0x41, 1); (0x44, 2); (0x45, 0)]) ∧
  StronglySorted Z.lt [(0, 0); (0x41, 1); (0x44, 2); (0x45, 0)].*1.
Proof.
  assert (Hm : SparseTable.max_key example_table = Some 0x44)
    by (vm_compute; reflexivity).
  split; [exact Hm|]. split; [exact example_table_written|].
  exact (proj1 (sparse_table_breakpoints 0 example_table None 0x44 4
                  [(0, 0); (0x41, 1); (0x44, 2); (0x45, 0)]
                  Hm example_table_written)).
Defined.

Definition example_longer_table : list (Z * Z) :=
  [(0, 0); (0x41, 1); (0x44, 2); (0x45, 0); (0x50, 0)].

Lemma example_longer_table_answers (c : Z) :
  0 ≤ c ≤ 0x44 + 1 →
  SparseTable.find_le None example_longer_table c
  = Some (SparseTable.table_get example_table c (default 0 None)).
Proof.
  intros Hc.
  assert (Hall : Forall (λ c, SparseTable.find_le None example_longer_table c
                   = Some (SparseTable.table_get example_table c 0)) (seqZ 0 0x46)).
  { apply (bool_decide_unpack _). vm_compute. exact I. }
  rewrite Forall_forall in Hall. apply Hall, elem_of_seqZ. lia.
Qed.

Lemma sparse_table_minimal_witness :
  (∀ c, 0 ≤ c ≤ 0x44 + 1 →
        SparseTable.find_le None example_longer_table c
        = Some (SparseTable.table_get example_table c (default 0 None))) ∧
  (length [(0, 0); (0x41, 1); (0x44, 2); (0x45, 0)] ≤ length example_longer_table)%nat.
Proof.
  split; [exact example_longer_table_answers|].
  exact (sparse_table_minimal 0 example_table None 0x44 4
           [(0, 0); (0x41, 1); (0x44, 2); (0x45, 0)] example_longer_table
           ltac:(vm_compute; reflexivity) example_table_written
           example_longer_table_answers).
Defined.

(** * Further properties of the sparse-set encoder *)

Section sparse_set_more.
Import Charmap SparseSet.

Lemma scan_inv_foldl_from (p : list Z) :
  StronglySorted Z.lt p → head p ≠ Some (-98) →
  scan_inv p (foldl scan_step scan_init p).
Proof.
  induction p as [|c p IH] using rev_ind; intros Hs Hhead.
  - apply scan_inv_init.
  - rewrite foldl_snoc. apply scan_inv_step_from.
    + apply IH; [by eapply StronglySorted_app_1_l|].
      destruct p; [done | exact Hhead].
    + intros x Hx.
      apply (StronglySorted_app_1_elem_of Z.lt p [c] x c Hs Hx). by left.
    + intros -> ->. by apply Hhead.
Qed.

Lemma sorted_head_least (p : list Z) (a : Z) :
  StronglySorted Z.lt p → head p = Some a → ∀ x, x ∈ p → a ≤ x.
Proof.
  intros Hs Ha x Hx. destruct p as [|b q]; [done|]. injection Ha as ->.
  apply StronglySorted_inv in Hs as [_ Hall]. rewrite Forall_forall in Hall.
  apply elem_of_cons in Hx as [->|Hx]; [lia|]. specialize (Hall x Hx). lia.
Qed.

Lemma sorted_adjacent (l : list Z) (i : nat) (a b : Z) :
  StronglySorted Z.lt l → l !! i = Some a → l !! S i = Some b → a < b.
Proof.
  intros Hs. revert i. induction Hs as [|x l Hs IH Hall]; intros i Ha Hb; [done|].
  destruct i as [|i]; simpl in *.
  - injection Ha as ->. rewrite Forall_forall in Hall.
    apply Hall. by eapply list_elem_of_lookup_2.
  - by eapply IH.
Qed.

(** Keys of [subranges] are never removed by later iterations. *)
Lemma scan_keys_persist (codes : list Z) (st : scan_state) (k : Z) :
  is_Some (ss_subranges st !! k) →
  is_Some (ss_subranges (foldl scan_step st codes) !! k).
Proof.
  revert st. induction codes as [|c codes IH]; intros st Hk; [done|].
  simpl. apply IH. unfold scan_step. simpl.
  set (first := if decide (c ≠ ss_last st + 1) then c else ss_first st).
  destruct (decide (first = k)) as [->|Hne].
  - rewrite lookup_insert_eq. by eexists.
  - by rewrite lookup_insert_ne.
Qed.
(** The intervals collected by the loop of [write_sparse_set]. *)
Lemma scan_subranges_spec (table : gset Z) :
  (-98 ∈ table → ∃ x, x ∈ table ∧ x < -98) →
  let sub := ss_subranges (foldl scan_step scan_init (sorted (elements table))) in
  (∀ f l, sub !! f = Some l →
     f ≤ l ∧ (f - 1 ∉ table) ∧ (l + 1 ∉ table) ∧ ∀ x, f ≤ x ≤ l → x ∈ table) ∧
  (∀ x, x ∈ table → ∃ f l, sub !! f = Some l ∧ f ≤ x ≤ l).
Proof.
  intros Hleast. set (p := sorted (elements table)).
  assert (Hp : ∀ x, x ∈ p ↔ x ∈ table).
  { intros x. unfold p. by rewrite sorted_elem, elem_of_elements. }
  assert (Hs : StronglySorted Z.lt p) by apply sorted_strict, NoDup_elements.
  destruct (scan_inv_foldl_from p Hs) as [_ Hlast Hmax Hrange Hcover].
  { intros Hhead. destruct Hleast as (x & Hx & Hlt).
    - apply Hp. destruct p; [done|]. injection Hhead as ->. left.
    - apply Hp in Hx. pose proof (sorted_head_least p _ Hs Hhead x Hx). lia. }
  split; [|intros x Hx%Hp; by apply Hcover].
  intros f l Hfl. destruct (Hrange f l Hfl) as (Hle & Hsub & Hpred & Hsucc).
  assert (Hl : l ∈ p) by (apply Hsub; lia).
  split; [done|]. split; [by rewrite <- Hp|]. split; [|intros x Hx; by apply Hp, Hsub].
  rewrite <- Hp.
  destruct (decide (f = ss_first (foldl scan_step scan_init p))) as [->|Hf].
  - destruct Hlast as [_ Hcur]; [by intros Hnil; rewrite Hnil in Hl; inversion Hl|].
    rewrite Hcur in Hfl. injection Hfl as <-.
    intros Hx. specialize (Hmax _ Hx). lia.
  - by destruct (Hsucc Hf).
Qed.

(** X4.  [write_sparse_set] is right for any set of integers whose least
    member is not [-98], not only for codepoints: the intervals written cover
    exactly the members, none is empty, and between two neighbouring intervals
    lies at least one integer that is not a member. *)
Theorem sparse_set_intervals (table : gset Z) :
  (-98 ∈ table → ∃ x, x ∈ table ∧ x < -98) →
  ∃ entries,
    write_sparse_set table = Some entries ∧
    (∀ c, c ∈ table ↔ ∃ e, e ∈ entries ∧ covers e c) ∧
    (∀ e, e ∈ entries → ∃ l, e.2 = [l] ∧ e.1 ≤ l) ∧
    (∀ i e1 e2, entries !! i = Some e1 → entries !! S i = Some e2 →
       ∃ l1, e1.2 = [l1] ∧ l1 + 1 < e2.1).
Proof.
  intros Hleast. unfold write_sparse_set.
  destruct (scan_subranges_spec table Hleast) as [Hends Hcover].
  set (sub := ss_subranges (foldl scan_step scan_init (sorted (elements table)))) in *.
  destruct (write_charmap_single sub) as (entries & He & Hsorted & Hin).
  exists entries. split; [done|].
  split; [|split].
  - intros c. split.
    + intros (f & l & Hfl & Hc)%Hcover. exists (f, [l]).
      split; [apply Hin; eauto|]. exists l. done.
    + intros ([f fv] & (v & Hfl & ->)%Hin & (l & [= <-] & Hc)). simpl in Hc.
      by apply (Hends f v Hfl).
  - intros [f fv] (l & Hfl & ->)%Hin. exists l. simpl.
    by destruct (Hends f l Hfl) as (? & _).
  - intros i [f1 fv1] [f2 fv2] H1 H2.
    assert (Hlt : f1 < f2).
    { apply (sorted_adjacent entries.*1 i); [done| |];
        rewrite list_lookup_fmap; [by rewrite H1 | by rewrite H2]. }
    apply list_elem_of_lookup_2, Hin in H1 as (l1 & Hfl1 & ->).
    apply list_elem_of_lookup_2, Hin in H2 as (l2 & Hfl2 & ->).
    exists l1. split; [done|]. simpl.
    destruct (Hends f1 l1 Hfl1) as (_ & _ & Hsucc1 & Hall1).
    destruct (Hends f2 l2 Hfl2) as (Hle2 & Hpred2 & _ & Hall2).
    destruct (decide (l1 + 1 < f2)) as [|Hge]; [done|]. exfalso.
    destruct (decide (f2 = l1 + 1)) as [Heq|Hne].
    + apply Hsucc1. rewrite <- Heq. apply Hall2. lia.
    + apply Hpred2, Hall1. lia.
Qed.

(** X5.  The initial [first = last = -99] is taken for a member when the
    least member of the set is [-98]: the first interval written then starts
    at [-99], which is not in the set. *)
Theorem sparse_set_sentinel (table : gset Z) :
  -98 ∈ table → (∀ x, x ∈ table → -98 ≤ x) →
  ∃ entries l,
    write_sparse_set table = Some entries ∧
    (-99, [l]) ∈ entries ∧ -99 ∉ table.
Proof.
  intros Hin Hleast. unfold write_sparse_set.
  assert (Hs : StronglySorted Z.lt (sorted (elements table)))
    by apply sorted_strict, NoDup_elements.
  assert (Hp : ∀ x, x ∈ sorted (elements table) ↔ x ∈ table).
  { intros x. by rewrite sorted_elem, elem_of_elements. }
  destruct (sorted (elements table)) as [|a q] eqn:Hsorted.
  { apply Hp in Hin. inversion Hin. }
  assert (a = -98) as ->.
  { assert (-98 ≤ a) by (apply Hleast, Hp; left).
    assert (a ≤ -98) by (apply (sorted_head_least (a :: q) a Hs eq_refl), Hp, Hin).
    lia. }
  cbn [foldl].
  destruct (scan_keys_persist q (scan_step scan_init (-98)) (-99)) as [l Hl].
  { exists (-98). vm_compute. reflexivity. }
  destruct (write_charmap_single (ss_subranges (foldl scan_step (scan_step scan_init (-98)) q)))
    as (entries & He & _ & Hent).
  exists entries, l. split; [done|]. split; [apply Hent; eauto|].
  intros Hneg. specialize (Hleast _ Hneg). lia.
Qed.
End sparse_set_more.

Definition example_negative_set : gset Z := {[ -100; -99; -98; 5 ]}.

Lemma sparse_set_intervals_witness :
  (-98 ∈ example_negative_set → ∃ x, x ∈ example_negative_set ∧ x < -98) ∧
  ∃ entries,
    SparseSet.write_sparse_set example_negative_set = Some entries ∧
    (∀ c, c ∈ example_negative_set ↔ ∃ e, e ∈ entries ∧ SparseSet.covers e c) ∧
    (∀ e, e ∈ entries → ∃ l, e.2 = [l] ∧ e.1 ≤ l) ∧
    (∀ i e1 e2, entries !! i = Some e1 → entries !! S i = Some e2 →
       ∃ l1, e1.2 = [l1] ∧ l1 + 1 < e2.1).
Proof.
  assert (Hleast : -98 ∈ example_negative_set →
            ∃ x, x ∈ example_negative_set ∧ x < -98).
  { intros _. exists (-100). split; [|lia].
    unfold example_negative_set. rewrite !elem_of_union, !elem_of_singleton. tauto. }
  split; [exact Hleast|]. exact (sparse_set_intervals example_negative_set Hleast).
Defined.

Example example_negative_set_written :
  SparseSet.write_sparse_set example_negative_set = Some [(-100, [-98]); (5, [5])].
Proof. vm_compute. reflexivity. Qed.

Definition example_sentinel_set : gset Z := {[ -98; -97; 3 ]}.

Example example_sentinel_set_written :
  SparseSet.write_sparse_set example_sentinel_set = Some [(-99, [-97]); (3, [3])].
Proof. vm_compute. reflexivity. Qed.

Lemma sparse_set_sentinel_witness :
  -98 ∈ example_sentinel_set ∧ (∀ x, x ∈ example_sentinel_set → -98 ≤ x) ∧
  ∃ entries l,
    SparseSet.write_sparse_set example_sentinel_set = Some entries ∧
    (-99, [l]) ∈ entries ∧ -99 ∉ example_sentinel_set.
Proof.
  assert (Hin : -98 ∈ example_sentinel_set).
  { unfold example_sentinel_set. rewrite !elem_of_union, !elem_of_singleton. tauto. }
  assert (Hleast : ∀ x, x ∈ example_sentinel_set → -98 ≤ x).
  { intros x. unfold example_sentinel_set.
    rewrite !elem_of_union, !elem_of_singleton. lia. }
  split; [exact Hin|]. split; [exact Hleast|].
  exact (sparse_set_sentinel example_sentinel_set Hin Hleast).
Defined.

(** * Further properties of the explicit maps *)

Section charmap_more.
Import Charmap.

(** The characters of a field, and when [field_value] accepts it. *)
Definition field_chars (f : field) : list Z :=
  match f with Single c => [c] | Multiple cs => cs end.

Definition fits (f : field) (size : nat) : Prop :=
  match f with
  | Single _ => size = 1%nat
  | Multiple cs => (length cs ≤ size)%nat ∧ (size = 1%nat → cs ≠ [])
  end.

Lemma field_value_Some (f : field) (size : nat) (row : list Z) :
  field_value f size = Some row ↔
  fits f size ∧ row = field_chars f ++ replicate (size - length (field_chars f)) 0.
Proof.
  unfold field_value, fits. destruct (decide (size = 1%nat)) as [->|Hsize].
  - destruct f as [c|cs]; simpl.
    + split; [by intros [= <-] | by intros [_ ->]].
    + destruct (decide (1 < length cs)%nat) as [Hlong|Hshort].
      * split; [done | intros [[? _] _]; lia].
      * destruct cs as [|c [|c' cs]]; simpl in *; [| |lia].
        -- split; [done | by intros [[_ Hne] _]; destruct Hne].
        -- split; [by intros [= <-] | by intros [_ ->]].
  - destruct f as [c|cs]; simpl.
    + split; [done | by intros [? _]].
    + destruct (decide (size < length cs)%nat) as [Hlong|Hshort].
      * split; [done | intros [[? _] _]; lia].
      * split; [intros [= <-] | by intros [_ ->]]. split; [|done]. split; [lia|done].
Qed.

Lemma write_charmap_fits (table : gmap Z field) (valsize : nat) :
  is_Some (write_charmap table valsize) ↔
  ∀ k v, table !! k = Some v → fits v valsize.
Proof.
  split.
  - intros [entries He] k v Hkv.
    destruct (write_charmap_spec _ _ _ He) as (Hkeys & _ & Hin).
    assert (Hk : k ∈ entries.*1).
    { rewrite Hkeys. apply sorted_elem, map_keys_elem. eauto. }
    apply list_elem_of_fmap in Hk as ([k' row] & -> & Hrow). simpl in Hkv.
    apply Hin in Hrow as (v' & Hv' & Hfv). rewrite Hkv in Hv'. injection Hv' as <-.
    by apply field_value_Some in Hfv as [? _].
  - intros Hfits. apply write_charmap_is_Some. intros k v Hkv.
    eexists. apply field_value_Some. split; [by eapply Hfits | done].
Qed.

(** X6.  [write_charmap] raises exactly when some value does not fit the
    value size: more characters than [valsize], a scalar with [valsize] other
    than 1, or an empty tuple with [valsize = 1].  When it succeeds it writes
    one row per key, keys ascending, and every row has [valsize] columns: the
    characters of the value followed by zeros. *)
Theorem write_charmap_rows (table : gmap Z field) (valsize : nat) :
  (is_Some (write_charmap table valsize) ↔
   ∀ k v, table !! k = Some v → fits v valsize) ∧
  ∀ entries, write_charmap table valsize = Some entries →
    length entries = size table ∧
    StronglySorted Z.lt entries.*1 ∧
    ∀ k row, (k, row) ∈ entries →
      length row = valsize ∧
      ∃ v, table !! k = Some v ∧
           row = field_chars v ++ replicate (valsize - length (field_chars v)) 0.
Proof.
  split; [apply write_charmap_fits|].
  intros entries He. destruct (write_charmap_spec _ _ _ He) as (Hkeys & Hs & Hin).
  split; [|split; [done|]].
  - rewrite <- (length_fmap fst entries), Hkeys. unfold sorted.
    rewrite merge_sort_Permutation, length_fmap. apply length_map_to_list.
  - intros k row (v & Hv & Hfv)%Hin. apply field_value_Some in Hfv as [Hfit ->].
    split; [|eauto]. rewrite length_app, length_replicate.
    destruct v as [c|cs]; simpl in *; lia.
Qed.
End charmap_more.

(** * Further properties of the line reader *)

Section process_file_more.
Import Str ProcessFile.

Lemma lstrip_head (l l' : list ascii) (c : ascii) :
  lstrip l = c :: l' → is_space c = false.
Proof.
  induction l as [|x l IH]; simpl; [done|].
  destruct (is_space x) eqn:Hx; [done|]. by intros [= <- _].
Qed.

Lemma lstrip_id (l : list ascii) :
  (∀ c, head l = Some c → is_space c = false) → lstrip l = l.
Proof. destruct l as [|x l]; simpl; [done|]. intros Hx. by rewrite (Hx x). Qed.

Lemma lstrip_lstrip (l : list ascii) : lstrip (lstrip l) = lstrip l.
Proof.
  apply lstrip_id. intros c Hc. destruct (lstrip l) as [|x l'] eqn:Hl; [done|].
  injection Hc as ->. by eapply lstrip_head.
Qed.

Lemma lstrip_split (l : list ascii) :
  ∃ sp, l = sp ++ lstrip l ∧ Forall (λ c, is_space c = true) sp.
Proof.
  induction l as [|x l (sp & IH & Hsp)]; simpl; [by exists []|].
  destruct (is_space x) eqn:Hx.
  - exists (x :: sp). split; [simpl; by f_equal | by constructor].
  - by exists [].
Qed.

Lemma lstrip_spaces (l : list ascii) :
  Forall (λ c, is_space c = true) l → lstrip l = [].
Proof. induction 1 as [|x l Hx _ IH]; simpl; [done | by rewrite Hx]. Qed.

(** The characters of [s.strip()]. *)
Definition strip_chars (l : list ascii) : list ascii :=
  reverse (lstrip (reverse (lstrip l))).

Lemma strip_chars_idemp (l : list ascii) : strip_chars (strip_chars l) = strip_chars l.
Proof.
  unfold strip_chars. set (l1 := lstrip l). set (l2 := lstrip (reverse l1)).
  assert (Hr : lstrip (reverse l2) = reverse l2).
  { apply lstrip_id. intros c Hc.
    destruct (lstrip_split (reverse l1)) as (sp & Hsplit & _). fold l2 in Hsplit.
    apply (f_equal reverse) in Hsplit.
    rewrite reverse_involutive, reverse_app in Hsplit.
    destruct (reverse l2) as [|x r']; [done|]. injection Hc as ->.
    apply (lstrip_head l (r' ++ reverse sp)). exact Hsplit. }
  rewrite Hr, reverse_involutive. unfold l2. by rewrite lstrip_lstrip.
Qed.

Lemma strip_strip (s : string) : strip (strip s) = strip s.
Proof.
  unfold strip. rewrite chars_of_list. fold (strip_chars (chars s)).
  fold (strip_chars (strip_chars (chars s))). by rewrite strip_chars_idemp.
Qed.

Lemma before_no_sep (sep : ascii) (l : list ascii) : sep ∉ before sep l.
Proof.
  induction l as [|c l IH]; simpl; [by intros ?%elem_of_nil|].
  destruct (decide (c = sep)); [by intros ?%elem_of_nil|].
  intros [->|?]%elem_of_cons; done.
Qed.

Lemma split_chars_elem (sep : ascii) (l f : list ascii) (x : ascii) :
  f ∈ split_chars sep l → x ∈ f → x ∈ l.
Proof.
  revert f. induction l as [|c l IH]; intros f; cbn [split_chars].
  - intros ->%list_elem_of_singleton. done.
  - destruct (decide (c = sep)) as [->|Hne].
    + intros [->|Hin]%elem_of_cons Hx; [by apply elem_of_nil in Hx|].
      right. by eapply IH.
    + destruct (split_chars sep l) as [|f0 fs].
      * intros ->%list_elem_of_singleton [->|Hx]%elem_of_cons; [left|].
        by apply elem_of_nil in Hx.
      * intros [->|Hin]%elem_of_cons Hx.
        -- apply elem_of_cons in Hx as [->|Hx]; [left|]. right. apply (IH f0); [left|done].
        -- right. apply (IH f); [by right | done].
Qed.

(** X7.  A line of which nothing but white space stands before the first
    [#] is skipped.  Every other line is skipped or gives exactly
    [minfields] fields; no field contains the delimiter or a [#], and no
    field begins or ends with white space (stripping it again changes
    nothing). *)
Theorem process_line_shape (line : string) (minfields : nat) (delim : ascii) :
  (Forall (λ c, is_space c = true) (before "#"%char (chars line)) →
   process_line line minfields delim = None) ∧
  ∀ fields, process_line line minfields delim = Some fields →
    length fields = minfields ∧
    ∀ f, f ∈ fields →
      (delim ∉ chars f) ∧ ("#"%char ∉ chars f) ∧ strip f = f.
Proof.
  split.
  - intros Hsp. unfold process_line.
    assert (Htext : strip (string_of_list_ascii (before "#"%char (chars line)))
                    = EmptyString).
    { unfold strip. rewrite chars_of_list. by rewrite (lstrip_spaces _ Hsp). }
    rewrite Htext. by rewrite decide_True.
  - intros fields Hline. split; [|intros f Hf; split; [|split]].
    + revert Hline. unfold process_line. case_decide; [done|].
      case_decide as Hn; [|done]. intros [= <-].
      rewrite length_fmap, length_take. lia.
    + by eapply process_line_fields.
    + revert Hline Hf. unfold process_line. case_decide; [done|].
      case_decide; [|done].
      intros [= <-] (f0 & -> & Hf0)%list_elem_of_fmap Hin.
      apply (subseteq_take minfields) in Hf0. unfold split in Hf0.
      apply list_elem_of_fmap in Hf0 as (cs & -> & Hcs).
      apply strip_elem in Hin. rewrite chars_of_list in Hin.
      apply (split_chars_elem _ _ _ _ Hcs), strip_elem in Hin.
      rewrite chars_of_list in Hin. by apply before_no_sep in Hin.
    + revert Hline Hf. unfold process_line. case_decide; [done|].
      case_decide; [|done].
      intros [= <-] (f0 & -> & _)%list_elem_of_fmap. apply strip_strip.
Qed.

(** [sep.join(fields)] on lists of characters. *)
Fixpoint join (sep : ascii) (fields : list (list ascii)) : list ascii :=
  match fields with
  | [] => []
  | [f] => f
  | f :: fs => f ++ sep :: join sep fs
  end.

Lemma split_chars_join (sep : ascii) (l : list ascii) :
  join sep (split_chars sep l) = l ∧
  length (split_chars sep l) = S (length (filter (λ c, c = sep) l)).
Proof.
  induction l as [|c l [IHj IHl]]; cbn [split_chars]; [done|].
  destruct (decide (c = sep)) as [->|Hne].
  - rewrite filter_cons_True by done. split; [|simpl; by rewrite IHl].
    destruct (split_chars sep l) as [|f fs] eqn:Hs; [done|].
    change (sep :: join sep (f :: fs) = sep :: l). by rewrite IHj.
  - rewrite filter_cons_False by done.
    destruct (split_chars sep l) as [|f fs] eqn:Hs; [done|]. split; [|done].
    destruct fs as [|f' fs];
      [change (c :: join sep [f] = c :: l)
      |change (c :: join sep (f :: f' :: fs) = c :: l)]; by rewrite IHj.
Qed.

(** X8.  [split] cuts a string at every separator: a string with [n]
    separators gives [n + 1] fields, none of which contains the separator,
    and joining the fields with the separator gives the string back. *)
Theorem split_join (sep : ascii) (s : string) :
  length (split sep s) = S (length (filter (λ c, c = sep) (chars s))) ∧
  (∀ f, f ∈ split sep s → sep ∉ chars f) ∧
  string_of_list_ascii (join sep (chars <$> split sep s)) = s.
Proof.
  unfold split. destruct (split_chars_join sep (chars s)) as [Hj Hl].
  split; [by rewrite length_fmap|]. split.
  - intros f (cs & -> & Hcs)%list_elem_of_fmap. rewrite chars_of_list.
    by eapply split_chars_no_sep.
  - assert (Hid : ∀ fs : list (list ascii), chars <$> (string_of_list_ascii <$> fs) = fs).
    { induction fs as [|f fs IH]; [done|]. by rewrite !fmap_cons, chars_of_list, IH. }
    by rewrite Hid, Hj, string_of_chars.
Qed.
End process_file_more.

(** * Properties of the record classes *)

Section property_facts.
Import Charmap SparseSet Decomposition Properties.

(** The codepoints named by a code field. *)
Definition in_codes (field : code_field) (c : Z) : Prop :=
  match field with
  | OneCode k => c = k
  | CodeRange first last => first ≤ c ≤ last
  end.

#[local] Instance in_codes_dec field c : Decision (in_codes field c).
Proof. destruct field; simpl; apply _. Defined.

Lemma hexrange_elem (field : code_field) (c : Z) :
  c ∈ hexrange field ↔ in_codes field c.
Proof.
  destruct field as [k|first last]; simpl.
  - apply list_elem_of_singleton.
  - rewrite elem_of_seqZ. lia.
Qed.

(** A table filled by a pass in which every record overwrites the entries
    it covers holds, at each key, the value of the last record covering it. *)
Lemma foldl_last_match {A V : Type} (upd : gmap Z V → A → gmap Z V)
    (P : Z → A → Prop) `{!∀ c r, Decision (P c r)} (val : A → V) :
  (∀ t r c, upd t r !! c = if decide (P c r) then Some (val r) else t !! c) →
  ∀ records t c,
    foldl upd t records !! c
    = match last_match (P c) records with
      | Some r => Some (val r)
      | None => t !! c
      end.
Proof.
  intros Hupd records. induction records as [|r records IH]; intros t c; [done|].
  cbn [foldl last_match]. rewrite IH.
  destruct (last_match (P c) records); [done|]. rewrite Hupd.
  by destruct (decide (P c r)).
Qed.

Lemma enum_ucd_record_lookup (prefix : string) (quote : bool)
    (table : gmap Z string) (r : property_fields) (c : Z) :
  enum_ucd_record prefix quote table r !! c
  = if decide (in_codes (pf_codes r) c)
    then Some (enum_field prefix quote (pf_value r)) else table !! c.
Proof.
  unfold enum_ucd_record.
  assert (Hl : ∀ (codes : list Z) (t : gmap Z string),
    foldl (λ table c, <[c := enum_field prefix quote (pf_value r)]> table) t codes !! c
    = if decide (c ∈ codes) then Some (enum_field prefix quote (pf_value r))
      else t !! c).
  { induction codes as [|k codes IH]; intros t; cbn [foldl].
    - destruct (decide (c ∈ [])) as [Hin|]; [by apply elem_of_nil in Hin | done].
    - rewrite IH.
      destruct (decide (c ∈ codes)) as [Hin|Hnin],
               (decide (c ∈ k :: codes)) as [Hin'|Hnin']; [done| | |].
      + exfalso. apply Hnin'. by right.
      + apply elem_of_cons in Hin' as [->|?]; [|done]. by rewrite lookup_insert_eq.
      + rewrite lookup_insert_ne; [done|]. intros ->. apply Hnin'. left. }
  rewrite Hl. pose proof (hexrange_elem (pf_codes r) c) as Hiff.
  destruct (decide (in_codes (pf_codes r) c)), (decide (c ∈ hexrange (pf_codes r)));
    tauto.
Qed.

(** X9.  In a table filled from [EnumUcdRecord]s, a codepoint has the
    prefixed value of the last record whose code or code range covers it;
    a codepoint that no record covers keeps what the table held before. *)
Theorem enum_last_record_wins (prefix : string) (quote : bool)
    (records : list property_fields) (table : gmap Z string) (c : Z) :
  foldl (enum_ucd_record prefix quote) table records !! c
  = match last_match (λ r, in_codes (pf_codes r) c) records with
    | Some r => Some (enum_field prefix quote (pf_value r))
    | None => table !! c
    end.
Proof.
  apply (@foldl_last_match _ _ (enum_ucd_record prefix quote)
           (λ c r, in_codes (pf_codes r) c) (λ c r, in_codes_dec (pf_codes r) c)
           (λ r, enum_field prefix quote (pf_value r))).
  intros t r k. apply enum_ucd_record_lookup.
Qed.

Lemma named_set_elem (prop : string) (records : list property_fields)
    (table : gset Z) (c : Z) :
  c ∈ foldl (named_boolean_ucd_record prop) table records ↔
  c ∈ table ∨ ∃ r, r ∈ records ∧ pf_value r = prop ∧ in_codes (pf_codes r) c.
Proof.
  revert table. induction records as [|r records IH]; intros table; simpl.
  - split; [by left | intros [?|(r & Hr & _)]; [done | by apply elem_of_nil in Hr]].
  - rewrite IH. unfold named_boolean_ucd_record. case_decide as Hprop.
    + rewrite elem_of_union, elem_of_list_to_set, hexrange_elem. split.
      * intros [[?|?]|(r' & ? & ?)]; [by left | | right; exists r'; split; [by right | done]].
        right. exists r. split; [left | done].
      * intros [?|(r' & [->|?]%elem_of_cons & ? & ?)];
          [left; by left | left; by right | right; eauto].
    + split.
      * intros [?|(r' & ? & ?)]; [by left | right; exists r'; split; [by right | done]].
      * intros [?|(r' & [->|?]%elem_of_cons & ? & ?)]; [by left | done | right; eauto].
Qed.
(** X10.  The intervals written for [id_nonstart] cover exactly the
    codepoints that some [ID_Continue] record covers and no [ID_Start] record
    covers; records of other properties have no effect. *)
Theorem id_nonstart_written (records : list property_fields) :
  (∀ r c, r ∈ records → in_codes (pf_codes r) c → 0 ≤ c) →
  ∃ entries,
    write_sparse_set (id_nonstart records) = Some entries ∧
    ∀ c, (∃ e, e ∈ entries ∧ covers e c) ↔
         (∃ r, r ∈ records ∧ pf_value r = "ID_Continue"%string ∧
               in_codes (pf_codes r) c) ∧
         ¬ (∃ r, r ∈ records ∧ pf_value r = "ID_Start"%string ∧
                 in_codes (pf_codes r) c).
Proof.
  intros Hpos.
  assert (Hmem : ∀ c, c ∈ id_nonstart records ↔
            (∃ r, r ∈ records ∧ pf_value r = "ID_Continue"%string ∧
                  in_codes (pf_codes r) c) ∧
            ¬ (∃ r, r ∈ records ∧ pf_value r = "ID_Start"%string ∧
                    in_codes (pf_codes r) c)).
  { intros c. unfold id_nonstart, named_set.
    rewrite elem_of_difference, !named_set_elem. split.
    - intros [[Hc|Hc] Hn]; [by apply elem_of_empty in Hc|].
      split; [done|]. intros Hs. apply Hn. by right.
    - intros [Hc Hn]. split; [by right|].
      intros [He|Hs]; [by apply elem_of_empty in He | by apply Hn]. }
  destruct (scan_subranges_spec (id_nonstart records)) as [Hends Hcover].
  { intros ((r & Hr & _ & Hc) & _)%Hmem. specialize (Hpos r _ Hr Hc). lia. }
  unfold write_sparse_set.
  destruct (write_charmap_single (ss_subranges (foldl scan_step scan_init
              (sorted (elements (id_nonstart records))))))
    as (entries & He & _ & Hin).
  exists entries. split; [done|]. intros c. rewrite <- Hmem. split.
  - intros ([f fv] & (v & Hfl & ->)%Hin & (l & [= <-] & Hc)). simpl in Hc.
    by apply (Hends f v Hfl).
  - intros (f & l & Hfl & Hc)%Hcover. exists (f, [l]).
    split; [apply Hin; eauto|]. exists l. done.
Qed.
End property_facts.

Definition example_core_properties : list Properties.property_fields :=
  [ {| Properties.pf_codes := Decomposition.CodeRange 0x41 0x5A;
       Properties.pf_value := "ID_Start" |};
    {| Properties.pf_codes := Decomposition.CodeRange 0x30 0x39;
       Properties.pf_value := "ID_Continue" |};
    {| Properties.pf_codes := Decomposition.CodeRange 0x41 0x5A;
       Properties.pf_value := "ID_Continue" |};
    {| Properties.pf_codes := Decomposition.OneCode 0x5F;
       Properties.pf_value := "ID_Continue" |};
    {| Properties.pf_codes := Decomposition.OneCode 0xAD;
       Properties.pf_value := "Default_Ignorable_Code_Point" |} ].

Example example_id_nonstart_written :
  SparseSet.write_sparse_set (Properties.id_nonstart example_core_properties)
  = Some [(0x30, [0x39]); (0x5F, [0x5F])].
Proof. vm_compute. reflexivity. Qed.

Lemma id_nonstart_written_witness :
  (∀ r c, r ∈ example_core_properties →
          in_codes (Properties.pf_codes r) c → 0 ≤ c) ∧
  ∃ entries,
    SparseSet.write_sparse_set (Properties.id_nonstart example_core_properties)
    = Some entries ∧
    ∀ c, (∃ e, e ∈ entries ∧ SparseSet.covers e c) ↔
         (∃ r, r ∈ example_core_properties ∧
               Properties.pf_value r = "ID_Continue"%string ∧
               in_codes (Properties.pf_codes r) c) ∧
         ¬ (∃ r, r ∈ example_core_properties ∧
                 Properties.pf_value r = "ID_Start"%string ∧
                 in_codes (Properties.pf_codes r) c).
Proof.
  assert (Hpos : ∀ r c, r ∈ example_core_properties →
            in_codes (Properties.pf_codes r) c → 0 ≤ c).
  { intros r c Hr. unfold example_core_properties in Hr.
    repeat (apply elem_of_cons in Hr as [->|Hr]); simpl; try lia.
    by apply elem_of_nil in Hr. }
  split; [exact Hpos|]. exact (id_nonstart_written example_core_properties Hpos).
Defined.

(** * Further properties of the pass over [UnicodeData.txt] *)

Section unicode_data_more.
Import Str Charmap UnicodeData UnicodeRanges.

Lemma char_at_None (s : string) (i : nat) :
  char_at s i = None ↔ (String.length s ≤ i)%nat.
Proof.
  unfold char_at. revert i. induction s as [|a s IH]; intros i; simpl.
  - split; [lia | done].
  - destruct i as [|i]; [split; [done | lia]|]. rewrite IH. lia.
Qed.

Lemma close_range_None (rb : list (Z * Z)) (code : Z) :
  close_range rb code = None ↔ rb = [].
Proof.
  unfold close_range. destruct (reverse rb) as [|[first l] rest] eqn:Hrev.
  - split; [|done]. intros _. apply (f_equal reverse) in Hrev.
    by rewrite reverse_involutive in Hrev.
  - split; [done|]. intros ->. by rewrite reverse_nil in Hrev.
Qed.

Lemma close_range_Some (rb rb' : list (Z * Z)) (code : Z) :
  close_range rb code = Some rb' →
  ∃ first l rest, rb = rest ++ [(first, l)] ∧ rb' = rest ++ [(first, code)].
Proof.
  unfold close_range. destruct (reverse rb) as [|[first l] rest] eqn:Hrev; [done|].
  intros [= <-]. exists first, l, (reverse rest).
  apply (f_equal reverse) in Hrev. rewrite reverse_involutive, reverse_cons in Hrev.
  by rewrite reverse_cons.
Qed.

Section unicode_data_file.
Import UnicodeDataFile.
(** [int(s, 16)] and [int(s)], [None] for their [ValueError]. *)
Variables (int16 int10 : string → option Z).

(** A record with a number field that [int] rejects: the code, the
    combining class, a word of a decomposition, or a case mapping that is
    not empty. *)
Definition unreadable (r : ud_record) : Prop :=
  int16 (f_code r) = None ∨
  int10 (f_ccc r) = None ∨
  (f_decomp r ≠ EmptyString ∧
   Fields.split_codes int16 (decomposition_text (f_decomp r)) = None) ∨
  (f_upper r ≠ EmptyString ∧ int16 (f_upper r) = None) ∨
  (f_lower r ≠ EmptyString ∧ int16 (f_lower r) = None) ∨
  (f_title r ≠ EmptyString ∧ int16 (f_title r) = None).

Lemma case_field_None (field : string) (missing : Z) :
  case_field int16 field missing = None ↔
  field ≠ EmptyString ∧ int16 field = None.
Proof.
  unfold case_field. destruct (decide (field = EmptyString)) as [->|Hne].
  - split; [done | by intros [? _]].
  - split; [done | by intros [_ ?]].
Qed.

(** When one record raises. *)
Lemma ud_file_record_None (r : ud_record) (st : ucd) :
  UnicodeDataFile.unicode_data_record int16 int10 r st = None ↔
  unreadable r ∨
  (String.length (f_category r) < 2)%nat ∨
  (endswith " Last>" (f_name r) = true ∧
   endswith " First>" (f_name r) = false ∧ range_bounds st = []).
Proof.
  unfold UnicodeDataFile.unicode_data_record, unreadable.
  destruct (int16 (f_code r)) as [code|] eqn:Hcode; cbn [mbind option_bind];
    [|split; [intros _; left; by left | done]].
  destruct (if endswith " First>" (f_name r) then _ else _) as [rb|] eqn:HX;
    cbn [mbind option_bind].
  2: { split; [|done]. intros _. right. right.
       destruct (endswith " First>" (f_name r)); [done|].
       destruct (endswith " Last>" (f_name r)); [|done].
       split; [done|]. split; [done|]. by apply (proj1 (close_range_None _ _)) in HX. }
  assert (Hrange : ¬ (endswith " Last>" (f_name r) = true ∧
                      endswith " First>" (f_name r) = false ∧
                      range_bounds st = [])).
  { intros (Hlast & Hfirst & Hnil). rewrite Hfirst, Hlast in HX.
    apply (proj2 (close_range_None _ code)) in Hnil. by rewrite Hnil in HX. }
  destruct (char_at (f_category r) 0) as [g0|] eqn:Hg0; cbn [mbind option_bind].
  2: { split; [|done]. intros _. right. left.
       apply (proj1 (char_at_None _ _)) in Hg0. lia. }
  destruct (char_at (f_category r) 1) as [g1|] eqn:Hg1; cbn [mbind option_bind].
  2: { split; [|done]. intros _. right. left.
       apply (proj1 (char_at_None _ _)) in Hg1. lia. }
  assert (Hcat : ¬ (String.length (f_category r) < 2)%nat).
  { intros Hlt. assert (char_at (f_category r) 1 = None) by (apply char_at_None; lia).
    congruence. }
  destruct (int10 (f_ccc r)) as [ccc|] eqn:Hccc; cbn [mbind option_bind];
    [|split; [intros _; left; right; by left | done]].
  destruct (if decide (f_decomp r = EmptyString) then _ else _) as [dchars|] eqn:Hd;
    cbn [mbind option_bind].
  2: { split; [|done]. intros _. left. right. right. left.
       by destruct (decide (f_decomp r = EmptyString)). }
  destruct (case_field int16 (f_upper r) code) as [uc|] eqn:Huc;
    cbn [mbind option_bind].
  2: { split; [|done]. intros _. left. do 3 right. left.
       by apply (proj1 (case_field_None _ _)) in Huc. }
  destruct (case_field int16 (f_lower r) code) as [lc|] eqn:Hlc;
    cbn [mbind option_bind].
  2: { split; [|done]. intros _. left. do 4 right. left.
       by apply (proj1 (case_field_None _ _)) in Hlc. }
  destruct (case_field int16 (f_title r) uc) as [tc|] eqn:Htc;
    cbn [mbind option_bind].
  2: { split; [|done]. intros _. left. do 5 right.
       by apply (proj1 (case_field_None _ _)) in Htc. }
  split; [done|]. intros [Hun|[?|?]]; [|done|done]. exfalso.
  destruct Hun as [?|[?|[[Hne Hs]|[Hu|[Hl|Ht]]]]]; [congruence | congruence | | | |].
  - destruct (decide (f_decomp r = EmptyString)); congruence.
  - apply (proj2 (case_field_None _ code)) in Hu. congruence.
  - apply (proj2 (case_field_None _ code)) in Hl. congruence.
  - apply (proj2 (case_field_None _ uc)) in Ht. congruence.
Qed.

(** The list of ranges is empty until a [First>] record has been read. *)
Lemma ud_file_record_ranges (r : ud_record) (st st' : ucd) :
  UnicodeDataFile.unicode_data_record int16 int10 r st = Some st' →
  (range_bounds st' = [] ↔
   range_bounds st = [] ∧ endswith " First>" (f_name r) = false).
Proof.
  unfold UnicodeDataFile.unicode_data_record. intros Hrec.
  destruct (int16 (f_code r)) as [code|]; [|done]. cbn [mbind option_bind] in Hrec.
  destruct (if endswith " First>" (f_name r) then _ else _) as [rb|] eqn:HX;
    [|done]. cbn [mbind option_bind] in Hrec.
  destruct (char_at (f_category r) 0) as [g0|]; [|done].
  cbn [mbind option_bind] in Hrec.
  destruct (char_at (f_category r) 1) as [g1|]; [|done].
  cbn [mbind option_bind] in Hrec.
  destruct (int10 (f_ccc r)) as [ccc|]; [|done]. cbn [mbind option_bind] in Hrec.
  destruct (if decide (f_decomp r = EmptyString) then _ else _) as [dchars|];
    [|done]. cbn [mbind option_bind] in Hrec.
  destruct (case_field int16 (f_upper r) code) as [uc|]; [|done].
  cbn [mbind option_bind] in Hrec.
  destruct (case_field int16 (f_lower r) code) as [lc|]; [|done].
  cbn [mbind option_bind] in Hrec.
  destruct (case_field int16 (f_title r) uc) as [tc|]; [|done].
  cbn [mbind option_bind] in Hrec.
  injection Hrec as <-. cbn [range_bounds].
  destruct (endswith " First>" (f_name r)).
  - injection HX as <-. split; [by intros [_ ?]%app_eq_nil | by intros [_ ?]].
  - destruct (endswith " Last>" (f_name r)).
    + apply close_range_Some in HX as (first & l & rest & -> & ->).
      split; [by intros [_ ?]%app_eq_nil | by intros [[_ ?]%app_eq_nil _]].
    + injection HX as <-. split; [done | by intros [? _]].
Qed.

Lemma ud_file_pass_None (records : list ud_record) (st : ucd) :
  UnicodeDataFile.process_records int16 int10 records st = None ↔
  ∃ i r, records !! i = Some r ∧
    (unreadable r ∨
     (String.length (f_category r) < 2)%nat ∨
     (endswith " Last>" (f_name r) = true ∧ endswith " First>" (f_name r) = false ∧
      range_bounds st = [] ∧
      ∀ j r', (j < i)%nat → records !! j = Some r' →
              endswith " First>" (f_name r') = false)).
Proof.
  revert st. induction records as [|r records IH]; intros st;
    cbn [UnicodeDataFile.process_records].
  - split; [done | by intros (i & r & ? & _)].
  - destruct (UnicodeDataFile.unicode_data_record int16 int10 r st) as [st1|] eqn:Hrec;
      cbn [mbind option_bind].
    + pose proof (ud_file_record_ranges _ _ _ Hrec) as Hrb.
      assert (Hok : UnicodeDataFile.unicode_data_record int16 int10 r st ≠ None)
        by congruence.
      rewrite ud_file_record_None in Hok.
      rewrite IH. split.
      * intros (i & r' & Hi & Hfail). exists (S i), r'. split; [done|].
        destruct Hfail as [?|[?|(? & ? & Hnil & Hbefore)]];
          [by left | right; by left | right; right].
        apply Hrb in Hnil as [Hnil Hfirst].
        split; [done|]. split; [done|]. split; [done|].
        intros [|j] r'' Hj Hr''; simpl in Hr''; [by injection Hr'' as <-|].
        apply (Hbefore j); [lia | done].
      * intros ([|i] & r' & Hi & Hfail); simpl in Hi.
        { injection Hi as <-. exfalso. apply Hok.
          destruct Hfail as [?|[?|(? & ? & ? & _)]];
            [by left | right; by left | right; by right]. }
        exists i, r'. split; [done|].
        destruct Hfail as [?|[?|(? & ? & Hnil & Hbefore)]];
          [by left | right; by left | right; right].
        split; [done|]. split; [done|]. split.
        -- apply Hrb. split; [done|]. apply (Hbefore 0%nat); [lia | done].
        -- intros j r'' Hj Hr''. apply (Hbefore (S j)); [lia | done].
    + split; [|done]. intros _. exists 0%nat, r. split; [done|].
      apply ud_file_record_None in Hrec as [?|[?|(? & ? & ?)]];
        [by left | right; by left | right; right].
      split; [done|]. split; [done|]. split; [done|]. intros j r' Hj. lia.
Qed.

(** ** The record after its number fields are read *)

(** The decomposition field as [UnicodeData.ud_fields] holds it.  A
    canonical decomposition without a word has no counterpart there; the
    fields that [process_file] hands over are stripped, so that a field that
    is not empty has a word. *)
Definition read_decomposition (decomp : string) : option decomposition :=
  if decide (decomp = EmptyString) then Some NoDecomposition
  else
    dchars ← Fields.split_codes int16 (decomposition_text decomp);
    if canon decomp then
      match dchars with
      | d0 :: ds => Some (Canonical d0 ds)
      | [] => None
      end
    else Some (Compatibility dchars).

Definition read_case (field : string) : option (option Z) :=
  if decide (field = EmptyString) then Some None else Some <$> int16 field.

Definition read_record (r : ud_record) : option ud_fields :=
  code ← int16 (f_code r);
  ccc ← int10 (f_ccc r);
  decomp ← read_decomposition (f_decomp r);
  upper ← read_case (f_upper r);
  lower ← read_case (f_lower r);
  title ← read_case (f_title r);
  Some {| ud_code := code; ud_name := f_name r; ud_category := f_category r;
          ud_ccc := ccc; ud_bidi := f_bidi r; ud_decomp := decomp;
          ud_mirrored := f_mirrored r;
          ud_upper := upper; ud_lower := lower; ud_title := title |}.

(** On a record whose number fields can be read, the record as read from
    the file does what [UnicodeData.unicode_data_record] does on the fields
    read. *)
Lemma file_record_read (r : ud_record) (fields : ud_fields) (st : ucd) :
  read_record r = Some fields →
  UnicodeDataFile.unicode_data_record int16 int10 r st
  = UnicodeData.unicode_data_record fields st.
Proof.
  unfold read_record, UnicodeDataFile.unicode_data_record,
    UnicodeData.unicode_data_record. intros Hread.
  destruct (int16 (f_code r)) as [code|]; [|done]. cbn [mbind option_bind] in Hread |- *.
  destruct (int10 (f_ccc r)) as [ccc|]; [|done]. cbn [mbind option_bind] in Hread.
  destruct (read_decomposition (f_decomp r)) as [decomp|] eqn:Hdecomp; [|done].
  cbn [mbind option_bind] in Hread.
  destruct (read_case (f_upper r)) as [upper|] eqn:Hupper; [|done].
  cbn [mbind option_bind] in Hread.
  destruct (read_case (f_lower r)) as [lower|] eqn:Hlower; [|done].
  cbn [mbind option_bind] in Hread.
  destruct (read_case (f_title r)) as [title|] eqn:Htitle; [|done].
  cbn [mbind option_bind] in Hread. injection Hread as <-.
  unfold uc_of, lc_of, tc_of. cbn [ud_code ud_name ud_category ud_ccc ud_bidi
    ud_decomp ud_mirrored ud_upper ud_lower ud_title].
  destruct (if endswith " First>" (f_name r) then _ else _) as [rb|]; [|done].
  cbn [mbind option_bind].
  destruct (char_at (f_category r) 0) as [g0|]; [|done]. cbn [mbind option_bind].
  destruct (char_at (f_category r) 1) as [g1|]; [|done]. cbn [mbind option_bind].
  assert (Hcase : ∀ field missing value,
            read_case field = Some value →
            case_field int16 field missing = Some (default missing value)).
  { intros field missing value. unfold read_case, case_field.
    destruct (decide (field = EmptyString)); [by intros [= <-]|].
    destruct (int16 field); [by intros [= <-] | done]. }
  rewrite (Hcase _ code _ Hupper). cbn [mbind option_bind].
  rewrite (Hcase _ code _ Hlower). cbn [mbind option_bind].
  rewrite (Hcase _ (default code upper) _ Htitle). cbn [mbind option_bind].
  unfold read_decomposition in Hdecomp.
  destruct (decide (f_decomp r = EmptyString)) as [Hempty|Hfull].
  - injection Hdecomp as <-. cbn [mbind option_bind].
    rewrite bool_decide_eq_false_2 by (by intros ?). done.
  - destruct (Fields.split_codes int16 (decomposition_text (f_decomp r)))
      as [dchars|]; [|done]. cbn [mbind option_bind] in Hdecomp |- *.
    rewrite bool_decide_eq_true_2 by done.
    destruct (canon (f_decomp r)).
    + destruct dchars as [|d0 ds]; [done|]. injection Hdecomp as <-.
      cbn [andb negb]. do 2 f_equal.
      destruct (decide (length (d0 :: ds) = 1%nat)) as [Hone|Hmore].
      * by rewrite bool_decide_eq_true_2.
      * by rewrite bool_decide_eq_false_2.
    + injection Hdecomp as <-. cbn [andb negb]. do 2 f_equal.
      * destruct (decide (length dchars ≤ 3)%nat).
        -- by rewrite bool_decide_eq_true_2.
        -- by rewrite bool_decide_eq_false_2.
      * destruct (decide (length dchars ≤ 3)%nat).
        -- by rewrite bool_decide_eq_true_2.
        -- by rewrite bool_decide_eq_false_2.
Qed.

(** So the pass over the records of the file is the pass of
    [UnicodeData.process_records] over the fields read, whenever all of them
    can be read. *)
Lemma file_pass_read (records : list ud_record) (parsed : list ud_fields)
    (st : ucd) :
  mapM read_record records = Some parsed →
  UnicodeDataFile.process_records int16 int10 records st
  = UnicodeData.process_records parsed st.
Proof.
  revert parsed st. induction records as [|r records IH]; intros parsed st Hread.
  - by injection Hread as <-.
  - cbn [mapM] in Hread.
    destruct (read_record r) as [fields|] eqn:Hr; [|done].
    cbn [mbind option_bind] in Hread.
    destruct (mapM read_record records) as [rest|]; [|done].
    cbn [mbind option_bind] in Hread. injection Hread as <-.
    cbn [UnicodeDataFile.process_records UnicodeData.process_records].
    rewrite (file_record_read r fields st Hr).
    destruct (UnicodeData.unicode_data_record fields st) as [st1|]; [|done].
    cbn [mbind option_bind]. by apply IH.
Qed.

(** X11.  The pass over [UnicodeData.txt] raises exactly when some record
    has a number field that [int] rejects (the code, the combining class, a
    word of the decomposition, or a case mapping that is not empty), or a
    general category of fewer than two characters, or is a [Last>] record
    with no [First>] record before it. *)
Theorem unicode_data_pass_fails (records : list ud_record) :
  UnicodeDataFile.process_records int16 int10 records ucd_init = None ↔
  ∃ i r, records !! i = Some r ∧
    (unreadable r ∨
     (String.length (f_category r) < 2)%nat ∨
     (endswith " Last>" (f_name r) = true ∧ endswith " First>" (f_name r) = false ∧
      ∀ j r', (j < i)%nat → records !! j = Some r' →
              endswith " First>" (f_name r') = false)).
Proof.
  rewrite ud_file_pass_None. split.
  - intros (i & r & Hi & [?|[?|(? & ? & _ & ?)]]); exists i, r; (split; [done|]);
      [by left | right; by left | right; by right].
  - intros (i & r & Hi & [?|[?|(? & ? & ?)]]); exists i, r; (split; [done|]);
      [by left | right; by left | right; by right].
Qed.
End unicode_data_file.

(** What one record does to the remaining tables. *)
Lemma unicode_data_record_tables (fields : ud_fields) (st st' : ucd) :
  unicode_data_record fields st = Some st' →
  (∃ gc, general_category st' = <[ud_code fields := gc]> (general_category st)) ∧
  bidi_class st' =
    <[ud_code fields := ("Bidi_Class::" +:+ ud_bidi fields)%string]> (bidi_class st) ∧
  short_compatibility st' =
    match ud_decomp fields with
    | Compatibility dchars =>
        if decide (length dchars ≤ 3)%nat
        then <[ud_code fields := dchars]> (short_compatibility st)
        else short_compatibility st
    | _ => short_compatibility st
    end ∧
  long_compatibility st' =
    match ud_decomp fields with
    | Compatibility dchars =>
        if decide (length dchars ≤ 3)%nat
        then long_compatibility st
        else <[ud_code fields := dchars]> (long_compatibility st)
    | _ => long_compatibility st
    end.
Proof.
  unfold unicode_data_record. intros Hrec.
  destruct (if endswith " First>" (ud_name fields) then _ else _) as [rb|];
    [|done]. simpl in Hrec.
  destruct (char_at (ud_category fields) 0) as [g0|]; [|done]. simpl in Hrec.
  destruct (char_at (ud_category fields) 1) as [g1|]; [|done]. simpl in Hrec.
  injection Hrec as <-. simpl. split; [by eexists | done].
Qed.

(** A table of the pass in which a record either overwrites the entry of
    its code or leaves the table alone holds, at each code, the value of the
    last record that wrote it. *)
Lemma pass_last_match {V : Type} (proj : ucd → gmap Z V)
    (P : Z → ud_fields → Prop) `{!∀ c r, Decision (P c r)} (val : ud_fields → V) :
  (∀ r st st', unicode_data_record r st = Some st' →
     ∀ c, proj st' !! c = if decide (P c r) then Some (val r) else proj st !! c) →
  ∀ records st st', process_records records st = Some st' →
    ∀ c, proj st' !! c
         = match last_match (P c) records with
           | Some r => Some (val r)
           | None => proj st !! c
           end.
Proof.
  intros Hstep records.
  induction records as [|r records IH]; intros st st' Hrun c;
    cbn [process_records last_match] in *.
  - by injection Hrun as <-.
  - destruct (unicode_data_record r st) as [st1|] eqn:Hrec; [|done].
    cbn [mbind option_bind] in Hrun. rewrite (IH _ _ Hrun).
    destruct (last_match (P c) records); [done|]. rewrite (Hstep _ _ _ Hrec).
    by destruct (decide (P c r)).
Qed.

(** A conditional insertion at the code of the record, as a lookup. *)
Lemma lookup_insert_if {V : Type} (Q : Prop) `{!Decision Q}
    (table : gmap Z V) (code c : Z) (v : V) :
  (if decide Q then <[code := v]> table else table) !! c
  = if decide (code = c ∧ Q) then Some v else table !! c.
Proof.
  destruct (decide Q), (decide (code = c ∧ Q)) as [[-> HQ]|Hn];
    [by rewrite lookup_insert_eq | | done | done].
  rewrite lookup_insert_ne; [done|]. intros ->. by apply Hn.
Qed.

(** X12.  After the pass, a code has the combining class of its last record;
    the name of its last record whose name does not start with [<]; and as
    simple upper, lower and title case the value of its last record whose
    upper or lower case is not the code, or whose title case is not its upper
    case.  A code with no such record has no entry. *)
Theorem last_record_wins (records : list ud_fields) (st : ucd) (c : Z) :
  process_records records ucd_init = Some st →
  combining_class st !! c = ud_ccc <$> last_match (λ r, ud_code r = c) records ∧
  character_names st !! c
    = ud_name <$> last_match (λ r, ud_code r = c ∧ startswith "<" (ud_name r) = false)
                             records ∧
  simple_upper st !! c
    = uc_of <$> last_match (λ r, ud_code r = c ∧ uc_of r ≠ ud_code r) records ∧
  simple_lower st !! c
    = lc_of <$> last_match (λ r, ud_code r = c ∧ lc_of r ≠ ud_code r) records ∧
  simple_title st !! c
    = tc_of <$> last_match (λ r, ud_code r = c ∧ tc_of r ≠ uc_of r) records.
Proof.
  intros Hrun.
  assert (Hccc : ∀ r s s', unicode_data_record r s = Some s' →
            ∀ k, combining_class s' !! k
                 = if decide (ud_code r = k) then Some (ud_ccc r)
                   else combining_class s !! k).
  { intros r s s' (_ & -> & _)%unicode_data_record_Some k.
    destruct (decide (ud_code r = k)) as [->|Hne];
      [by rewrite lookup_insert_eq | by rewrite lookup_insert_ne]. }
  assert (Hname : ∀ r s s', unicode_data_record r s = Some s' →
            ∀ k, character_names s' !! k
                 = if decide (ud_code r = k ∧ startswith "<" (ud_name r) = false)
                   then Some (ud_name r) else character_names s !! k).
  { intros r s s' (-> & _)%unicode_data_record_Some k.
    rewrite <- lookup_insert_if. by destruct (startswith "<" (ud_name r)). }
  assert (Hupper : ∀ r s s', unicode_data_record r s = Some s' →
            ∀ k, simple_upper s' !! k
                 = if decide (ud_code r = k ∧ uc_of r ≠ ud_code r)
                   then Some (uc_of r) else simple_upper s !! k).
  { intros r s s' (_ & _ & _ & _ & -> & _)%unicode_data_record_Some k.
    apply lookup_insert_if. }
  assert (Hlower : ∀ r s s', unicode_data_record r s = Some s' →
            ∀ k, simple_lower s' !! k
                 = if decide (ud_code r = k ∧ lc_of r ≠ ud_code r)
                   then Some (lc_of r) else simple_lower s !! k).
  { intros r s s' (_ & _ & _ & _ & _ & -> & _)%unicode_data_record_Some k.
    apply lookup_insert_if. }
  assert (Htitle : ∀ r s s', unicode_data_record r s = Some s' →
            ∀ k, simple_title s' !! k
                 = if decide (ud_code r = k ∧ tc_of r ≠ uc_of r)
                   then Some (tc_of r) else simple_title s !! k).
  { intros r s s' (_ & _ & _ & _ & _ & _ & ->)%unicode_data_record_Some k.
    apply lookup_insert_if. }
  rewrite (pass_last_match combining_class _ ud_ccc Hccc records _ _ Hrun c).
  rewrite (pass_last_match character_names _ ud_name Hname records _ _ Hrun c).
  rewrite (pass_last_match simple_upper _ uc_of Hupper records _ _ Hrun c).
  rewrite (pass_last_match simple_lower _ lc_of Hlower records _ _ Hrun c).
  rewrite (pass_last_match simple_title _ tc_of Htitle records _ _ Hrun c).
  repeat split; by destruct (last_match _ records).
Qed.
(** The characters of a compatibility decomposition. *)
Definition compatibility_chars (r : ud_fields) : list Z :=
  match ud_decomp r with Compatibility dchars => dchars | _ => [] end.

Definition is_compatibility (r : ud_fields) : Prop :=
  match ud_decomp r with Compatibility _ => True | _ => False end.

#[local] Instance is_compatibility_dec r : Decision (is_compatibility r).
Proof. unfold is_compatibility. destruct (ud_decomp r); apply _. Defined.

Lemma compatibility_step (r : ud_fields) (s s' : ucd) (k : Z) :
  unicode_data_record r s = Some s' →
  short_compatibility s' !! k
  = (if decide (ud_code r = k ∧ is_compatibility r ∧
                (length (compatibility_chars r) ≤ 3)%nat)
     then Some (compatibility_chars r) else short_compatibility s !! k) ∧
  long_compatibility s' !! k
  = (if decide (ud_code r = k ∧ is_compatibility r ∧
                (3 < length (compatibility_chars r))%nat)
     then Some (compatibility_chars r) else long_compatibility s !! k).
Proof.
  intros (_ & _ & -> & ->)%unicode_data_record_tables.
  assert (Hcases : (¬ is_compatibility r ∧ ∀ d, ud_decomp r ≠ Compatibility d) ∨
                   (is_compatibility r ∧
                    ud_decomp r = Compatibility (compatibility_chars r))).
  { unfold is_compatibility, compatibility_chars.
    destruct (ud_decomp r); simpl; [left | left | right]; split; try done; tauto. }
  split.
  - destruct (decide (ud_code r = k ∧ is_compatibility r ∧
                      (length (compatibility_chars r) ≤ 3)%nat))
      as [(<- & Hcomp & Hlen)|Hn];
      destruct Hcases as [[Hno Hd]|[Hcomp' Hd]]; try done.
    + rewrite Hd. rewrite decide_True by done. by rewrite lookup_insert_eq.
    + destruct (ud_decomp r) as [| |d]; [done | done | by destruct (Hd d)].
    + rewrite Hd. destruct (decide (length (compatibility_chars r) ≤ 3)%nat); [|done].
      rewrite lookup_insert_ne; [done|]. intros Hk. by apply Hn.
  - destruct (decide (ud_code r = k ∧ is_compatibility r ∧
                      (3 < length (compatibility_chars r))%nat))
      as [(<- & Hcomp & Hlen)|Hn];
      destruct Hcases as [[Hno Hd]|[Hcomp' Hd]]; try done.
    + rewrite Hd. rewrite decide_False by lia. by rewrite lookup_insert_eq.
    + destruct (ud_decomp r) as [| |d]; [done | done | by destruct (Hd d)].
    + rewrite Hd. destruct (decide (length (compatibility_chars r) ≤ 3)%nat); [done|].
      rewrite lookup_insert_ne; [done|]. intros Hk. apply Hn.
      split; [done|]. split; [done | lia].
Qed.

(** X13.  Compatibility decompositions are split by length: the short table
    holds only decompositions of at most three characters, the long table
    only longer ones, each taken from a record of the code, and every record
    with a compatibility decomposition puts its code in the table for its
    length.  Writing the short table with [valsize = 3] therefore never
    raises. *)
Theorem compatibility_split (records : list ud_fields) (st : ucd) :
  process_records records ucd_init = Some st →
  (∀ c ds, short_compatibility st !! c = Some ds →
     (length ds ≤ 3)%nat ∧
     ∃ r, r ∈ records ∧ ud_code r = c ∧ ud_decomp r = Compatibility ds) ∧
  (∀ c ds, long_compatibility st !! c = Some ds →
     (3 < length ds)%nat ∧
     ∃ r, r ∈ records ∧ ud_code r = c ∧ ud_decomp r = Compatibility ds) ∧
  (∀ r ds, r ∈ records → ud_decomp r = Compatibility ds →
     if decide (length ds ≤ 3)%nat
     then is_Some (short_compatibility st !! ud_code r)
     else is_Some (long_compatibility st !! ud_code r)) ∧
  is_Some (write_charmap (Multiple <$> short_compatibility st) 3).
Proof.
  intros Hrun.
  pose proof (pass_last_match short_compatibility _ compatibility_chars
                (λ r s s' H k, proj1 (compatibility_step r s s' k H))
                records _ _ Hrun) as Hshort.
  pose proof (pass_last_match long_compatibility _ compatibility_chars
                (λ r s s' H k, proj2 (compatibility_step r s s' k H))
                records _ _ Hrun) as Hlong.
  assert (Hchars : ∀ r, is_compatibility r →
            ud_decomp r = Compatibility (compatibility_chars r)).
  { intros r. unfold is_compatibility, compatibility_chars.
    by destruct (ud_decomp r). }
  assert (Hs : ∀ c ds, short_compatibility st !! c = Some ds →
            (length ds ≤ 3)%nat ∧
            ∃ r, r ∈ records ∧ ud_code r = c ∧ ud_decomp r = Compatibility ds).
  { intros c ds. rewrite Hshort.
    destruct (last_match _ records) as [r|] eqn:Hlast; [|done]. intros [= <-].
    apply last_match_Some in Hlast as (i & Hi & (Hc & Hcomp & Hlen) & _).
    split; [done|]. exists r. split; [by eapply list_elem_of_lookup_2|].
    split; [done | by apply Hchars]. }
  split; [exact Hs|]. split; [|split].
  - intros c ds. rewrite Hlong.
    destruct (last_match _ records) as [r|] eqn:Hlast; [|done]. intros [= <-].
    apply last_match_Some in Hlast as (i & Hi & (Hc & Hcomp & Hlen) & _).
    split; [done|]. exists r. split; [by eapply list_elem_of_lookup_2|].
    split; [done | by apply Hchars].
  - intros r ds Hr Hd.
    assert (Hcomp : is_compatibility r) by (unfold is_compatibility; by rewrite Hd).
    assert (Hds : compatibility_chars r = ds)
      by (unfold compatibility_chars; by rewrite Hd).
    destruct (decide (length ds ≤ 3)%nat) as [Hle|Hgt].
    + rewrite Hshort. destruct (last_match _ records) as [r'|] eqn:Hlast;
        [by eexists|]. exfalso.
      apply (proj1 (last_match_None _ _) Hlast r Hr). rewrite Hds. done.
    + rewrite Hlong. destruct (last_match _ records) as [r'|] eqn:Hlast;
        [by eexists|]. exfalso.
      apply (proj1 (last_match_None _ _) Hlast r Hr). rewrite Hds.
      split; [done|]. split; [done|lia].
  - apply write_charmap_is_Some. intros k v. rewrite lookup_fmap.
    destruct (short_compatibility st !! k) as [ds|] eqn:Hk; [|done].
    intros [= <-]. destruct (Hs k ds Hk) as [Hlen _].
    eexists. apply field_value_Some. split; [|done]. split; [done | lia].
Qed.
(** ** Filling the ranges *)

Lemma fill_codes_spec (gc bc : string) (bm : bool) (codes : list Z) (st : ucd) :
  let st1 := foldl (fill_code gc bc bm) st codes in
  (∀ c, general_category st1 !! c
        = if decide (c ∈ codes) then Some gc else general_category st !! c) ∧
  (∀ c, bidi_class st1 !! c
        = if decide (c ∈ codes) then Some bc else bidi_class st !! c) ∧
  (∀ c, c ∈ bidi_mirrored st1 ↔ c ∈ bidi_mirrored st ∨ (bm = true ∧ c ∈ codes)) ∧
  combining_class st1 = combining_class st ∧
  character_names st1 = character_names st.
Proof.
  revert st. induction codes as [|k codes IH]; intros st; cbn [foldl].
  - repeat split; try done.
    + by left.
    + intros [?|[_ Hin]]; [done | by apply elem_of_nil in Hin].
  - destruct (IH (fill_code gc bc bm st k)) as (Hgc & Hbc & Hbm & Hcc & Hnames).
    split; [|split; [|split; [|split]]]; [| | |done|done].
    + intros c. rewrite Hgc. simpl.
      destruct (decide (c ∈ codes)) as [Hin|Hnin], (decide (c ∈ k :: codes)) as [Hin'|Hnin'];
        [done | exfalso; apply Hnin'; by right | |].
      * apply elem_of_cons in Hin' as [->|?]; [|done]. by rewrite lookup_insert_eq.
      * rewrite lookup_insert_ne; [done|]. intros ->. apply Hnin'. left.
    + intros c. rewrite Hbc. simpl.
      destruct (decide (c ∈ codes)) as [Hin|Hnin], (decide (c ∈ k :: codes)) as [Hin'|Hnin'];
        [done | exfalso; apply Hnin'; by right | |].
      * apply elem_of_cons in Hin' as [->|?]; [|done]. by rewrite lookup_insert_eq.
      * rewrite lookup_insert_ne; [done|]. intros ->. apply Hnin'. left.
    + intros c. rewrite Hbm. simpl. rewrite elem_of_cons. destruct bm.
      * rewrite elem_of_union, elem_of_singleton. tauto.
      * split; (intros [?|[? ?]]; [by left | done]).
Qed.

Lemma fill_range_spec (st st1 : ucd) (rb : Z * Z) :
  fill_range st rb = Some st1 →
  (∀ c, general_category st1 !! c
        = if decide (rb.1 < c < rb.2) then general_category st !! rb.1
          else general_category st !! c) ∧
  (∀ c, bidi_class st1 !! c
        = if decide (rb.1 < c < rb.2) then bidi_class st !! rb.1
          else bidi_class st !! c) ∧
  (∀ c, c ∈ bidi_mirrored st1 ↔
        c ∈ bidi_mirrored st ∨ (rb.1 ∈ bidi_mirrored st ∧ rb.1 < c < rb.2)) ∧
  combining_class st1 = combining_class st ∧
  character_names st1 = character_names st.
Proof.
  unfold fill_range. destruct (general_category st !! rb.1) as [gc|]; [|done].
  destruct (bidi_class st !! rb.1) as [bc|]; [|done]. cbn [mbind option_bind].
  intros [= <-].
  destruct (fill_codes_spec gc bc (bool_decide (rb.1 ∈ bidi_mirrored st))
              (seqZ (rb.1 + 1) (rb.2 - (rb.1 + 1))) st)
    as (Hgc & Hbc & Hbm & Hcc & Hnames).
  assert (Hin : ∀ c, c ∈ seqZ (rb.1 + 1) (rb.2 - (rb.1 + 1)) ↔ rb.1 < c < rb.2).
  { intros c. rewrite elem_of_seqZ. lia. }
  split; [|split; [|split; [|split]]]; [| | |done|done].
  - intros c. rewrite Hgc. specialize (Hin c).
    destruct (decide (c ∈ _)), (decide (rb.1 < c < rb.2)); tauto.
  - intros c. rewrite Hbc. specialize (Hin c).
    destruct (decide (c ∈ _)), (decide (rb.1 < c < rb.2)); tauto.
  - intros c. rewrite Hbm, Hin, bool_decide_eq_true. done.
Qed.
(** X14.  The loop over the ranges gives every code strictly between the
    bounds of a range the general category and bidi class of the first code of
    the last such range, and the mirrored flag of the first code of any such
    range, provided no range starts strictly inside an earlier one; other
    codes keep their entries, and combining classes and names are not
    propagated. *)
Theorem fill_loop_values (ranges : list (Z * Z)) (st st' : ucd) :
  (∀ i j rb1 rb2, (i < j)%nat → ranges !! i = Some rb1 → ranges !! j = Some rb2 →
                  ¬ (rb1.1 < rb2.1 < rb1.2)) →
  fill_loop ranges st = Some st' →
  (∀ c, general_category st' !! c
        = match last_match (λ rb, rb.1 < c < rb.2) ranges with
          | Some rb => general_category st !! rb.1
          | None => general_category st !! c
          end) ∧
  (∀ c, bidi_class st' !! c
        = match last_match (λ rb, rb.1 < c < rb.2) ranges with
          | Some rb => bidi_class st !! rb.1
          | None => bidi_class st !! c
          end) ∧
  (∀ c, c ∈ bidi_mirrored st' ↔
        c ∈ bidi_mirrored st ∨
        ∃ rb, rb ∈ ranges ∧ rb.1 ∈ bidi_mirrored st ∧ rb.1 < c < rb.2) ∧
  combining_class st' = combining_class st ∧
  character_names st' = character_names st.
Proof.
  revert st. induction ranges as [|rb ranges IH]; intros st Hsep Hrun;
    cbn [fill_loop] in Hrun.
  - injection Hrun as <-. repeat split; try done; [by left|].
    intros [?|(rb & Hrb & _)]; [done | by apply elem_of_nil in Hrb].
  - destruct (fill_range st rb) as [st1|] eqn:Hrange; [|done].
    cbn [mbind option_bind] in Hrun.
    destruct (fill_range_spec _ _ _ Hrange) as (Hgc1 & Hbc1 & Hbm1 & Hcc1 & Hn1).
    destruct (IH st1) as (Hgc & Hbc & Hbm & Hcc & Hn); [|done|].
    { intros i j rb1 rb2 Hij Hi Hj. apply (Hsep (S i) (S j)); [lia | done | done]. }
    assert (Hout : ∀ rb', rb' ∈ ranges → ¬ (rb.1 < rb'.1 < rb.2)).
    { intros rb' [j Hj]%list_elem_of_lookup_1.
      apply (Hsep 0%nat (S j)); [lia | done | done]. }
    split; [|split; [|split; [|split]]]; [| | |congruence|congruence].
    + intros c. rewrite Hgc. cbn [last_match].
      destruct (last_match _ ranges) as [rb'|] eqn:Hlast.
      * apply last_match_Some in Hlast as (j & Hj%list_elem_of_lookup_2 & _).
        rewrite Hgc1. by rewrite decide_False by by apply Hout.
      * rewrite Hgc1. by destruct (decide (rb.1 < c < rb.2)).
    + intros c. rewrite Hbc. cbn [last_match].
      destruct (last_match _ ranges) as [rb'|] eqn:Hlast.
      * apply last_match_Some in Hlast as (j & Hj%list_elem_of_lookup_2 & _).
        rewrite Hbc1. by rewrite decide_False by by apply Hout.
      * rewrite Hbc1. by destruct (decide (rb.1 < c < rb.2)).
    + intros c. rewrite Hbm, Hbm1. split.
      * intros [[?|[? ?]]|(rb' & Hrb' & Hm & Hc)]; [by left | |].
        -- right. exists rb. split; [left | done].
        -- right. exists rb'. split; [by right|]. split; [|done].
           apply Hbm1 in Hm as [?|[_ ?]]; [done|]. by destruct (Hout rb' Hrb').
      * intros [?|(rb' & [->|Hrb']%elem_of_cons & Hm & Hc)].
        -- left. by left.
        -- left. by right.
        -- right. exists rb'. split; [done|]. split; [|done]. apply Hbm1. by left.
Qed.

Lemma fill_loop_is_Some (ranges : list (Z * Z)) (st : ucd) :
  (∀ rb, rb ∈ ranges → is_Some (general_category st !! rb.1) ∧
                       is_Some (bidi_class st !! rb.1)) →
  is_Some (fill_loop ranges st).
Proof.
  revert st. induction ranges as [|rb ranges IH]; intros st Hfirst;
    cbn [fill_loop]; [by eexists|].
  destruct (Hfirst rb) as [[gc Hgc] [bc Hbc]]; [left|].
  destruct (fill_range st rb) as [st1|] eqn:Hrange.
  - cbn [mbind option_bind]. apply IH. intros rb' Hrb'.
    destruct (fill_range_spec _ _ _ Hrange) as (Hgc1 & Hbc1 & _).
    rewrite Hgc1, Hbc1. destruct (Hfirst rb') as [? ?]; [by right|].
    destruct (decide (rb.1 < rb'.1 < rb.2)); [|done]. rewrite Hgc, Hbc. eauto.
  - unfold fill_range in Hrange. by rewrite Hgc, Hbc in Hrange.
Qed.

Lemma unicode_data_record_bounds (fields : ud_fields) (st st' : ucd) (rb : Z * Z) :
  unicode_data_record fields st = Some st' →
  rb ∈ range_bounds st' →
  rb.1 = ud_code fields ∨ ∃ rb0, rb0 ∈ range_bounds st ∧ rb0.1 = rb.1.
Proof.
  unfold unicode_data_record. intros Hrec.
  destruct (if endswith " First>" (ud_name fields) then _ else _) as [rbs|] eqn:HX;
    [|done]. simpl in Hrec.
  destruct (char_at (ud_category fields) 0) as [g0|]; [|done]. simpl in Hrec.
  destruct (char_at (ud_category fields) 1) as [g1|]; [|done]. simpl in Hrec.
  injection Hrec as <-. simpl.
  destruct (endswith " First>" (ud_name fields)).
  - injection HX as <-. intros [Hin|Hin]%elem_of_app; [right; eauto|].
    apply list_elem_of_singleton in Hin as ->. by left.
  - destruct (endswith " Last>" (ud_name fields)).
    + apply close_range_Some in HX as (first & l & rest & -> & ->).
      intros [Hin|Hin]%elem_of_app; right.
      * exists rb. split; [apply elem_of_app; by left | done].
      * apply list_elem_of_singleton in Hin as ->. exists (first, l).
        split; [apply elem_of_app; right; left | done].
    + injection HX as <-. intros Hin. right. eauto.
Qed.

(** X15.  After a pass over [UnicodeData.txt] that did not raise, the loop
    over the ranges does not raise either: the first code of every range has
    a general category and a bidi class. *)
Theorem fill_ranges_never_raises (records : list ud_fields) (st : ucd) :
  process_records records ucd_init = Some st →
  is_Some (fill_ranges st).
Proof.
  intros Hrun. apply fill_loop_is_Some.
  assert (Hinv : ∀ records st0 st,
    process_records records st0 = Some st →
    (∀ rb, rb ∈ range_bounds st0 → is_Some (general_category st0 !! rb.1) ∧
                                   is_Some (bidi_class st0 !! rb.1)) →
    ∀ rb, rb ∈ range_bounds st → is_Some (general_category st !! rb.1) ∧
                                 is_Some (bidi_class st !! rb.1)).
  { clear. induction records as [|r records IH]; intros st0 st Hrun Hfirst;
      cbn [process_records] in Hrun; [by injection Hrun as <-|].
    destruct (unicode_data_record r st0) as [st1|] eqn:Hrec; [|done].
    cbn [mbind option_bind] in Hrun. apply (IH st1 st Hrun).
    intros rb Hrb.
    destruct (unicode_data_record_tables _ _ _ Hrec) as ([gc Hgc] & Hbc & _).
    rewrite Hgc, Hbc.
    destruct (decide (ud_code r = rb.1)) as [Heq|Hne].
    { rewrite Heq, !lookup_insert_eq. eauto. }
    rewrite !lookup_insert_ne by done.
    destruct (unicode_data_record_bounds _ _ _ rb Hrec Hrb) as [?|(rb0 & Hrb0 & Heq)];
      [done|]. rewrite <- Heq. by apply Hfirst. }
  apply (Hinv records ucd_init st Hrun). intros rb Hrb. by apply elem_of_nil in Hrb.
Qed.
End unicode_data_more.

Definition example_range_data : list UnicodeData.ud_fields :=
  [ {| UnicodeData.ud_code := 0x1C4;
       UnicodeData.ud_name := "LATIN CAPITAL LETTER DZ WITH CARON";
       UnicodeData.ud_category := "Lu"; UnicodeData.ud_ccc := 0;
       UnicodeData.ud_bidi := "L";
       UnicodeData.ud_decomp := UnicodeData.Compatibility [0x44; 0x17D];
       UnicodeData.ud_mirrored := "N";
       UnicodeData.ud_upper := None; UnicodeData.ud_lower := Some 0x1C6;
       UnicodeData.ud_title := Some 0x1C5 |};
    {| UnicodeData.ud_code := 0x3400;
       UnicodeData.ud_name := "<CJK Ideograph Extension A, First>";
       UnicodeData.ud_category := "Lo"; UnicodeData.ud_ccc := 0;
       UnicodeData.ud_bidi := "L";
       UnicodeData.ud_decomp := UnicodeData.NoDecomposition;
       UnicodeData.ud_mirrored := "N";
       UnicodeData.ud_upper := None; UnicodeData.ud_lower := None;
       UnicodeData.ud_title := None |};
    {| UnicodeData.ud_code := 0x3405;
       UnicodeData.ud_name := "<CJK Ideograph Extension A, Last>";
       UnicodeData.ud_category := "Lo"; UnicodeData.ud_ccc := 0;
       UnicodeData.ud_bidi := "L";
       UnicodeData.ud_decomp := UnicodeData.NoDecomposition;
       UnicodeData.ud_mirrored := "N";
       UnicodeData.ud_upper := None; UnicodeData.ud_lower := None;
       UnicodeData.ud_title := None |};
    {| UnicodeData.ud_code := 0xFDFA;
       UnicodeData.ud_name := "ARABIC LIGATURE SALLALLAHOU ALAYHE WASALLAM";
       UnicodeData.ud_category := "Lo"; UnicodeData.ud_ccc := 0;
       UnicodeData.ud_bidi := "AL";
       UnicodeData.ud_decomp :=
         UnicodeData.Compatibility [0x635; 0x644; 0x649; 0x20; 0x627];
       UnicodeData.ud_mirrored := "N";
       UnicodeData.ud_upper := None; UnicodeData.ud_lower := None;
       UnicodeData.ud_title := None |} ].

Lemma example_range_data_processed :
  is_Some (UnicodeData.process_records example_range_data UnicodeData.ucd_init).
Proof. vm_compute. eauto. Qed.

Example example_range_data_bounds :
  UnicodeData.range_bounds
    <$> UnicodeData.process_records example_range_data UnicodeData.ucd_init
  = Some [(0x3400, 0x3405)].
Proof. vm_compute. reflexivity. Qed.

Example example_last_alone_fails :
  UnicodeData.process_records (drop 2 example_range_data) UnicodeData.ucd_init = None.
Proof. vm_compute. reflexivity. Qed.

Lemma last_record_wins_witness :
  ∃ st,
    UnicodeData.process_records example_range_data UnicodeData.ucd_init = Some st ∧
    UnicodeData.character_names st !! 0x3400
    = UnicodeData.ud_name
        <$> last_match (λ r, UnicodeData.ud_code r = 0x3400 ∧
                             Str.startswith "<" (UnicodeData.ud_name r) = false)
                       example_range_data.
Proof.
  destruct example_range_data_processed as [st Hst]. exists st.
  split; [exact Hst|].
  exact (proj1 (proj2 (last_record_wins example_range_data st 0x3400 Hst))).
Defined.

Lemma compatibility_split_witness :
  ∃ st,
    UnicodeData.process_records example_range_data UnicodeData.ucd_init = Some st ∧
    is_Some (Charmap.write_charmap
               (Charmap.Multiple <$> UnicodeData.short_compatibility st) 3).
Proof.
  destruct example_range_data_processed as [st Hst]. exists st.
  split; [exact Hst|].
  exact (proj2 (proj2 (proj2 (compatibility_split example_range_data st Hst)))).
Defined.

Lemma fill_ranges_never_raises_witness :
  ∃ st,
    UnicodeData.process_records example_range_data UnicodeData.ucd_init = Some st ∧
    is_Some (UnicodeRanges.fill_ranges st).
Proof.
  destruct example_range_data_processed as [st Hst]. exists st.
  split; [exact Hst|]. exact (fill_ranges_never_raises example_range_data st Hst).
Defined.

(** The tables of ranges and first codes after a pass over two ranges. *)
Definition example_range_state : UnicodeData.ucd :=
  {| UnicodeData.character_names := ∅;
     UnicodeData.range_bounds := [(0x3400, 0x3405); (0x4E00, 0x4E03)];
     UnicodeData.general_category :=
       <[0x3400 := "0x4c6f"]> (<[0x3405 := "0x4c6f"]>
         (<[0x4E00 := "0x4c6f"]> (<[0x4E03 := "0x4c6f"]> ∅)));
     UnicodeData.combining_class :=
       <[0x3400 := 0]> (<[0x3405 := 0]> (<[0x4E00 := 0]> (<[0x4E03 := 0]> ∅)));
     UnicodeData.bidi_class :=
       <[0x3400 := "Bidi_Class::L"]> (<[0x3405 := "Bidi_Class::L"]>
         (<[0x4E00 := "Bidi_Class::L"]> (<[0x4E03 := "Bidi_Class::L"]> ∅)));
     UnicodeData.bidi_mirrored := ∅;
     UnicodeData.canonical := [];
     UnicodeData.composition_exclusion := ∅;
     UnicodeData.short_compatibility := ∅;
     UnicodeData.long_compatibility := ∅;
     UnicodeData.simple_upper := ∅;
     UnicodeData.simple_lower := ∅;
     UnicodeData.simple_title := ∅ |}.

Lemma example_range_state_filled :
  is_Some (UnicodeRanges.fill_loop (UnicodeData.range_bounds example_range_state)
             example_range_state).
Proof. vm_compute. eauto. Qed.

Example example_range_state_categories :
  (λ st, UnicodeData.general_category st !! 0x3402)
    <$> UnicodeRanges.fill_ranges example_range_state
  = Some (Some "0x4c6f"%string).
Proof. vm_compute. reflexivity. Qed.

Lemma fill_loop_values_witness :
  (∀ i j rb1 rb2, (i < j)%nat →
     UnicodeData.range_bounds example_range_state !! i = Some rb1 →
     UnicodeData.range_bounds example_range_state !! j = Some rb2 →
     ¬ (rb1.1 < rb2.1 < rb1.2)) ∧
  ∃ st',
    UnicodeRanges.fill_loop (UnicodeData.range_bounds example_range_state)
      example_range_state = Some st' ∧
    UnicodeData.combining_class st' = UnicodeData.combining_class example_range_state.
Proof.
  assert (Hsep : ∀ i j rb1 rb2, (i < j)%nat →
     UnicodeData.range_bounds example_range_state !! i = Some rb1 →
     UnicodeData.range_bounds example_range_state !! j = Some rb2 →
     ¬ (rb1.1 < rb2.1 < rb1.2)).
  { intros [|[|i]] [|[|j]] rb1 rb2 Hij; simpl; try lia; try done.
    intros [= <-] [= <-]. simpl. lia. }
  split; [exact Hsep|].
  destruct example_range_state_filled as [st' Hst']. exists st'.
  split; [exact Hst'|].
  exact (proj1 (proj2 (proj2 (proj2
           (fill_loop_values _ example_range_state st' Hsep Hst'))))).
Defined.

(** * Further properties of the case-folding tables *)

Section case_folding_more.
Import Charmap CaseFolding.

(** X16.  The normalisation of the simple folds loses nothing: reading the
    written table, falling back on the simple lower case and then on the
    codepoint itself, gives the fold read from [CaseFolding.txt], or the
    codepoint itself where the file has none. *)
Theorem fold_normalization_lossless (simple_lower simple_fold : gmap Z Z) (c : Z) :
  default (default c (simple_lower !! c)) (normalize_folds simple_lower simple_fold !! c)
  = default c (simple_fold !! c).
Proof.
  pose proof (normalize_folds_lookup simple_lower simple_fold c) as Hn.
  pose proof (default_folds_lookup simple_lower simple_fold c) as Hd.
  destruct (normalize_folds simple_lower simple_fold !! c) as [m|] eqn:Hm; simpl.
  - destruct (proj1 (Hn m) eq_refl) as [Hdm Hne]. rewrite Hd in Hdm.
    destruct (simple_fold !! c) as [m'|]; simpl; [congruence|].
    destruct (decide (is_Some (simple_lower !! c))); congruence.
  - destruct (simple_fold !! c) as [m'|] eqn:Hf; simpl.
    + destruct (decide (simple_lower !! c = Some m')) as [->|Hne]; [done|].
      assert (None = Some m') as Habs by (by apply Hn). done.
    + destruct (simple_lower !! c) as [l|] eqn:Hl; simpl; [|done].
      rewrite decide_True in Hd by (by eexists).
      destruct (decide (l = c)) as [|Hne]; [done|].
      assert (None = Some c) as Habs; [|done].
      apply Hn. split; [done | congruence].
Qed.

Section case_folding_file.
Import CaseFoldingFile.
(** [int(s, 16)], [None] for its [ValueError]. *)
Variable int16 : string → option Z.

(** A mapping of more than one character. *)
Definition multiple (values : option (list Z)) : Prop :=
  match values with Some values => (1 < length values)%nat | None => False end.

#[local] Instance multiple_dec values : Decision (multiple values).
Proof. destruct values; simpl; apply _. Defined.

Lemma cf_file_record_None (r : cf_record) (ft : fold_tables) :
  CaseFoldingFile.case_folding_record int16 r ft = None ↔
  int16 (f_code r) = None ∨
  ((f_status r = "C"%string ∨ f_status r = "S"%string) ∧
   int16 (f_mapping r) = None) ∨
  (f_status r = "F"%string ∧ Fields.split_codes int16 (f_mapping r) = None).
Proof.
  unfold CaseFoldingFile.case_folding_record.
  destruct (int16 (f_code r)) as [code|] eqn:Hcode; cbn [mbind option_bind];
    [|split; [intros _; by left | done]].
  destruct (decide (f_status r = "C"%string ∨ f_status r = "S"%string)) as [Hcs|Hn].
  - destruct (int16 (f_mapping r)) as [mapping|] eqn:Hm; cbn [mbind option_bind].
    + split; [done|]. intros [?|[[_ ?]|[HF _]]]; [done | done |].
      destruct Hcs as [Hcs|Hcs]; rewrite Hcs in HF; discriminate.
    + split; [|done]. intros _. right. left. done.
  - destruct (decide (f_status r = "F"%string)) as [HF|HnF].
    + destruct (Fields.split_codes int16 (f_mapping r)) as [values|] eqn:Hv;
        cbn [mbind option_bind].
      * split; [by case_decide|]. intros [?|[[? _]|[_ ?]]]; done.
      * split; [|done]. intros _. right. right. done.
    + split; [done|]. intros [?|[[? _]|[? _]]]; done.
Qed.

Lemma cf_file_record_lookup (r : cf_record) (ft ft' : fold_tables) (c : Z) :
  CaseFoldingFile.case_folding_record int16 r ft = Some ft' →
  simple_fold ft' !! c
  = (if decide (int16 (f_code r) = Some c ∧
                (f_status r = "C"%string ∨ f_status r = "S"%string))
     then int16 (f_mapping r) else simple_fold ft !! c) ∧
  full_fold ft' !! c
  = (if decide (int16 (f_code r) = Some c ∧ f_status r = "F"%string ∧
                multiple (Fields.split_codes int16 (f_mapping r)))
     then Fields.split_codes int16 (f_mapping r) else full_fold ft !! c).
Proof.
  unfold CaseFoldingFile.case_folding_record.
  destruct (int16 (f_code r)) as [code|] eqn:Hcode; cbn [mbind option_bind]; [|done].
  destruct (decide (f_status r = "C"%string ∨ f_status r = "S"%string)) as [Hcs|Hn].
  - destruct (int16 (f_mapping r)) as [mapping|] eqn:Hm; cbn [mbind option_bind];
      [|done]. intros [= <-]. cbn [simple_fold full_fold]. split.
    + destruct (decide (code = c)) as [->|Hne].
      * by rewrite lookup_insert_eq, decide_True.
      * rewrite lookup_insert_ne by done. rewrite decide_False; [done|].
        intros [[= ?] _]. done.
    + rewrite decide_False; [done|]. intros (_ & HF & _).
      destruct Hcs as [Hcs|Hcs]; rewrite Hcs in HF; discriminate.
  - destruct (decide (f_status r = "F"%string)) as [HF|HnF].
    + destruct (Fields.split_codes int16 (f_mapping r)) as [values|] eqn:Hv;
        cbn [mbind option_bind]; [|done].
      destruct (decide (1 < length values)%nat) as [Hlen|Hlen]; intros [= <-];
        cbn [simple_fold full_fold]; (split; [rewrite decide_False; [done | tauto]|]).
      * destruct (decide (code = c)) as [->|Hne].
        -- by rewrite lookup_insert_eq, decide_True.
        -- rewrite lookup_insert_ne by done. rewrite decide_False; [done|].
           intros [[= ?] _]. done.
      * rewrite decide_False; [done|]. by intros (_ & _ & ?).
    + intros [= <-]. split; (rewrite decide_False; [done | tauto]).
Qed.

(** The record as [CaseFolding.cf_fields] holds it: the mapping of a
    common or simple record is its one number, that of a full record its
    words, and that of any other record is not read. *)
Definition read_cf_record (r : cf_record) : option cf_fields :=
  code ← int16 (f_code r);
  mapping ← (if decide (f_status r = "C"%string ∨ f_status r = "S"%string)
             then m ← int16 (f_mapping r); Some [m]
             else if decide (f_status r = "F"%string)
                  then Fields.split_codes int16 (f_mapping r)
                  else Some []);
  Some {| cf_code := code; cf_status := f_status r; cf_mapping := mapping |}.

(** On a record whose number fields can be read, the record as read from
    the file does what [CaseFolding.case_folding_record] does on the fields
    read. *)
Lemma cf_file_record_read (r : cf_record) (fields : cf_fields) (ft : fold_tables) :
  read_cf_record r = Some fields →
  CaseFoldingFile.case_folding_record int16 r ft
  = CaseFolding.case_folding_record fields ft.
Proof.
  unfold read_cf_record, CaseFoldingFile.case_folding_record,
    CaseFolding.case_folding_record. intros Hread.
  destruct (int16 (f_code r)) as [code|]; [|done].
  cbn [mbind option_bind] in Hread |- *.
  destruct (decide (f_status r = "C"%string ∨ f_status r = "S"%string)) as [Hcs|Hn].
  - destruct (int16 (f_mapping r)) as [m|]; [|done].
    cbn [mbind option_bind] in Hread |- *. injection Hread as <-.
    cbn [cf_code cf_status cf_mapping]. by rewrite decide_True.
  - destruct (decide (f_status r = "F"%string)) as [HF|HnF].
    + destruct (Fields.split_codes int16 (f_mapping r)) as [values|]; [|done].
      cbn [mbind option_bind] in Hread |- *. injection Hread as <-.
      cbn [cf_code cf_status cf_mapping].
      rewrite (decide_False (P := f_status r = "C"%string ∨ _)) by done.
      rewrite (decide_True (P := f_status r = "F"%string)) by done. reflexivity.
    + cbn [mbind option_bind] in Hread. injection Hread as <-.
      cbn [cf_code cf_status cf_mapping].
      rewrite (decide_False (P := f_status r = "C"%string ∨ _)) by done.
      rewrite (decide_False (P := f_status r = "F"%string)) by done. reflexivity.
Qed.

(** X17.  The pass over [CaseFolding.txt] raises exactly when [int]
    rejects the code of some record, the mapping of a common or simple record
    read as one number, or a word of the mapping of a full record; the
    mapping of a record of any other status is not read.  Otherwise a code
    has as simple fold the mapping of its last common or simple record, and
    as full fold the mapping of its last full record with more than one
    character. *)
Theorem case_folding_pass (records : list cf_record) :
  (CaseFoldingFile.process_records int16 records fold_init = None ↔
   ∃ r, r ∈ records ∧
        (int16 (f_code r) = None ∨
         ((f_status r = "C"%string ∨ f_status r = "S"%string) ∧
          int16 (f_mapping r) = None) ∨
         (f_status r = "F"%string ∧
          Fields.split_codes int16 (f_mapping r) = None))) ∧
  ∀ ft, CaseFoldingFile.process_records int16 records fold_init = Some ft →
    ∀ c,
      simple_fold ft !! c
      = last_match (λ r, int16 (f_code r) = Some c ∧
                         (f_status r = "C"%string ∨ f_status r = "S"%string)) records
          ≫= (λ r, int16 (f_mapping r)) ∧
      full_fold ft !! c
      = last_match (λ r, int16 (f_code r) = Some c ∧ f_status r = "F"%string ∧
                         multiple (Fields.split_codes int16 (f_mapping r))) records
          ≫= (λ r, Fields.split_codes int16 (f_mapping r)).
Proof.
  assert (Hgen : ∀ ft0,
    (CaseFoldingFile.process_records int16 records ft0 = None ↔
     ∃ r, r ∈ records ∧
          (int16 (f_code r) = None ∨
           ((f_status r = "C"%string ∨ f_status r = "S"%string) ∧
            int16 (f_mapping r) = None) ∨
           (f_status r = "F"%string ∧
            Fields.split_codes int16 (f_mapping r) = None))) ∧
    ∀ ft, CaseFoldingFile.process_records int16 records ft0 = Some ft →
      ∀ c,
        simple_fold ft !! c
        = match last_match (λ r, int16 (f_code r) = Some c ∧
                   (f_status r = "C"%string ∨ f_status r = "S"%string)) records with
          | Some r => int16 (f_mapping r)
          | None => simple_fold ft0 !! c
          end ∧
        full_fold ft !! c
        = match last_match (λ r, int16 (f_code r) = Some c ∧ f_status r = "F"%string ∧
                   multiple (Fields.split_codes int16 (f_mapping r))) records with
          | Some r => Fields.split_codes int16 (f_mapping r)
          | None => full_fold ft0 !! c
          end).
  { induction records as [|r records IH]; intros ft0;
      cbn [CaseFoldingFile.process_records last_match].
    - split; [split; [done | by intros (r & ?%elem_of_nil & _)]|].
      by intros ft [= <-] c.
    - destruct (CaseFoldingFile.case_folding_record int16 r ft0) as [ft1|] eqn:Hrec;
        cbn [mbind option_bind].
      + destruct (IH ft1) as [Hnone Hsome]. split.
        * rewrite Hnone. split.
          -- intros (r' & Hr' & Hbad). exists r'. split; [by right | done].
          -- intros (r' & [->|Hr']%elem_of_cons & Hbad); [|by exists r'].
             apply (proj2 (cf_file_record_None r ft0)) in Hbad. congruence.
        * intros ft Hrun c. destruct (Hsome ft Hrun c) as [-> ->].
          destruct (cf_file_record_lookup _ _ _ c Hrec) as [Hs Hf]. split.
          -- destruct (last_match _ records); [done|]. rewrite Hs.
             repeat case_decide; solve [done | tauto].
          -- destruct (last_match _ records); [done|]. rewrite Hf.
             repeat case_decide; solve [done | tauto].
      + split; [|done]. split; [|done]. intros _. exists r. split; [left|].
        by apply (cf_file_record_None r ft0). }
  destruct (Hgen fold_init) as [Hnone Hsome]. split; [done|].
  intros ft Hrun c. destruct (Hsome ft Hrun c) as [-> ->].
  split; by destruct (last_match _ records).
Qed.
End case_folding_file.
End case_folding_more.

(** * Properties of the full case mappings *)

Section special_casing_facts.
Import SpecialCasing.

Lemma foldl_proj_last_match {S A V : Type} (step : S → A → S) (proj : S → gmap Z V)
    (P : Z → A → Prop) `{!∀ c r, Decision (P c r)} (val : A → V) :
  (∀ s r c, proj (step s r) !! c
            = if decide (P c r) then Some (val r) else proj s !! c) →
  ∀ records s c,
    proj (foldl step s records) !! c
    = match last_match (P c) records with
      | Some r => Some (val r)
      | None => proj s !! c
      end.
Proof.
  intros Hstep records. induction records as [|r records IH]; intros s c; [done|].
  cbn [foldl last_match]. rewrite IH.
  destruct (last_match (P c) records); [done|]. rewrite Hstep.
  by destruct (decide (P c r)).
Qed.

Lemma special_casing_record_lookup (ft : full_tables) (r : sc_fields) (c : Z) :
  full_lower (special_casing_record ft r) !! c
  = (if decide (sc_code r = c ∧ sc_conditions r = EmptyString ∧
                (1 < length (sc_lower r))%nat)
     then Some (sc_lower r) else full_lower ft !! c) ∧
  full_title (special_casing_record ft r) !! c
  = (if decide (sc_code r = c ∧ sc_conditions r = EmptyString ∧
                (1 < length (sc_title r))%nat)
     then Some (sc_title r) else full_title ft !! c) ∧
  full_upper (special_casing_record ft r) !! c
  = (if decide (sc_code r = c ∧ sc_conditions r = EmptyString ∧
                (1 < length (sc_upper r))%nat)
     then Some (sc_upper r) else full_upper ft !! c).
Proof.
  unfold special_casing_record.
  destruct (decide (sc_conditions r = EmptyString)) as [Hcond|Hcond]; simpl.
  - rewrite !lookup_insert_if. repeat split; repeat case_decide; solve [done | tauto].
  - repeat split; (rewrite decide_False; [done | tauto]).
Qed.

(** X18.  Only records of [SpecialCasing.txt] without a condition are read,
    and of those only mappings of more than one character: a code has as full
    lower, title or upper case the mapping of its last such record, and no
    entry if there is none. *)
Theorem special_casing_tables (records : list sc_fields) (c : Z) :
  full_lower (SpecialCasing.process_records records) !! c
  = sc_lower <$> last_match (λ r, sc_code r = c ∧ sc_conditions r = EmptyString ∧
                                  (1 < length (sc_lower r))%nat) records ∧
  full_title (SpecialCasing.process_records records) !! c
  = sc_title <$> last_match (λ r, sc_code r = c ∧ sc_conditions r = EmptyString ∧
                                  (1 < length (sc_title r))%nat) records ∧
  full_upper (SpecialCasing.process_records records) !! c
  = sc_upper <$> last_match (λ r, sc_code r = c ∧ sc_conditions r = EmptyString ∧
                                  (1 < length (sc_upper r))%nat) records.
Proof.
  unfold SpecialCasing.process_records.
  rewrite (foldl_proj_last_match special_casing_record full_lower _ sc_lower
             (λ s r k, proj1 (special_casing_record_lookup s r k))).
  rewrite (foldl_proj_last_match special_casing_record full_title _ sc_title
             (λ s r k, proj1 (proj2 (special_casing_record_lookup s r k)))).
  rewrite (foldl_proj_last_match special_casing_record full_upper _ sc_upper
             (λ s r k, proj2 (proj2 (special_casing_record_lookup s r k)))).
  repeat split; by destruct (last_match _ records).
Qed.
End special_casing_facts.

(** * Further properties of the character names *)

Section names_more.
Import Str Charmap ProcessFile Names.
Variable compress : list byte → list byte.



End names_more.

(** * Further properties of the script tags *)

Section script_more.
Import Str Script ScriptTable.

Lemma lower_char_nonzero (c : ascii) : 0 < ord c → 0 < ord (lower_char c).
Proof.
  destruct c as [[|] [|] [|] [|] [|] [|] [|] [|]]; vm_compute; done.
Qed.

Lemma lower_nonzero (abbr : string) :
  Forall (λ c, 0 < ord c) (list_ascii_of_string abbr) →
  Forall (λ c, 0 < ord c) (lower abbr).
Proof.
  unfold lower. induction 1 as [|c l Hc _ IH]; [constructor|].
  rewrite fmap_cons. constructor; [by apply lower_char_nonzero | done].
Qed.

(** X20.  On strings of characters U+0001 to U+00FF, of any length (on
    these [str.lower] keeps the length and stays below U+0100, and every
    character packs into one byte), [encode_script] tells two script codes
    apart exactly when they differ after lowering, so codes that differ only
    in case get the same tag; and the tag fits the 32 bits of the table
    exactly when the code has at most four characters. *)
Theorem encode_script_case_insensitive (abbr1 abbr2 : string) :
  Forall (λ c, 0 < ord c) (list_ascii_of_string abbr1) →
  Forall (λ c, 0 < ord c) (list_ascii_of_string abbr2) →
  (encode_script abbr1 = encode_script abbr2 ↔ lower abbr1 = lower abbr2) ∧
  (encode_script abbr1 < 2 ^ 32 ↔ (String.length abbr1 ≤ 4)%nat).
Proof.
  intros H1%lower_nonzero H2%lower_nonzero. fold (pack (lower abbr1)) in *.
  change (encode_script abbr1) with (pack (lower abbr1)).
  change (encode_script abbr2) with (pack (lower abbr2)).
  split; [split; [by apply pack_inj | by intros ->]|].
  assert (Hlen : length (lower abbr1) = String.length abbr1).
  { unfold lower. by rewrite length_fmap, length_list_ascii. }
  rewrite <- Hlen. destruct (lower abbr1) as [|c l] eqn:Hl.
  { unfold pack. simpl. split; [lia | done]. }
  rewrite <- Hl in *. assert (Hne : lower abbr1 ≠ []) by (by rewrite Hl).
  pose proof (pack_range (lower abbr1) Hne H1) as [Hlo Hhi].
  split.
  - intros Hfit. destruct (decide (length (lower abbr1) ≤ 4)%nat) as [|Hlong]; [done|].
    assert (256 ^ 4 ≤ 256 ^ (Z.of_nat (length (lower abbr1)) - 1))
      by (apply Z.pow_le_mono_r; lia). lia.
  - intros Hshort.
    assert (256 ^ Z.of_nat (length (lower abbr1)) ≤ 256 ^ 4)
      by (apply Z.pow_le_mono_r; lia). lia.
Qed.

Lemma foldl_insert_const {V : Type} (v : V) (codes : list Z) (t : gmap Z V) (c : Z) :
  foldl (λ t c, <[c := v]> t) t codes !! c
  = if decide (c ∈ codes) then Some v else t !! c.
Proof.
  revert t. induction codes as [|k codes IH]; intros t; cbn [foldl].
  - destruct (decide (c ∈ [])) as [Hin|]; [by apply elem_of_nil in Hin | done].
  - rewrite IH.
    destruct (decide (c ∈ codes)) as [Hin|Hnin],
             (decide (c ∈ k :: codes)) as [Hin'|Hnin']; [done| | |].
    + exfalso. apply Hnin'. by right.
    + apply elem_of_cons in Hin' as [->|?]; [|done]. by rewrite lookup_insert_eq.
    + rewrite lookup_insert_ne; [done|]. intros ->. apply Hnin'. left.
Qed.

Section script_file.
(** [int(s, 16)], [None] for its [ValueError]. *)
Variable int16 : string → option Z.

(** The codepoints of a code field that could be read. *)
Definition covered (codes : option (list Z)) (c : Z) : Prop :=
  match codes with Some codes => c ∈ codes | None => False end.

#[local] Instance covered_dec codes c : Decision (covered codes c).
Proof. destruct codes; simpl; apply _. Defined.

(** X21.  The pass over [Scripts.txt] raises exactly when some record has
    a code field that [hexrange] cannot read, or names a script that
    [script_name_codes] does not have, even a record whose range is empty.
    Otherwise a codepoint has the tag of the script code of the last record
    covering it, and no entry when no record covers it. *)
Theorem script_pass (script_name_codes : gmap string string)
    (records : list script_fields) :
  (ScriptTable.process_records int16 script_name_codes records ∅ = None ↔
   ∃ r, r ∈ records ∧
        (Fields.hexrange int16 (f_codes r) = None ∨
         script_name_codes !! f_script r = None)) ∧
  ∀ scripts,
    ScriptTable.process_records int16 script_name_codes records ∅ = Some scripts →
    ∀ c, scripts !! c
         = last_match (λ r, covered (Fields.hexrange int16 (f_codes r)) c) records
             ≫= (λ r, encode_script <$> script_name_codes !! f_script r).
Proof.
  assert (Hgen : ∀ t0,
    (ScriptTable.process_records int16 script_name_codes records t0 = None ↔
     ∃ r, r ∈ records ∧
          (Fields.hexrange int16 (f_codes r) = None ∨
           script_name_codes !! f_script r = None)) ∧
    ∀ scripts,
      ScriptTable.process_records int16 script_name_codes records t0 = Some scripts →
      ∀ c, scripts !! c
           = match last_match (λ r, covered (Fields.hexrange int16 (f_codes r)) c)
                     records with
             | Some r => encode_script <$> script_name_codes !! f_script r
             | None => t0 !! c
             end).
  { induction records as [|r records IH]; intros t0;
      cbn [ScriptTable.process_records last_match].
    - split; [split; [done | by intros (r & ?%elem_of_nil & _)]|].
      by intros scripts [= <-] c.
    - unfold script_record at 1 2.
      destruct (Fields.hexrange int16 (f_codes r)) as [codes|] eqn:Hcodes;
        cbn [mbind option_bind].
      2: { split; [|done]. split; [|done]. intros _. exists r.
           split; [left | by left]. }
      destruct (script_name_codes !! f_script r) as [script|] eqn:Hscript;
        cbn [mbind option_bind].
      2: { split; [|done]. split; [|done]. intros _. exists r.
           split; [left | by right]. }
      destruct (IH (foldl (λ scripts c, <[c := encode_script script]> scripts)
                      t0 codes)) as [Hnone Hsome].
      split.
      + rewrite Hnone. split.
        * intros (r' & Hr' & Hbad). exists r'. split; [by right | done].
        * intros (r' & [->|Hr']%elem_of_cons & Hbad); [|by exists r'].
          destruct Hbad; congruence.
      + intros scripts Hrun c. rewrite (Hsome scripts Hrun c).
        destruct (last_match _ records); [done|].
        rewrite foldl_insert_const. simpl.
        destruct (decide (c ∈ codes)); [|done]. by rewrite Hscript. }
  destruct (Hgen ∅) as [Hnone Hsome]. split; [done|].
  intros scripts Hrun c. rewrite (Hsome scripts Hrun c).
  by destruct (last_match _ records).
Qed.
End script_file.
End script_more.

Lemma encode_script_case_insensitive_witness :
  Forall (λ c, 0 < Str.ord c) (list_ascii_of_string "Latn") ∧
  Forall (λ c, 0 < Str.ord c) (list_ascii_of_string "LATN") ∧
  (Script.encode_script "Latn" = Script.encode_script "LATN" ↔
   Script.lower "Latn" = Script.lower "LATN") ∧
  (Script.encode_script "Latn" < 2 ^ 32 ↔ (String.length "Latn" ≤ 4)%nat).
Proof.
  assert (H1 : Forall (λ c, 0 < Str.ord c) (list_ascii_of_string "Latn")).
  { simpl. repeat (constructor; [by vm_compute|]). constructor. }
  assert (H2 : Forall (λ c, 0 < Str.ord c) (list_ascii_of_string "LATN")).
  { simpl. repeat (constructor; [by vm_compute|]). constructor. }
  split; [exact H1|]. split; [exact H2|].
  exact (encode_script_case_insensitive "Latn" "LATN" H1 H2).
Defined.

Example encode_script_zzzz : Script.encode_script "Zzzz" = 0x7a7a7a7a.
Proof. vm_compute. reflexivity. Qed.

(** * Further properties of the decomposition tables *)

Section decomposition_more.
Import Charmap UnicodeData Decomposition DecompositionTables.

(** X22.  No sequence in the composition table has fewer than two
    characters.  Writing the canonical table with [valsize = 2] raises exactly
    when some canonical decomposition has more than two characters; when it
    does not raise, every sequence of the composition table has exactly two
    characters, so as a key of size 2 it is written as it is, without
    padding. *)
Theorem composition_keys (records : list ud_fields) (exclusions : list code_field)
    (st : ucd) (tables : decomposition_tables) :
  process_records records ucd_init = Some st →
  derive st exclusions = Some tables →
  (∀ s c, dt_composition tables !! s = Some c → (2 ≤ length s)%nat) ∧
  (is_Some (write_canonical st) ↔
   ∀ c ds, PyDict.get (canonical st) c = Some ds → (length ds ≤ 2)%nat) ∧
  (is_Some (write_canonical st) →
   ∀ s c, dt_composition tables !! s = Some c → field_value (Multiple s) 2 = Some s).
Proof.
  intros Hrun Hderive.
  destruct (derive_spec records exclusions st Hrun) as (tables' & Hd & Hcomp & Hexcl).
  rewrite Hderive in Hd. injection Hd as <-.
  destruct (canonical_ok_run _ _ _ Hrun canonical_ok_init) as [Hnd Hok].
  assert (Hitem : ∀ s c, dt_composition tables !! s = Some c →
            PyDict.get (canonical st) c = Some s ∧ (2 ≤ length s)%nat).
  { intros s c. rewrite Hcomp. unfold composition_loop.
    rewrite composition_loop_lookup, lookup_empty.
    destruct (last_match _ _) as [[c' s']|] eqn:Hlast; [|done]. intros [= ->].
    apply last_match_Some in Hlast as (i & Hi & [Hs Hex] & _). simpl in Hs, Hex.
    subst s'. apply list_elem_of_lookup_2, pydict_get_elem in Hi; [|done].
    split; [done|]. destruct (Hok c s Hi) as (_ & Hne & Hone).
    destruct s as [|d0 [|d1 s]]; [done | | simpl; lia].
    exfalso. apply Hex, Hexcl. left. by apply Hone. }
  assert (Hfits : is_Some (write_canonical st) ↔
            ∀ c ds, PyDict.get (canonical st) c = Some ds → (length ds ≤ 2)%nat).
  { unfold write_canonical. rewrite write_charmap_fits. split.
    - intros Hall c ds Hget. apply (Hall c (Multiple ds)).
      rewrite lookup_fmap.
      apply pydict_get_elem, (elem_of_list_to_map (M := gmap Z)) in Hget; [|done..].
      by rewrite Hget.
    - intros Hall k v. rewrite lookup_fmap.
      destruct (list_to_map (canonical st) !! k) as [ds|] eqn:Hk; [|done].
      intros [= <-]. apply elem_of_list_to_map, pydict_get_elem in Hk; [|done..].
      simpl. split; [by eapply Hall | done]. }
  split; [intros s c Hs; by apply (Hitem s c)|]. split; [done|].
  intros Hw s c Hs. destruct (Hitem s c Hs) as [Hget Hlen].
  pose proof (proj1 Hfits Hw c s Hget) as Hle.
  apply field_value_Some. split; [split; [done | lia]|]. simpl.
  replace (2 - length s)%nat with 0%nat by lia. by rewrite app_nil_r.
Qed.
End decomposition_more.

Lemma composition_keys_witness :
  ∃ st tables,
    UnicodeData.process_records example_decompositions UnicodeData.ucd_init = Some st ∧
    Decomposition.derive st [Decomposition.CodeRange 0x958 0x959] = Some tables ∧
    ∀ s c, Decomposition.dt_composition tables !! s = Some c → (2 ≤ length s)%nat.
Proof.
  assert (Hrun : ∃ st tables,
            UnicodeData.process_records example_decompositions UnicodeData.ucd_init
            = Some st ∧
            Decomposition.derive st [Decomposition.CodeRange 0x958 0x959] = Some tables).
  { eexists _, _. split; vm_compute; reflexivity. }
  destruct Hrun as (st & tables & Hst & Htables). exists st, tables.
  split; [exact Hst|]. split; [exact Htables|].
  exact (proj1 (composition_keys example_decompositions _ st tables Hst Htables)).
Defined.

(** * Properties of the normalization identity set *)

Section normalization_test_facts.
Import Charmap SparseSet ProcessFile Properties NormalizationTest.

Lemma scalar_values_elem (c : Z) :
  c ∈ scalar_values ↔ 0 ≤ c < 0x110000 ∧ ¬ (0xd800 ≤ c < 0xe000).
Proof.
  unfold scalar_values.
  rewrite elem_of_difference, !elem_of_list_to_set, !elem_of_seqZ. lia.
Qed.

Section normalization_file.
(** [int(s, 16)], [None] for its [ValueError]. *)
Variable int16 : string → option Z.

(** The codepoint that a record removes from the identity set: its first
    field, when that has no space and is a number. *)
Definition single_source (fields : list string) (c : Z) : Prop :=
  ∃ source, head fields = Some source ∧ (" "%char ∉ chars source) ∧
            int16 source = Some c.

(** A record on which [normalization_test_record] raises: no first field,
    or a first field without a space that [int] rejects. *)
Definition unreadable_source (fields : list string) : Prop :=
  head fields = None ∨
  ∃ source, head fields = Some source ∧ (" "%char ∉ chars source) ∧
            int16 source = None.

Lemma normalization_record (fields : list string) (st : nt_tables) :
  (normalization_test_record int16 fields st = None ↔ unreadable_source fields) ∧
  ∀ st', normalization_test_record int16 fields st = Some st' →
    normalization_tests st' = normalization_tests st ++ [quoted <$> fields] ∧
    ∀ c, c ∈ normalization_identity st' ↔
         c ∈ normalization_identity st ∧ ¬ single_source fields c.
Proof.
  unfold normalization_test_record, unreadable_source, single_source.
  destruct (head fields) as [source|]; cbn [mbind option_bind].
  2: { split; [split; [by left | done] | done]. }
  destruct (bool_decide (" "%char ∈ chars source)) eqn:Hspace.
  - apply bool_decide_eq_true in Hspace. split.
    + split; [done|]. intros [?|(s & [= <-] & Hno & _)]; done.
    + intros st' [= <-]. split; [done|]. intros c. simpl. split.
      * intros Hc. split; [done|]. intros (s & [= <-] & Hno & _). done.
      * by intros [? _].
  - apply bool_decide_eq_false in Hspace.
    destruct (int16 source) as [c0|] eqn:Hint; cbn [mbind option_bind].
    + split.
      * split; [done|]. intros [?|(s & [= <-] & _ & ?)]; congruence.
      * intros st' [= <-]. split; [done|]. intros c. simpl.
        rewrite elem_of_difference, elem_of_singleton. split.
        -- intros [Hc Hne]. split; [done|]. intros (s & [= <-] & _ & ?). congruence.
        -- intros [Hc Hno]. split; [done|]. intros ->. apply Hno. by exists source.
    + split; [|done]. split; [|done]. intros _. right. by exists source.
Qed.

Lemma normalization_pass (records : list (list string)) (st0 : nt_tables) :
  (NormalizationTest.process_records int16 records st0 = None ↔
   ∃ r, r ∈ records ∧ unreadable_source r) ∧
  ∀ st, NormalizationTest.process_records int16 records st0 = Some st →
    normalization_tests st
    = normalization_tests st0 ++ ((λ r : list string, quoted <$> r) <$> records) ∧
    ∀ c, c ∈ normalization_identity st ↔
         c ∈ normalization_identity st0 ∧ ¬ ∃ r, r ∈ records ∧ single_source r c.
Proof.
  revert st0. induction records as [|r records IH]; intros st0;
    cbn [NormalizationTest.process_records].
  - split; [split; [done | by intros (r & ?%elem_of_nil & _)]|].
    intros st [= <-]. split; [by rewrite app_nil_r|]. intros c.
    split; [|by intros [? _]]. intros Hc. split; [done|].
    by intros (r & ?%elem_of_nil & _).
  - destruct (normalization_record r st0) as [Hrnone Hrsome].
    destruct (normalization_test_record int16 r st0) as [st1|] eqn:Hrec;
      cbn [mbind option_bind].
    + destruct (Hrsome st1 eq_refl) as [Ht1 Hid1].
      destruct (IH st1) as [Hnone Hsome]. split.
      * rewrite Hnone. split.
        -- intros (r' & Hr' & Hbad). exists r'. split; [by right | done].
        -- intros (r' & [->|Hr']%elem_of_cons & Hbad); [|by exists r'].
           apply Hrnone in Hbad. done.
      * intros st Hrun. destruct (Hsome st Hrun) as [-> Hid].
        split; [by rewrite Ht1, <- app_assoc|]. intros c. rewrite Hid, Hid1. split.
        -- intros [[Hc Hno1] Hno]. split; [done|].
           intros (r' & [->|Hr']%elem_of_cons & Hbad); [done|].
           apply Hno. by exists r'.
        -- intros [Hc Hno]. split; [split; [done|]|].
           ++ intros Hsrc. apply Hno. exists r. split; [left | done].
           ++ intros (r' & Hr' & Hbad). apply Hno. exists r'. split; [by right | done].
    + split; [|done]. split; [|done]. intros _. exists r. split; [left|].
      by apply Hrnone.
Qed.

(** X23.  The pass over [NormalizationTest.txt] raises exactly when the
    first field of some record has no space and is not a number that [int]
    accepts (an empty field is one).  Otherwise every record adds one test,
    and the intervals written for the identity set cover exactly the
    codepoints up to U+10FFFF that are not surrogates and are not the number
    read from the space-free first field of any record. *)
Theorem normalization_identity_written (records : list (list string)) :
  (NormalizationTest.process_records int16 records nt_init = None ↔
   ∃ r, r ∈ records ∧ unreadable_source r) ∧
  ∀ st, NormalizationTest.process_records int16 records nt_init = Some st →
    length (normalization_tests st) = length records ∧
    ∃ entries,
      write_sparse_set (normalization_identity st) = Some entries ∧
      ∀ c, (∃ e, e ∈ entries ∧ covers e c) ↔
           (0 ≤ c < 0x110000 ∧ ¬ (0xd800 ≤ c < 0xe000)) ∧
           ¬ ∃ r, r ∈ records ∧ single_source r c.
Proof.
  destruct (normalization_pass records nt_init) as [Hnone Hsome].
  split; [done|]. intros st Hrun. destruct (Hsome st Hrun) as [Htests Hid].
  split; [by rewrite Htests, length_app, length_fmap|].
  assert (Hmem : ∀ c, c ∈ normalization_identity st ↔
            (0 ≤ c < 0x110000 ∧ ¬ (0xd800 ≤ c < 0xe000)) ∧
            ¬ ∃ r, r ∈ records ∧ single_source r c).
  { intros c. rewrite Hid. unfold nt_init. cbn [normalization_identity].
    by rewrite scalar_values_elem. }
  destruct (scan_subranges_spec (normalization_identity st)) as [Hends Hcover].
  { intros [[? _] _]%Hmem. lia. }
  unfold write_sparse_set.
  destruct (write_charmap_single (ss_subranges (foldl scan_step scan_init
              (sorted (elements (normalization_identity st))))))
    as (entries & He & _ & Hin).
  exists entries. split; [done|]. intros c. rewrite <- Hmem. split.
  - intros ([f fv] & (v & Hfl & ->)%Hin & (l & [= <-] & Hc)). simpl in Hc.
    by apply (Hends f v Hfl).
  - intros (f & l & Hfl & Hc)%Hcover. exists (f, [l]).
    split; [apply Hin; eauto|]. exists l. done.
Qed.
End normalization_file.
End normalization_test_facts.

(** * The readers of the fields on examples *)

Example example_words :
  Fields.words "0044  017D" = ["0044"; "017D"]%string ∧
  Fields.words EmptyString = [].
Proof. split; reflexivity. Qed.

Example example_decomposition_text :
  UnicodeDataFile.decomposition_text "<compat> 0044 017D" = "0044 017D"%string ∧
  UnicodeDataFile.decomposition_text "0041 0300" = "0041 0300"%string.
Proof. split; vm_compute; reflexivity. Qed.

Example example_hexrange :
  Fields.hexrange Names.parse_hex "0041..0043" = Some [0x41; 0x42; 0x43] ∧
  Fields.hexrange Names.parse_hex "0041" = Some [0x41] ∧
  Fields.hexrange Names.parse_hex "0041..zz" = None ∧
  Fields.hexrange Names.parse_hex "0043..0041" = Some [].
Proof. repeat split; vm_compute; reflexivity. Qed.

Example example_script_pass :
  ScriptTable.process_records Names.parse_hex (<["Latin"%string := "Latn"%string]> ∅)
    [ {| ScriptTable.f_codes := "0041..0042"; ScriptTable.f_script := "Latin" |} ] ∅
  = Some (<[0x41 := 0x6c61746e]> (<[0x42 := 0x6c61746e]> ∅)) ∧
  ScriptTable.process_records Names.parse_hex (<["Latin"%string := "Latn"%string]> ∅)
    [ {| ScriptTable.f_codes := "0043..0041"; ScriptTable.f_script := "Greek" |} ] ∅
  = None.
Proof. split; vm_compute; reflexivity. Qed.

Example example_case_folding_pass :
  CaseFoldingFile.process_records Names.parse_hex
    [ {| CaseFoldingFile.f_code := "0041"; CaseFoldingFile.f_status := "C";
         CaseFoldingFile.f_mapping := "0061" |};
      {| CaseFoldingFile.f_code := "0130"; CaseFoldingFile.f_status := "F";
         CaseFoldingFile.f_mapping := "0069 0307" |};
      {| CaseFoldingFile.f_code := "0130"; CaseFoldingFile.f_status := "T";
         CaseFoldingFile.f_mapping := "not read" |} ]
    CaseFolding.fold_init
  = Some example_folds ∧
  CaseFoldingFile.process_records Names.parse_hex
    [ {| CaseFoldingFile.f_code := "0041"; CaseFoldingFile.f_status := "S";
         CaseFoldingFile.f_mapping := "0061 0062" |} ]
    CaseFolding.fold_init
  = None.
Proof. split; vm_compute; reflexivity. Qed.
